(** * A shallow embedding of the lasso module loader and of the Marko
      component runtime shipped in [docs/static/hello-e154ee25.js].

    The bundle contains a browser-side clone of the NodeJS module system
    (path normalisation, resolution, instance cache, run queue) followed by
    the Marko runtime modules (key sequences, update manager, components).
    Each JavaScript function that the verified properties talk about is
    transcribed below under its source name; the own properties of a
    JavaScript object used as a dictionary are a [gmap], read through
    [JsObject.read] where the key is a string of the caller so that the
    members inherited from [Object.prototype] are seen; arrays become
    lists, exceptions become the [Throw] outcome and mutable module-level
    variables become fields of an explicit state record. *)

From Stdlib Require Import ZArith Ascii String List Lia.
From stdpp Require Import base option list gmap strings pretty.

Local Open Scope string_scope.
Local Open Scope Z_scope.
Local Open Scope list_scope.

(** ** JavaScript string primitives

    Only the primitives used by the loader are modelled.  Indices are
    JavaScript numbers holding integers, hence [Z]; every function clamps
    its arguments the way ECMAScript prescribes.  The search argument of
    [indexOf]/[lastIndexOf] and the separator of [split]/[join] is always a
    one-character literal in the source, so it is an [ascii] here. *)
Module JsString.

Definition len (s : string) : Z := Z.of_nat (String.length s).

Fixpoint drop_chars (n : nat) (s : string) : string :=
  match n, s with
  | O, _ => s
  | S n', String _ r => drop_chars n' r
  | S _, EmptyString => EmptyString
  end.

Fixpoint take_chars (n : nat) (s : string) : string :=
  match n, s with
  | O, _ => EmptyString
  | S n', String c r => String c (take_chars n' r)
  | S _, EmptyString => EmptyString
  end.

(** [clamp s i] is [min(max(i, 0), s.length)] as a position in [s]. *)
Definition clamp (s : string) (i : Z) : nat :=
  Z.to_nat (Z.min (Z.max i 0) (len s)).

(** [s.charAt(i)]: the empty string when [i] is out of range. *)
Definition charAt (s : string) (i : Z) : string :=
  if i <? 0 then ""
  else match String.get (Z.to_nat i) s with
       | Some c => String c ""
       | None => ""
       end.

Fixpoint find_char (c : ascii) (s : string) (i : nat) : option nat :=
  match s with
  | EmptyString => None
  | String x r => if Ascii.eqb x c then Some i else find_char c r (S i)
  end.

(** [s.indexOf(c, from)]. *)
Definition indexOf (s : string) (c : ascii) (from : Z) : Z :=
  let k := clamp s from in
  match find_char c (drop_chars k s) k with
  | Some n => Z.of_nat n
  | None => -1
  end.

Fixpoint find_last_char (c : ascii) (s : string) (i : nat) (found : Z) : Z :=
  match s with
  | EmptyString => found
  | String x r =>
      find_last_char c r (S i) (if Ascii.eqb x c then Z.of_nat i else found)
  end.

(** [s.lastIndexOf(c)]. *)
Definition lastIndexOf (s : string) (c : ascii) : Z :=
  find_last_char c s 0 (-1).

(** [s.substring(a, b)]: both ends clamped, swapped when [a > b]. *)
Definition substring (s : string) (a b : Z) : string :=
  let a' := clamp s a in
  let b' := clamp s b in
  let lo := Nat.min a' b' in
  let hi := Nat.max a' b' in
  take_chars (hi - lo) (drop_chars lo s).

(** [s.substring(a)]. *)
Definition substring_from (s : string) (a : Z) : string :=
  substring s a (len s).

(** [s.slice(a, b)]: negative arguments count from the end. *)
Definition slice (s : string) (a b : Z) : string :=
  let rel i := if i <? 0 then Z.max (len s + i) 0 else Z.min i (len s) in
  let from := rel a in
  let to := rel b in
  if to <=? from then ""
  else take_chars (Z.to_nat (to - from)) (drop_chars (Z.to_nat from) s).

(** [s.split(c)]. *)
Fixpoint split (c : ascii) (s : string) : list string :=
  match s with
  | EmptyString => [""]
  | String x r =>
      if Ascii.eqb x c then "" :: split c r
      else match split c r with
           | h :: t => String x h :: t
           | [] => [String x ""]
           end
  end.

(** [parts.join(c)]. *)
Definition join (c : ascii) (parts : list string) : string :=
  String.concat (String c "") parts.

(** JavaScript truthiness of a string value. *)
Definition truthy (s : string) : bool := negb (String.eqb s "").

(** The character [c] does not occur in [s]. *)
Definition lacks (c : ascii) (s : string) : Prop :=
  forall i, find_char c s i = None.

End JsString.

(** ** Plain objects used as dictionaries

    Every table of the bundle is an object literal [{}], whose prototype is
    [Object.prototype]: [obj[key]] finds an inherited member when [obj] has
    no own property [key], and an assignment to "__proto__" reaches the
    accessor of [Object.prototype] unless the object has an own property
    of that name.  A table is represented by its own properties. *)
Module JsObject.

(** The property names of [Object.prototype]. *)
Definition prototype_members : list string :=
  ["constructor"; "__defineGetter__"; "__defineSetter__"; "hasOwnProperty";
   "__lookupGetter__"; "__lookupSetter__"; "isPrototypeOf";
   "propertyIsEnumerable"; "toString"; "valueOf"; "__proto__";
   "toLocaleString"].

Definition inherits (key : string) : bool :=
  bool_decide (key ∈ prototype_members).

(** What [obj[key]] reads: an own property, the member of
    [Object.prototype] of that name (a function, or for "__proto__" the
    prototype object itself), or [undefined]. *)
Inductive read_result (A : Type) : Type :=
  | Own (a : A)
  | Inherited (name : string)
  | Missing.
Arguments Own {A} a.
Arguments Inherited {A} name.
Arguments Missing {A}.

#[global] Instance read_result_eq_dec {A} `{EqDecision A} :
  EqDecision (read_result A).
Proof. solve_decision. Defined.

Definition read {A} (obj : gmap string A) (key : string) : read_result A :=
  match obj !! key with
  | Some a => Own a
  | None => if inherits key then Inherited key else Missing
  end.

(** The own properties after [obj[key] = v], for a value [v] that is not
    an object: an own property is overwritten; without one, the
    assignment to "__proto__" goes to the setter of [Object.prototype],
    which ignores such a value and creates no own property, and every
    other key becomes an own property. *)
Definition write {A} (key : string) (v : A) (obj : gmap string A)
  : gmap string A :=
  match obj !! key with
  | Some _ => <[key := v]> obj
  | None => if String.eqb key "__proto__" then obj else <[key := v]> obj
  end.

(** [delete obj[key]]. *)
Definition remove {A} (key : string) (obj : gmap string A) : gmap string A :=
  delete key obj.

(** *** Objects that are enumerated

    Where the code walks an object with [for (key in obj)], the object is
    the list of its own properties in the order of their creation. *)

(** [obj[key] = v] on such an object. *)
Fixpoint write_listed {A} (key : string) (v : A) (props : list (string * A))
  : list (string * A) :=
  match props with
  | [] => if String.eqb key "__proto__" then [] else [(key, v)]
  | (k, old) :: rest =>
      if String.eqb k key then (k, v) :: rest
      else (k, old) :: write_listed key v rest
  end.

(** The number that a string of decimal digits denotes. *)
Fixpoint digits (s : string) (acc : N) : option N :=
  match s with
  | EmptyString => Some acc
  | String c s =>
      let d := N_of_ascii c in
      if (48 <=? d)%N && (d <=? 57)%N then digits s (acc * 10 + (d - 48))%N
      else None
  end.

(** An array index: the canonical decimal form of an integer below
    2^32 - 1. *)
Definition array_index (key : string) : option N :=
  match key with
  | EmptyString => None
  | _ =>
      match digits key 0 with
      | Some n =>
          if (n <? 4294967295)%N && String.eqb (pretty n) key then Some n
          else None
      | None => None
      end
  end.

(** Insertion into a list that is sorted by index. *)
Fixpoint insert_sorted {A} (n : N) (p : string * A)
  (sorted : list (N * (string * A))) : list (N * (string * A)) :=
  match sorted with
  | [] => [(n, p)]
  | (m, q) :: rest =>
      if (n <? m)%N then (n, p) :: (m, q) :: rest
      else (m, q) :: insert_sorted n p rest
  end.

(** The own properties whose key is an array index, by ascending index. *)
Fixpoint indexed {A} (props : list (string * A)) : list (N * (string * A)) :=
  match props with
  | [] => []
  | p :: rest =>
      match array_index (fst p) with
      | Some n => insert_sorted n p (indexed rest)
      | None => indexed rest
      end
  end.

(** The order in which [for (key in obj)] visits the own properties: the
    array indices in ascending order, then the other keys in the order of
    their creation. *)
Definition for_in {A} (props : list (string * A)) : list (string * A) :=
  (snd <$> indexed props)
  ++ List.filter (fun p => bool_decide (array_index (fst p) = None)) props.

End JsObject.

(** ** Outcomes of JavaScript calls *)

(** A thrown [Error] object: its constructor name, message and the optional
    [code] property that [moduleNotFoundError] sets. *)
Record js_error := JsError {
  err_name : string;
  err_message : string;
  err_code : option string
}.

#[global] Instance js_error_eq_dec : EqDecision js_error.
Proof. solve_decision. Defined.

(** What [parts.length = len] throws for a negative [len]. *)
Definition RangeError_invalid_array_length : js_error :=
  JsError "RangeError" "Invalid array length" None.

(** A call either returns, throws, or exhausts the recursion budget of the
    model (which stands for unbounded recursion in the source). *)
Inductive outcome (A : Type) : Type :=
  | Ok (a : A)
  | Throw (e : js_error)
  | OutOfFuel.
Arguments Ok {A} a.
Arguments Throw {A} e.
Arguments OutOfFuel {A}.

Definition obind {A B} (m : outcome A) (k : A -> outcome B) : outcome B :=
  match m with
  | Ok a => k a
  | Throw e => Throw e
  | OutOfFuel => OutOfFuel
  end.

Notation "'let!' x ':=' m 'in' k" := (obind m (fun x => k))
  (at level 10, x pattern, m at level 100, k at level 200).

(** ** Path utilities of the loader (source lines 216-286) *)
Module Path.
Import JsString.

(** [parts[len] = part].  The loop only ever writes at [len <= i], inside
    the array; for a negative [len] JavaScript stores an ordinary property
    named "-1", "-2", ... which is not an element and is never read back. *)
Definition array_set (parts : list string) (idx : Z) (part : string)
  : list string :=
  if idx <? 0 then parts else <[Z.to_nat idx := part]> parts.

(** One iteration of the [for] loop of [normalizePathParts]. *)
Definition normalize_step (st : list string * Z) (i : nat)
  : list string * Z :=
  let '(parts, len) := st in
  match parts !! i with
  | None => st
  | Some part =>
      if String.eqb part "." then (parts, len)
      else if String.eqb part ".." then (parts, len - 1)
      else (array_set parts len part, len + 1)
  end.

Definition normalize_loop (parts : list string) : list string * Z :=
  fold_left normalize_step (seq 0 (length parts)) (parts, 0).

(** [normalizePathParts(parts)]. *)
Definition normalizePathParts (parts : list string) : outcome string :=
  let '(parts, len) := normalize_loop parts in
  if len =? 1 then Ok "/"
  else
    let len :=
      if len >? 2 then
        match parts !! Z.to_nat (len - 1) with
        | Some last => if (JsString.len last =? 0) then len - 1 else len
        | None => len
        end
      else len in
    if len <? 0 then Throw RangeError_invalid_array_length
    else Ok (JsString.join "/" (take (Z.to_nat len) parts)).

(** The [fromParts] of [join]: [from == '/' ? [''] : from.split('/')]. *)
Definition fromParts_of (from : string) : list string :=
  if String.eqb from "/" then [""] else split "/" from.

(** [join(from, target)]. *)
Definition join (from target : string) : outcome string :=
  let targetParts := split "/" target in
  let fromParts := fromParts_of from in
  normalizePathParts (fromParts ++ targetParts).

(** [withoutExtension(path)]: [None] stands for the [null] result. *)
Definition withoutExtension (path : string) : option string :=
  let lastDotPos := lastIndexOf path "." in
  if (lastDotPos =? -1)
     || (let lastSlashPos := lastIndexOf path "/" in
         negb (lastSlashPos =? -1) && (lastSlashPos >? lastDotPos))
  then None
  else Some (substring path 0 lastDotPos).

(** The [__dirname] that [Module.prototype.load] computes from a filename. *)
Definition dirname (filename : string) : string :=
  let lastSlashPos := lastIndexOf filename "/" in
  substring filename 0 lastSlashPos.

End Path.

(** ** Normalisation as the specification words it

    "Relative specifiers are joined against the directory of the
    requesting module and normalized: '..' pops one path segment, '.' is
    elided, trailing empty segments are collapsed, producing a canonical
    absolute path."  The definitions up to [spec_absolute] follow that
    wording; [Path.join] is compared with them. *)
Module PathSpec.
Import JsString.

(** The segments left after reading [parts] on top of [stack]: "." is
    elided, ".." pops one segment, anything else is a segment. *)
Fixpoint spec_segments (parts stack : list string) : list string :=
  match parts with
  | [] => stack
  | part :: rest =>
      if String.eqb part "." then spec_segments rest stack
      else if String.eqb part ".." then spec_segments rest (removelast stack)
      else spec_segments rest (stack ++ [part])
  end.

(** "Trailing empty segments are collapsed": none is left at the end. *)
Fixpoint collapse_trailing_empty (segments : list string) : list string :=
  match segments with
  | [] => []
  | s :: rest =>
      match collapse_trailing_empty rest with
      | [] => if String.eqb s "" then [] else [s]
      | rest' => s :: rest'
      end
  end.

(** "A canonical absolute path": a slash, then the segments separated by
    slashes. *)
Definition spec_path (segments : list string) : string :=
  "/" +:+ JsString.join "/" segments.

(** A directory is an absolute path, or the empty string that [load]
    computes for the directory of a module right under the root. *)
Definition is_directory (dir : string) : Prop :=
  dir = "" \/ String.eqb (charAt dir 0) "/" = true.

(** The segments of a directory: what its slashes separate after the
    leading one; the root has none. *)
Definition directory_segments (dir : string) : list string :=
  if String.eqb dir "/" then [] else drop 1 (split "/" dir).

(** A relative specifier joined against a directory and normalized. *)
Definition spec_join (dir target : string) : string :=
  spec_path
    (collapse_trailing_empty
       (spec_segments (directory_segments dir ++ split "/" target) [])).

(** An absolute specifier normalized. *)
Definition spec_absolute (target : string) : string :=
  spec_path
    (collapse_trailing_empty (spec_segments (drop 1 (split "/" target)) [])).

(** Every ".." of [parts] finds a segment to pop when reading starts at
    [depth] segments. *)
Fixpoint has_ancestors (depth : nat) (parts : list string) : bool :=
  match parts with
  | [] => true
  | part :: rest =>
      if String.eqb part "." then has_ancestors depth rest
      else if String.eqb part ".."
      then (0 <? depth)%nat && has_ancestors (depth - 1) rest
      else has_ancestors (S depth) rest
  end.

(** The number of empty segments at the end. *)
Definition trailing_empties (segments : list string) : nat :=
  length segments - length (collapse_trailing_empty segments).

(** What the code does with trailing empty segments instead (lines
    257-265): the last segment is dropped when it is empty and another
    segment precedes it. *)
Definition drop_last_empty (segments : list string) : list string :=
  match last segments with
  | Some s =>
      if (1 <? length segments)%nat && String.eqb s ""
      then removelast segments else segments
  | None => segments
  end.

(** The net number of segments [parts] adds: one per ordinary part, minus
    one per "..". *)
Fixpoint net_segments (parts : list string) : Z :=
  match parts with
  | [] => 0
  | part :: rest =>
      (if String.eqb part "." then 0
       else if String.eqb part ".." then -1 else 1) + net_segments rest
  end.

End PathSpec.

(** ** The module loader (source lines 14-592) *)
Module Loader.
Import JsString Path.

(** *** Values, definitions and module instances *)

(** Values that flow through [module.exports]: [undefined], a primitive
    (strings stand for all primitives) or a reference to an object. *)
Inductive value :=
  | VUndefined
  | VString (s : string)
  | VObject (addr : nat).

#[global] Instance value_eq_dec : EqDecision value.
Proof. solve_decision. Defined.

(** The [options] argument of [$_mod.run]: absent, or an object whose
    [wait] property is absent or a boolean. *)
Inductive run_options :=
  | NoOptions
  | Options (wait : option bool).

#[global] Instance run_options_eq_dec : EqDecision run_options.
Proof. solve_decision. Defined.

(** The statements the factories of this development are built from.  A
    factory receives [require], [exports] and [module]; these statements
    are the uses of them that the theorems below are about.  The
    registration calls reachable through [require.runtime] ([def],
    [remap], [main], [builtin], [installed], [searchPath], ...) and writes
    to [require.cache] are not among them: a factory that makes them is
    outside of what is proved about factories. *)
Inductive cmd :=
  | CRequire (target : string)
      (** [require(target);] *)
  | CExportsSet (key : string) (v : value)
      (** [exports[key] = v;] *)
  | CExportsSetRequire (key target : string)
      (** [exports[key] = require(target);] *)
  | CModuleExportsNew
      (** [module.exports = {};] (any freshly built object or function) *)
  | CModuleExportsSet (v : value)
      (** [module.exports = v;] *)
  | CModuleExportsRequire (target : string)
      (** [module.exports = require(target);] *)
  | CResolve (target : string)
      (** [require.resolve(target);] *)
  | CPending
      (** [require.runtime.pending();] *)
  | CPendingDone
      (** calling [done()] of a job obtained from [pending()] *)
  | CRun (path : string) (options : run_options)
      (** [require.runtime.run(path, options);] *)
  | CReady.
      (** [require.runtime.ready();] *)

(** What [$_mod.def] registers: a factory function or any other value. *)
Inductive definition :=
  | DFactory (body : list cmd)
  | DValue (v : value).

(** A [Module] instance (source lines 90-106); [filename] equals [id]. *)
Record Module := mkModule {
  id : string;
  loaded : bool;
  exports : value
}.

(** *** The loader's variables *)

(** The registration tables (source lines 33-70): the own properties of
    each.  The keys of [builtins] are the names that callers of [require]
    choose, and it is read through [JsObject.read].  The other tables are
    read with paths: the results of normalisation, which contain a slash,
    are "/" or are empty, and registered paths (the keys of [definitions],
    [mains] and [remapped], the values of [builtins] and [remapped]), which
    the transport layer registers fully resolved, with a leading slash.
    Such a key is never the name of a member of [Object.prototype], so
    these reads are those of the own properties. *)
Record registry := mkRegistry {
  definitions : gmap string definition;
  searchPaths : list string;
  installed : gmap string string;
  builtins : gmap string string;
  mains : gmap string string;
  remapped : gmap string string
}.

(** The whole state of the closure: the tables, the readiness gate, the
    caches, and the two heaps that hold the [Module] instances and the
    plain objects created by the loader (a reference is an index). *)
Record state := mkState {
  reg : registry;
  _ready : bool;
  runQueue : list (string * run_options);
  pendingCount : Z;
  instanceCache : gmap string nat;
  cacheByDirname : gmap string (gmap string nat);
  loadedGlobalsByRealPath : gmap string nat;
  module_heap : list Module;
  object_heap : list (gmap string value)
}.

Definition empty_registry : registry := mkRegistry ∅ [] ∅ ∅ ∅ ∅.

(** The state right after the loader's closure has run. *)
Definition initial_state : state :=
  mkState empty_registry false [] 0 ∅ ∅ ∅ [] [].

Definition set_reg (f : registry -> registry) (st : state) : state :=
  mkState (f (reg st)) (_ready st) (runQueue st) (pendingCount st)
    (instanceCache st) (cacheByDirname st) (loadedGlobalsByRealPath st)
    (module_heap st) (object_heap st).

Definition set_ready (b : bool) (st : state) : state :=
  mkState (reg st) b (runQueue st) (pendingCount st)
    (instanceCache st) (cacheByDirname st) (loadedGlobalsByRealPath st)
    (module_heap st) (object_heap st).

Definition set_runQueue (q : list (string * run_options)) (st : state)
  : state :=
  mkState (reg st) (_ready st) q (pendingCount st)
    (instanceCache st) (cacheByDirname st) (loadedGlobalsByRealPath st)
    (module_heap st) (object_heap st).

Definition set_pendingCount (n : Z) (st : state) : state :=
  mkState (reg st) (_ready st) (runQueue st) n
    (instanceCache st) (cacheByDirname st) (loadedGlobalsByRealPath st)
    (module_heap st) (object_heap st).

Definition set_instanceCache (c : gmap string nat) (st : state) : state :=
  mkState (reg st) (_ready st) (runQueue st) (pendingCount st)
    c (cacheByDirname st) (loadedGlobalsByRealPath st)
    (module_heap st) (object_heap st).

Definition set_cacheByDirname (c : gmap string (gmap string nat))
  (st : state) : state :=
  mkState (reg st) (_ready st) (runQueue st) (pendingCount st)
    (instanceCache st) c (loadedGlobalsByRealPath st)
    (module_heap st) (object_heap st).

Definition set_module_heap (h : list Module) (st : state) : state :=
  mkState (reg st) (_ready st) (runQueue st) (pendingCount st)
    (instanceCache st) (cacheByDirname st) (loadedGlobalsByRealPath st)
    h (object_heap st).

Definition set_object_heap (h : list (gmap string value)) (st : state)
  : state :=
  mkState (reg st) (_ready st) (runQueue st) (pendingCount st)
    (instanceCache st) (cacheByDirname st) (loadedGlobalsByRealPath st)
    (module_heap st) h.

(** *** Registration calls (source lines 177-214, 516-518) *)

(** [define(path, factoryOrObject)]; the bundle never passes [options]. *)
Definition define (path : string) (factoryOrObject : definition)
  (r : registry) : registry :=
  mkRegistry (<[path := factoryOrObject]> (definitions r)) (searchPaths r)
    (installed r) (builtins r) (mains r) (remapped r).

Definition registerMain (path relativePath : string) (r : registry)
  : registry :=
  mkRegistry (definitions r) (searchPaths r) (installed r) (builtins r)
    (<[path := relativePath]> (mains r)) (remapped r).

Definition remap (fromPath toPath : string) (r : registry) : registry :=
  mkRegistry (definitions r) (searchPaths r) (installed r) (builtins r)
    (mains r) (<[fromPath := toPath]> (remapped r)).

Definition builtin (name target : string) (r : registry) : registry :=
  mkRegistry (definitions r) (searchPaths r) (installed r)
    (<[name := target]> (builtins r)) (mains r) (remapped r).

Definition registerInstalledDependency
  (parentPath packageName packageVersion : string) (r : registry)
  : registry :=
  mkRegistry (definitions r) (searchPaths r)
    (<[parentPath +:+ "/" +:+ packageName := packageVersion]> (installed r))
    (builtins r) (mains r) (remapped r).

Definition addSearchPath (prefix : string) (r : registry) : registry :=
  mkRegistry (definitions r) (searchPaths r ++ [prefix]) (installed r)
    (builtins r) (mains r) (remapped r).

(** *** Resolution (source lines 288-425) *)

(** [splitPackageIdAndSubpath(path)]. *)
Definition splitPackageIdAndSubpath (path : string) : string * string :=
  let path := substring_from path 1 in
  let slashPos := indexOf path "/" 0 in
  let slashPos :=
    if String.eqb (charAt path 1) "@" then indexOf path "/" (slashPos + 1)
    else slashPos in
  let packageIdEnd := if slashPos =? -1 then len path else slashPos in
  (substring path 0 packageIdEnd, substring_from path packageIdEnd).

(** Lines 316-320: one trailing slash of a bare target is dropped. *)
Definition strip_trailing_slash (target : string) : string :=
  if String.eqb (charAt target (len target - 1)) "/"
  then slice target 0 (-1)
  else target.

(** Lines 334-352: the package name and the subpath of a bare target. *)
Definition split_target (target : string) : string * string :=
  let targetSlashPos := indexOf target "/" 0 in
  if targetSlashPos <? 0 then (target, "")
  else
    let targetSlashPos :=
      if String.eqb (charAt target 0) "@"
      then indexOf target "/" (targetSlashPos + 1)
      else targetSlashPos in
    (substring target 0 targetSlashPos, substring_from target targetSlashPos).

(** A subpath is empty or starts with a slash. *)
Definition is_subpath (s : string) : Prop :=
  s = "" \/ exists rest, s = String "/" rest.

(** The two shapes of a bare target [name ++ subpath]: a plain package
    name, or a scoped one ("@scope/pkg") followed by a non-empty subpath. *)
Inductive target_shape : string -> string -> string -> Prop :=
  | shape_plain name sub :
      lacks "/" name ->
      String.eqb (charAt name 0) "@" = false ->
      is_subpath sub ->
      target_shape (name +:+ sub) name sub
  | shape_scoped scope pkg rest :
      lacks "/" scope ->
      lacks "/" pkg ->
      target_shape ("@" +:+ scope +:+ "/" +:+ pkg +:+ String "/" rest)
        ("@" +:+ scope +:+ "/" +:+ pkg) (String "/" rest).

(** The shape of the path of a requesting module of a package that is not
    scoped: "/pkg" followed by a subpath, where the package identifier
    [pkg] is a single segment that does not start with "@" (and whose
    second character is not "@" either, which line 297 would take for the
    mark of a scope). *)
Definition from_shape (from pkg rest : string) : Prop :=
  from = String "/" (pkg +:+ rest)
  /\ lacks "/" pkg
  /\ is_subpath rest
  /\ String.eqb (charAt from 1) "@" = false
  /\ String.eqb (charAt from 2) "@" = false.

(** What reading a property of [undefined], or calling something that is
    not a function, throws. *)
Definition TypeError (message : string) : js_error :=
  JsError "TypeError" message None.

(** Truthiness of what a table of strings gives: [undefined] and [""] are
    falsy, a string that is not empty and an inherited member are truthy. *)
Definition truthy_entry (entry : JsObject.read_result string) : bool :=
  match entry with
  | JsObject.Own s => truthy s
  | JsObject.Inherited _ => true
  | JsObject.Missing => false
  end.

(** Truthiness of an own property that is a string, or of its absence. *)
Definition truthy_own (entry : option string) : bool :=
  match entry with
  | Some s => truthy s
  | None => false
  end.

(** [resolveInstalledModule(target, from)]: a path, the member of
    [Object.prototype] that [builtins[target]] has found, or [undefined].
    The key of the installed dependency contains a slash, so the read of
    [installed] is that of its own properties. *)
Definition resolveInstalledModule (r : registry) (target from : string)
  : JsObject.read_result string :=
  let target := strip_trailing_slash target in
  let builtinPath := JsObject.read (builtins r) target in
  if truthy_entry builtinPath then builtinPath
  else
    let fromParts := splitPackageIdAndSubpath from in
    let fromPackageId := fst fromParts in
    let '(targetPackageName, targetSubpath) := split_target target in
    match installed r !! (fromPackageId +:+ "/" +:+ targetPackageName) with
    | Some targetPackageVersion =>
        if truthy targetPackageVersion then
          let resolvedPath :=
            "/" +:+ targetPackageName +:+ "$" +:+ targetPackageVersion in
          JsObject.Own (if truthy targetSubpath
                        then resolvedPath +:+ targetSubpath else resolvedPath)
        else JsObject.Missing
    | None => JsObject.Missing
    end.

(** [definitions[path]], where a definition registered as [undefined] is
    indistinguishable from a missing one ([=== undefined]). *)
Definition lookup_definition (r : registry) (path : string)
  : option definition :=
  match definitions r !! path with
  | Some (DValue VUndefined) => None
  | d => d
  end.

(** Lines 387-425 of [resolve]: from the candidate path to the result.
    A member of [Object.prototype] that [resolveInstalledModule] returned
    is truthy and is not a string: its string form is not a registered
    path, so lines 396-411 find nothing under it, and [withoutExtension]
    (line 279) calls its [lastIndexOf], which it does not have. *)
Definition resolve_tail (r : registry)
  (resolvedPath : JsObject.read_result string)
  : outcome (option (string * definition)) :=
  match resolvedPath with
  | JsObject.Missing => Ok None
  | JsObject.Inherited _ =>
      Throw (TypeError "path.lastIndexOf is not a function")
  | JsObject.Own resolvedPath =>
    if negb (truthy resolvedPath) then Ok None
    else
      let! resolvedPath :=
        match mains r !! resolvedPath with
        | Some relativePath =>
            let relativePath :=
              if negb (truthy relativePath) then "index" else relativePath in
            Path.join resolvedPath relativePath
        | None => Ok resolvedPath
        end in
      let resolvedPath :=
        match remapped r !! resolvedPath with
        | Some remappedPath =>
            if truthy remappedPath then remappedPath else resolvedPath
        | None => resolvedPath
        end in
      match lookup_definition r resolvedPath with
      | Some factoryOrObject => Ok (Some (resolvedPath, factoryOrObject))
      | None =>
          match withoutExtension resolvedPath with
          | None => Ok None
          | Some resolvedPathWithoutExtension =>
              match lookup_definition r resolvedPathWithoutExtension with
              | None => Ok None
              | Some factoryOrObject =>
                  Ok (Some (resolvedPathWithoutExtension, factoryOrObject))
              end
          end
      end
  end.

(** The search-path loop of lines 374-382, over the recursive call. *)
Fixpoint search_loop
  (rec : string -> outcome (option (string * definition)))
  (paths : list string) (target : string)
  (otherwise : outcome (option (string * definition)))
  : outcome (option (string * definition)) :=
  match paths with
  | [] => otherwise
  | prefix :: rest =>
      let candidate := prefix +:+ target in
      let! resolved := rec candidate in
      match resolved with
      | Some found => Ok (Some found)
      | None => search_loop rec rest target otherwise
      end
  end.

(** [resolve(target, from)].  The recursion through the search paths is
    bounded by [fuel]; a search path that is itself a bare specifier makes
    the source recurse without end. *)
Fixpoint resolve (fuel : nat) (r : registry) (target from : string)
  : outcome (option (string * definition)) :=
  match fuel with
  | O => OutOfFuel
  | S fuel =>
      if String.eqb (charAt target 0) "." then
        let! resolvedPath := Path.join from target in
        resolve_tail r (JsObject.Own resolvedPath)
      else if String.eqb (charAt target 0) "/" then
        let! resolvedPath := normalizePathParts (split "/" target) in
        resolve_tail r (JsObject.Own resolvedPath)
      else
        search_loop (fun candidate => resolve fuel r candidate from)
          (searchPaths r) target
          (resolve_tail r (resolveInstalledModule r target from))
  end.

(** *** The contract of resolution, as the specification words it

    "Apply at most one directory-main substitution (appending the main
    file, "index" by default), then at most one remap substitution, then
    look up a definition; if no exact definition exists, retry with the
    file extension stripped exactly once."  [resolve_tail] is compared
    with the composition of these three steps. *)

Definition main_substitution (r : registry) (path : string)
  : outcome string :=
  match mains r !! path with
  | Some relativePath =>
      Path.join path
        (if String.eqb relativePath "" then "index" else relativePath)
  | None => Ok path
  end.

Definition remap_substitution (r : registry) (path : string) : string :=
  match remapped r !! path with
  | Some target => if truthy target then target else path
  | None => path
  end.

Definition lookup_exact_then_stripped (r : registry) (path : string)
  : option (string * definition) :=
  match lookup_definition r path with
  | Some d => Some (path, d)
  | None =>
      match withoutExtension path with
      | Some stripped =>
          match lookup_definition r stripped with
          | Some d => Some (stripped, d)
          | None => None
          end
      | None => None
      end
  end.

Definition resolve_candidate_spec (r : registry) (candidate : string)
  : outcome (option (string * definition)) :=
  let! withMain := main_substitution r candidate in
  Ok (lookup_exact_then_stripped r (remap_substitution r withMain)).

(** The order the claim under test gives for the last two steps of a bare
    specifier: the installed dependency first, the builtin table last. *)
Definition installed_then_builtin (r : registry) (target from : string)
  : option string :=
  let target := strip_trailing_slash target in
  let '(name, sub) := split_target target in
  match installed r !! (fst (splitPackageIdAndSubpath from) +:+ "/" +:+ name)
  with
  | Some version =>
      if truthy version then Some ("/" +:+ name +:+ "$" +:+ version +:+ sub)
      else builtins r !! target
  | None => builtins r !! target
  end.

(** *** Instantiation (source lines 83-172, 427-474) *)

(** The double quote character, as a string. *)
Definition dquote : string := String (Ascii.ascii_of_nat 34) EmptyString.

(** [moduleNotFoundError(target, from)]; a missing [from] is the empty
    string. *)
Definition moduleNotFoundError (target from : string) : js_error :=
  JsError "Error"
    ("Cannot find module " +:+ dquote +:+ target +:+ dquote
       +:+ (if truthy from then " from " +:+ dquote +:+ from +:+ dquote
            else ""))
    (Some "MODULE_NOT_FOUND").

(** A computation over the loader state: the state is kept when it throws,
    as the side effects of a JavaScript call are. *)
Definition comp (A : Type) : Type := state -> outcome A * state.

Definition ret {A} (a : A) : comp A := fun st => (Ok a, st).

Definition throw {A} (e : js_error) : comp A := fun st => (Throw e, st).

Definition bind {A B} (m : comp A) (k : A -> comp B) : comp B :=
  fun st =>
    match m st with
    | (Ok a, st') => k a st'
    | (Throw e, st') => (Throw e, st')
    | (OutOfFuel, st') => (OutOfFuel, st')
    end.

Notation "'do' x '<-' m ; k" := (bind m (fun x => k))
  (at level 10, x pattern, m at level 100, k at level 200).

Definition modify (f : state -> state) : comp unit :=
  fun st => (Ok tt, f st).

(** [module.exports] of the instance at reference [m]. *)
Definition exports_of (st : state) (m : nat) : value :=
  match module_heap st !! m with
  | Some md => exports md
  | None => VUndefined
  end.

(** [module.exports = v] *)
Definition set_exports (m : nat) (v : value) (st : state) : state :=
  set_module_heap
    (alter (fun md => mkModule (id md) (loaded md) v) m (module_heap st)) st.

(** [module.loaded = true] *)
Definition set_loaded (m : nat) (st : state) : state :=
  set_module_heap
    (alter (fun md => mkModule (id md) true (exports md)) m (module_heap st))
    st.

(** [new Module(filename)]: the reference of the new instance. *)
Definition new_Module (filename : string) : comp nat :=
  fun st =>
    (Ok (length (module_heap st)),
     set_module_heap (module_heap st ++ [mkModule filename false VUndefined])
       st).

(** The object literal [{}]: the reference of the new object. *)
Definition new_object : comp nat :=
  fun st =>
    (Ok (length (object_heap st)),
     set_object_heap (object_heap st ++ [∅]) st).

(** [obj[key] = v] on the object at reference [a]: its own properties
    afterwards. *)
Definition object_set (a : nat) (key : string) (v : value) (st : state)
  : state :=
  set_object_heap (alter (JsObject.write key v) a (object_heap st)) st.

(** The local cache of a directory, [cacheByDirname[dirname]]; a missing
    entry reads as the empty object that [load] would create for it. *)
Definition localCache (st : state) (dirname : string) : gmap string nat :=
  default ∅ (cacheByDirname st !! dirname).

(** Whether [options] asks [run] to wait (line 480). *)
Definition wait_requested (options : run_options) : bool :=
  match options with
  | NoOptions => true
  | Options (Some false) => false
  | Options _ => true
  end.

(** The functions of the loader that call each other through module
    factories.  They are tied together by [runtime] below. *)
Record runtime_calls := mkCalls {
  call_requireModule : string -> string -> comp nat;
  call_ready : comp unit
}.

Section Bodies.

Variable resolve_fuel : nat.
Variable calls : runtime_calls.

(** [require(target, from)]. *)
Definition require_with (target from : string) : comp value :=
  do module <- call_requireModule calls target from;
  fun st => (Ok (exports_of st module), st).

(** [run(path, options)]; the value of [runQueue.push] is not used. *)
Definition run_with (path : string) (options : run_options) : comp unit :=
  fun st =>
    let wait := wait_requested options in
    if wait && negb (_ready st) then
      (Ok tt, set_runQueue (runQueue st ++ [(path, options)]) st)
    else
      (do _ <- require_with path "/"; ret tt) st.

(** [$_mod.pending()]; the returned job is represented by [CPendingDone]. *)
Definition pending : comp unit :=
  modify (fun st => set_pendingCount (pendingCount st + 1) (set_ready false st)).

(** [onPendingComplete()]. *)
Definition onPendingComplete_with : comp unit :=
  do _ <- modify (fun st => set_pendingCount (pendingCount st - 1) st);
  fun st =>
    if pendingCount st =? 0 then call_ready calls st else (Ok tt, st).

(** The [require] handed to a factory (lines 127-132).  The local cache
    is a plain object read with the target: a member of
    [Object.prototype] found there is taken for the module ([None] below),
    and its property [exports] is [undefined]. *)
Definition instanceRequire (dirname target : string) : comp value :=
  do module <-
    (fun st =>
       match JsObject.read (localCache st dirname) target with
       | JsObject.Own module => (Ok (Some module), st)
       | JsObject.Inherited _ => (Ok None, st)
       | JsObject.Missing =>
           (do module <- call_requireModule calls target dirname;
            do _ <- modify (fun st =>
              set_cacheByDirname
                (<[dirname := <[target := module]> (localCache st dirname)]>
                   (cacheByDirname st)) st);
            ret (Some module)) st
       end);
  fun st =>
    (Ok (match module with
         | Some module => exports_of st module
         | None => VUndefined
         end), st).

(** [require.resolve(target)] (lines 138-151). *)
Definition instanceRequire_resolve (dirname target : string) : comp string :=
  fun st =>
    if negb (truthy target) then (Throw (moduleNotFoundError "" ""), st)
    else
      match resolve resolve_fuel (reg st) target dirname with
      | Ok None => (Throw (moduleNotFoundError target dirname), st)
      | Ok (Some resolved) => (Ok (fst resolved), st)
      | Throw e => (Throw e, st)
      | OutOfFuel => (OutOfFuel, st)
      end.

(** One statement of a factory running as module [this], whose [exports]
    parameter is the object at [exports_ref]. *)
Definition exec_cmd (this exports_ref : nat) (dirname : string) (c : cmd)
  : comp unit :=
  match c with
  | CRequire target =>
      do _ <- instanceRequire dirname target; ret tt
  | CExportsSet key v =>
      modify (object_set exports_ref key v)
  | CExportsSetRequire key target =>
      do v <- instanceRequire dirname target;
      modify (object_set exports_ref key v)
  | CModuleExportsNew =>
      do a <- new_object; modify (set_exports this (VObject a))
  | CModuleExportsSet v =>
      modify (set_exports this v)
  | CModuleExportsRequire target =>
      do v <- instanceRequire dirname target;
      modify (set_exports this v)
  | CResolve target =>
      do _ <- instanceRequire_resolve dirname target; ret tt
  | CPending => pending
  | CPendingDone => onPendingComplete_with
  | CRun path options => run_with path options
  | CReady => call_ready calls
  end.

(** The body of a factory, statement by statement. *)
Fixpoint exec_body (this exports_ref : nat) (dirname : string)
  (body : list cmd) : comp unit :=
  match body with
  | [] => ret tt
  | c :: rest =>
      do _ <- exec_cmd this exports_ref dirname c;
      exec_body this exports_ref dirname rest
  end.

(** [Module.prototype.load(factoryOrObject)] on the instance [this]. *)
Definition load_with (this : nat) (filename : string)
  (factoryOrObject : definition) : comp unit :=
  do _ <-
    match factoryOrObject with
    | DFactory body =>
        let dirname := Path.dirname filename in
        do _ <- modify (fun st =>
          set_cacheByDirname
            (<[dirname := localCache st dirname]> (cacheByDirname st)) st);
        do exports_ref <- new_object;
        do _ <- modify (set_exports this (VObject exports_ref));
        exec_body this exports_ref dirname body
    | DValue v =>
        modify (set_exports this v)
    end;
  modify (set_loaded this).

(** [requireModule(target, from)]. *)
Definition requireModule_with (target from : string) : comp nat :=
  fun st =>
    if negb (truthy target) then (Throw (moduleNotFoundError "" ""), st)
    else
      match resolve resolve_fuel (reg st) target from with
      | OutOfFuel => (OutOfFuel, st)
      | Throw e => (Throw e, st)
      | Ok None => (Throw (moduleNotFoundError target from), st)
      | Ok (Some (resolvedPath, factoryOrObject)) =>
          match instanceCache st !! resolvedPath with
          | Some module => (Ok module, st)
          | None =>
              match loadedGlobalsByRealPath st !! resolvedPath with
              | Some module => (Ok module, st)
              | None =>
                  (do module <- new_Module resolvedPath;
                   do _ <- modify (fun st =>
                     set_instanceCache
                       (<[resolvedPath := module]> (instanceCache st)) st);
                   do _ <- load_with module resolvedPath factoryOrObject;
                   ret module) st
              end
          end
      end.

(** One round of the [while] loop of [ready]: the queued entries are run
    in order (the [for] loop of lines 504-507). *)
Fixpoint run_batch (queue : list (string * run_options)) : comp unit :=
  match queue with
  | [] => ret tt
  | args :: rest =>
      do _ <- run_with (fst args) (snd args);
      run_batch rest
  end.

End Bodies.

(** The [while] loop of [ready] (lines 496-513). *)
Fixpoint ready_loop (calls : runtime_calls) (rounds : nat) : comp unit :=
  fun st =>
    match runQueue st with
    | [] => (Ok tt, st)
    | _ :: _ =>
        match rounds with
        | O => (OutOfFuel, st)
        | S rounds =>
            let queue := runQueue st in
            (do _ <- modify (set_runQueue []);
             do _ <- run_batch calls queue;
             fun st =>
               if negb (_ready st) then (Ok tt, st)
               else ready_loop calls rounds st) st
        end
    end.

(** The loader's mutually recursive functions, [fuel] levels deep. *)
Fixpoint runtime (fuel : nat) : runtime_calls :=
  match fuel with
  | O => mkCalls (fun _ _ st => (OutOfFuel, st)) (fun st => (OutOfFuel, st))
  | S fuel =>
      mkCalls
        (requireModule_with (S fuel) (runtime fuel))
        (do _ <- modify (set_ready true);
         ready_loop (runtime fuel) (S fuel))
  end.

Definition requireModule (fuel : nat) : string -> string -> comp nat :=
  call_requireModule (runtime fuel).

Definition ready (fuel : nat) : comp unit := call_ready (runtime fuel).

Definition require (fuel : nat) : string -> string -> comp value :=
  require_with (runtime fuel).

Definition run (fuel : nat) : string -> run_options -> comp unit :=
  run_with (runtime fuel).

Definition onPendingComplete (fuel : nat) : comp unit :=
  onPendingComplete_with (runtime fuel).

(** *** Relations between the states before and after a call *)

(** The state in which [load] starts on a cache miss for the resolved path
    [p]: the new instance is on the heap and in the cache (lines 461-464). *)
Definition precached (st : state) (p : string) : state :=
  set_instanceCache (<[p := length (module_heap st)]> (instanceCache st))
    (set_module_heap (module_heap st ++ [mkModule p false VUndefined]) st).

(** [c] leaves every state in relation [R] with the state it started in,
    whatever its outcome. *)
Definition respects {A} (R : relation state) (c : comp A) : Prop :=
  forall st, R st (snd (c st)).

(** Statements that assign [module.exports]. *)
Definition reassigns (c : cmd) : bool :=
  match c with
  | CModuleExportsNew | CModuleExportsSet _ | CModuleExportsRequire _ => true
  | _ => false
  end.

(** Nothing registered changes, the instance cache only grows, and every
    [Module] instance that existed is untouched. *)
Definition frame (st st' : state) : Prop :=
  reg st' = reg st
  /\ loadedGlobalsByRealPath st' = loadedGlobalsByRealPath st
  /\ instanceCache st ⊆ instanceCache st'
  /\ forall k md,
       module_heap st !! k = Some md -> module_heap st' !! k = Some md.

(** The same, except that the instance [this] may have been written to. *)
Definition frame_but (this : nat) (st st' : state) : Prop :=
  reg st' = reg st
  /\ loadedGlobalsByRealPath st' = loadedGlobalsByRealPath st
  /\ instanceCache st ⊆ instanceCache st'
  /\ (forall k md, k <> this ->
        module_heap st !! k = Some md -> module_heap st' !! k = Some md)
  /\ (is_Some (module_heap st !! this) ->
      is_Some (module_heap st' !! this)).

(** Every entry of the run queue was queued by a [run] that was asked to
    wait. *)
Definition queue_waits (st : state) : Prop :=
  Forall (fun args => wait_requested (snd args) = true) (runQueue st).

(** The relation "if the queue held only waiting entries, it still does". *)
Definition waits_kept (st st' : state) : Prop :=
  queue_waits st -> queue_waits st'.

(** The same, and [this.exports] still is what it was. *)
Definition keeps_exports (this : nat) (st st' : state) : Prop :=
  frame_but this st st'
  /\ (is_Some (module_heap st !! this) ->
      exports_of st' this = exports_of st this).

(** The instance [this] may have been written to, but its [id] and its
    [loaded] flag still are what they were. *)
Definition keeps_identity (this : nat) (st st' : state) : Prop :=
  frame_but this st st'
  /\ forall md,
       module_heap st !! this = Some md ->
       exists md',
         module_heap st' !! this = Some md'
         /\ id md' = id md /\ loaded md' = loaded md.

(** A relation that tolerates every change the loader makes outside the
    heap of [Module] instances and the instance cache. *)
Class Tolerant (R : relation state) : Prop := {
  tolerant_preorder :: PreOrder R;
  tolerant_ready b st : R st (set_ready b st);
  tolerant_runQueue_clear st : R st (set_runQueue [] st);
  tolerant_runQueue_push path options st :
    wait_requested options = true ->
    R st (set_runQueue (runQueue st ++ [(path, options)]) st);
  tolerant_pendingCount n st : R st (set_pendingCount n st);
  tolerant_cacheByDirname c st : R st (set_cacheByDirname c st);
  tolerant_object_heap h st : R st (set_object_heap h st)
}.

(** A relation that does not look at the instances at all. *)
Class Indifferent (R : relation state) : Prop := {
  indifferent_tolerant :: Tolerant R;
  indifferent_module_heap h st : R st (set_module_heap h st);
  indifferent_instanceCache c st : R st (set_instanceCache c st)
}.

End Loader.

(** ** Key sequences of the Marko runtime (source lines 1101-1126) *)
Module KeySequence.

(** [this._Q_]: the own properties of the table, the number stored under
    each key.  The counters are JavaScript numbers holding small positive
    integers, hence [N]. *)
Abbreviation lookup_table := (gmap string N).

(** [new KeySequence()]. *)
Definition new_KeySequence : lookup_table := ∅.

(** [c_(key)]: the key to use and the updated table.  [lookup[key]++]
    reads [undefined] for a key that is not in the table and a function or
    [Object.prototype] for an inherited one; the number value of each is
    NaN, which is falsy like 0, and the table entry is then set to 1.  For
    the key "__proto__" of a table without such an own property both
    assignments go to the setter of [Object.prototype], which ignores a
    number. *)
Definition c_ (key : string) (lookup : lookup_table) : string * lookup_table :=
  match JsObject.read lookup key with
  | JsObject.Own (Npos p) =>
      (key +:+ "_" +:+ pretty (Npos p),
       JsObject.write key (Npos p + 1)%N lookup)
  | _ => (key, JsObject.write key 1%N lookup)
  end.

(** The keys returned for a series of calls, and the table they leave. *)
Fixpoint c_all (keys : list string) (lookup : lookup_table)
  : list string * lookup_table :=
  match keys with
  | [] => ([], lookup)
  | key :: rest =>
      let '(k, lookup) := c_ key lookup in
      let '(ks, lookup) := c_all rest lookup in
      (k :: ks, lookup)
  end.

(** How often [key] occurs in [keys]. *)
Fixpoint occurrences (key : string) (keys : list string) : N :=
  match keys with
  | [] => 0%N
  | k :: rest =>
      ((if String.eqb k key then 1 else 0) + occurrences key rest)%N
  end.

(** The key the specification asks for at an occurrence that [n] equal
    keys precede. *)
Definition suffixed (key : string) (n : N) : string :=
  if (n =? 0)%N then key else key +:+ "_" +:+ pretty n.

(** The table counts the keys seen so far, "__proto__" apart, which it
    never holds. *)
Definition counts (lookup : lookup_table) (seen : list string) : Prop :=
  forall k,
    lookup !! k
    = if String.eqb k "__proto__" || (occurrences k seen =? 0)%N then None
      else Some (occurrences k seen).

End KeySequence.

(** ** The update manager and the component state
      (source lines 1285-1384, 2125-2232, 3921-4071)

    Components are held in a heap and referred to by index.  The code a
    component author writes is represented by data: the body of an
    [update_<name>] handler is a list of [setState] calls on components,
    and the template of a component is a flag telling whether a renderer
    exists.  Rendering and reconciling ([_p_] followed by [afterInsert]) is
    one opaque step that records, in the trace, the state it rendered. *)
Module UpdateManager.

(** A state value: a primitive, or [undefined] ([None]). *)
Abbreviation value := (option string).

(** What a handler does: [target.setState(name, v)]. *)
Inductive action :=
  | ASetState (target : nat) (name : string) (v : value).

(** A [State] object (lines 1301-1311). *)
Record State := mkStateObj {
  _u_ : gmap string string;
  sV_ : bool;
  _l_ : option (gmap string string);
  _k_ : option (list (string * value));
  _T_ : option (gset string)
      (** the own property names of the object of forced properties *)
}.

(** The fields of a [Component] that the update cycle reads and writes,
    with the author's code: the [update_<name>] handlers, whether
    [shouldUpdate] allows updates, and whether a renderer is attached. *)
Record Component := mkComponent {
  J_ : option State;
  U_ : bool;
  V_ : bool;
  T_ : bool;
  update_handlers : gmap string (list action);
  shouldUpdate : bool;
  _n_ : bool
}.

(** What the runtime does that is visible from outside. *)
Inductive event :=
  | EvUpdate (component : nat)
      (** [component._w_()] was entered *)
  | EvHandler (component : nat) (name : string) (newValue : value)
      (oldValue : JsObject.read_result string)
      (** an [update_<name>] handler was called; the old value is what
          [oldState[name]] reads *)
  | EvEmit (component : nat) (type : string)
      (** a lifecycle event was emitted *)
  | EvRender (component : nat) (state : option (gmap string string)).
      (** the component was rendered and reconciled with this state *)

(** The variables of the update manager (lines 2127-2129), the callbacks
    handed to [nextTick] that have not run yet (all of them are
    [updateUnbatchedComponents]), the components and the trace. *)
Record World := mkWorld {
  updatesScheduled : bool;
  batchStack : list (option (list nat));
  unbatchedQueue : list nat;
  ticks : nat;
  components : list Component;
  trace : list event
}.

Definition set_updatesScheduled (b : bool) (w : World) : World :=
  mkWorld b (batchStack w) (unbatchedQueue w) (ticks w) (components w)
    (trace w).

Definition set_batchStack (s : list (option (list nat))) (w : World)
  : World :=
  mkWorld (updatesScheduled w) s (unbatchedQueue w) (ticks w) (components w)
    (trace w).

Definition set_unbatchedQueue (q : list nat) (w : World) : World :=
  mkWorld (updatesScheduled w) (batchStack w) q (ticks w) (components w)
    (trace w).

Definition set_ticks (n : nat) (w : World) : World :=
  mkWorld (updatesScheduled w) (batchStack w) (unbatchedQueue w) n
    (components w) (trace w).

Definition set_components (cs : list Component) (w : World) : World :=
  mkWorld (updatesScheduled w) (batchStack w) (unbatchedQueue w) (ticks w)
    cs (trace w).

Definition log (e : event) (w : World) : World :=
  mkWorld (updatesScheduled w) (batchStack w) (unbatchedQueue w) (ticks w)
    (components w) (trace w ++ [e]).

(** Writing to the fields of the component at reference [c]. *)
Definition modify_component (c : nat) (f : Component -> Component)
  (w : World) : World :=
  set_components (alter f c (components w)) w.

Definition with_J_ (s : option State) (k : Component) : Component :=
  mkComponent s (U_ k) (V_ k) (T_ k) (update_handlers k) (shouldUpdate k)
    (_n_ k).

Definition with_U_ (b : bool) (k : Component) : Component :=
  mkComponent (J_ k) b (V_ k) (T_ k) (update_handlers k) (shouldUpdate k)
    (_n_ k).

Definition with_V_ (b : bool) (k : Component) : Component :=
  mkComponent (J_ k) (U_ k) b (T_ k) (update_handlers k) (shouldUpdate k)
    (_n_ k).

(** A computation over the world; the world is kept when it throws. *)
Definition wcomp (A : Type) : Type := World -> outcome A * World.

Definition wret {A} (a : A) : wcomp A := fun w => (Ok a, w).

Definition wbind {A B} (m : wcomp A) (k : A -> wcomp B) : wcomp B :=
  fun w =>
    match m w with
    | (Ok a, w') => k a w'
    | (Throw e, w') => (Throw e, w')
    | (OutOfFuel, w') => (OutOfFuel, w')
    end.

Definition wmodify (f : World -> World) : wcomp unit :=
  fun w => (Ok tt, f w).

(** [try { body } finally { cleanup }] where [cleanup] cannot throw. *)
Definition try_finally (body : wcomp unit) (cleanup : World -> World)
  : wcomp unit :=
  fun w =>
    match body w with
    | (Ok tt, w') => (Ok tt, cleanup w')
    | (Throw e, w') => (Throw e, cleanup w')
    | (OutOfFuel, w') => (OutOfFuel, w')
    end.

(** What reading a property of [null] or calling a missing renderer
    throws. *)
Definition TypeError : js_error := JsError "TypeError" "" None.

(** *** The update manager (lines 2137-2228) *)

(** [scheduleUpdates()]; [nextTick] queues the flush. *)
Definition scheduleUpdates (w : World) : World :=
  if updatesScheduled w then w
  else set_ticks (S (ticks w)) (set_updatesScheduled true w).

(** [batch.aB_.push(component)] or [batch.aB_ = [component]]. *)
Definition batch_push (component : nat) (batch : option (list nat))
  : option (list nat) :=
  match batch with
  | Some queue => Some (queue ++ [component])
  | None => Some [component]
  end.

(** [queueComponentUpdate(component)]; the top of the stack is its last
    element. *)
Definition queueComponentUpdate (component : nat) (w : World) : World :=
  let batchStackLen := length (batchStack w) in
  if (0 <? batchStackLen)%nat then
    set_batchStack
      (alter (batch_push component) (batchStackLen - 1)%nat (batchStack w)) w
  else
    let w := scheduleUpdates w in
    set_unbatchedQueue (unbatchedQueue w ++ [component]) w.

(** The queue that [updateComponents] was handed: the shared unbatched
    queue or the array of the batch at a position of the stack. *)
Inductive queue_ref :=
  | QUnbatched
  | QBatch (position : nat).

Definition queue_at (q : queue_ref) (w : World) : list nat :=
  match q with
  | QUnbatched => unbatchedQueue w
  | QBatch position =>
      match batchStack w !! position with
      | Some (Some queue) => queue
      | _ => []
      end
  end.

(** [queue.length = 0]. *)
Definition clear_queue (q : queue_ref) (w : World) : World :=
  match q with
  | QUnbatched => set_unbatchedQueue [] w
  | QBatch position =>
      set_batchStack (alter (fun _ => Some []) position (batchStack w)) w
  end.

(** *** The state of a component (lines 1313-1377) *)

(** [this._k_[name] = value]; the changes are enumerated later. *)
Definition changes_set (name : string) (v : value)
  (changes : list (string * value)) : list (string * value) :=
  JsObject.write_listed name v changes.

(** [delete rawState[name]] or [rawState[name] = value]. *)
Definition raw_assign (name : string) (v : value) (raw : gmap string string)
  : gmap string string :=
  match v with
  | Some s => JsObject.write name s raw
  | None => JsObject.remove name raw
  end.

(** [rawState[name] === value]: an inherited member of [Object.prototype]
    is identical to no state value. *)
Definition identical (current : JsObject.read_result string) (v : value)
  : bool :=
  match current with
  | JsObject.Own s => bool_decide (v = Some s)
  | JsObject.Inherited _ => false
  | JsObject.Missing => bool_decide (v = None)
  end.

(** [this._e_()] of a component (lines 4001-4006). *)
Definition _e_ (c : nat) (w : World) : World :=
  match components w !! c with
  | Some k =>
      if negb (U_ k)
      then queueComponentUpdate c (modify_component c (with_U_ true) w)
      else w
  | None => w
  end.

(** Writing to the fields of the state object of the component [c]. *)
Definition modify_state (c : nat) (f : State -> State) (w : World) : World :=
  modify_component c (fun k => with_J_ (option_map f (J_ k)) k) w.

(** [state._f_(name, value, shouldEnsure, forceDirty)] on the state of the
    component [c] (lines 1343-1377); [ensure] only defines accessors and is
    left out. *)
Definition _f_ (c : nat) (name : string) (v : value) (forceDirty : bool)
  (w : World) : World :=
  match components w !! c ≫= J_ with
  | None => w
  | Some state =>
      let rawState := _u_ state in
      if negb forceDirty && identical (JsObject.read rawState name) v then w
      else
        let w :=
          if forceDirty then
            modify_state c
              (fun s =>
                 mkStateObj (_u_ s) (sV_ s) (_l_ s) (_k_ s)
                   (Some (if String.eqb name "__proto__"
                          then default ∅ (_T_ s)
                          else default ∅ (_T_ s) ∪ {[name]}))) w
          else w in
        let w :=
          if negb (sV_ state) then
            _e_ c
              (modify_state c
                 (fun s =>
                    mkStateObj rawState true (Some rawState) (Some [])
                      (_T_ s)) w)
          else w in
        modify_state c
          (fun s =>
             mkStateObj (raw_assign name v (_u_ s)) (sV_ s) (_l_ s)
               (Some (changes_set name v (default [] (_k_ s)))) (_T_ s)) w
  end.

(** [component.setState(name, value)]; a component without a state object
    makes it read a property of [null]. *)
Definition setState (c : nat) (name : string) (v : value) : wcomp unit :=
  fun w =>
    match components w !! c with
    | Some k =>
        match J_ k with
        | Some _ => (Ok tt, _f_ c name v false w)
        | None => (Throw TypeError, w)
        end
    | None => (Throw TypeError, w)
    end.

(** [component.forceUpdate()]. *)
Definition forceUpdate (c : nat) (w : World) : World :=
  _e_ c (modify_component c (with_V_ true) w).

(** [state.I_()]. *)
Definition State_I_ (state : State) : State :=
  mkStateObj (_u_ state) false None None None.

(** [component.I_()] (lines 4038-4046). *)
Definition I_ (c : nat) (w : World) : World :=
  modify_component c
    (fun k =>
       mkComponent (option_map State_I_ (J_ k)) false false (T_ k)
         (update_handlers k) (shouldUpdate k) (_n_ k)) w.

(** The getter [component._j_]. *)
Definition _j_ (k : Component) : bool :=
  V_ k || match J_ k with Some state => sV_ state | None => false end.

(** The body of a handler. *)
Fixpoint run_actions (actions : list action) : wcomp unit :=
  match actions with
  | [] => wret tt
  | ASetState target name v :: rest =>
      wbind (setState target name v) (fun _ => run_actions rest)
  end.

(** The first loop of [processUpdateHandlers] over the changed
    properties in the order of their enumeration: the handler of every
    changed property, or nothing when one has none. *)
Fixpoint collect_handlers (k : Component) (changes : list (string * value))
  : option (list (string * list action)) :=
  match changes with
  | [] => Some []
  | (propName, _) :: rest =>
      match update_handlers k !! propName with
      | Some handlerMethod =>
          option_map (cons (propName, handlerMethod))
            (collect_handlers k rest)
      | None => None
      end
  end.

(** [stateChanges[propertyName]], read from the object that [_f_] keeps
    writing to while the state is dirty; [propertyName] was enumerated
    from that object and is an own property of it. *)
Definition changed_value (c : nat) (propertyName : string) (w : World)
  : value :=
  let stateChanges : list (string * value) :=
    default [] ((components w !! c ≫= J_) ≫= _k_) in
  default None
    (snd <$> List.find (fun p => String.eqb (fst p) propertyName)
               stateChanges).

(** [handlers.forEach(...)] of [processUpdateHandlers]. *)
Fixpoint call_handlers (c : nat) (handlers : list (string * list action))
  (oldState : gmap string string) : wcomp unit :=
  match handlers with
  | [] => wret tt
  | (propertyName, handlerMethod) :: rest =>
      wbind
        (wmodify (fun w =>
           log (EvHandler c propertyName (changed_value c propertyName w)
                  (JsObject.read oldState propertyName)) w))
        (fun _ => wbind (run_actions handlerMethod)
           (fun _ => call_handlers c rest oldState))
  end.

(** [processUpdateHandlers(component, stateChanges, oldState)]: whether the
    DOM has been brought up to date by the handlers. *)
Definition processUpdateHandlers (c : nat) (k : Component)
  (stateChanges : list (string * value)) (oldState : gmap string string)
  : wcomp bool :=
  match collect_handlers k (JsObject.for_in stateChanges) with
  | None => wret false
  | Some [] => wret true
  | Some handlers =>
      wbind (call_handlers c handlers oldState)
        (fun _ => wbind (wmodify (log (EvEmit c "update")))
           (fun _ => wbind (wmodify (I_ c)) (fun _ => wret true)))
  end.

Section Update.

(** [updateComponents], for the queue of a batch. *)
Variable updateComponents_rec : queue_ref -> wcomp unit.

(** [batchUpdate(func)] (lines 2175-2201). *)
Definition batchUpdate_with (func : wcomp unit) : wcomp unit :=
  fun w =>
    let position := length (batchStack w) in
    let w := set_batchStack (batchStack w ++ [None]) w in
    let pop w := set_batchStack (removelast (batchStack w)) w in
    match func w with
    | (OutOfFuel, w) => (OutOfFuel, w)
    | (result, w) =>
        let flush :=
          match batchStack w !! position with
          | Some (Some _) => updateComponents_rec (QBatch position)
          | _ => wret tt
          end in
        match try_finally flush pop w with
        | (Ok tt, w) => (result, w)
        | failure => failure
        end
    end.

(** [component._m_()] (lines 4056-4071). *)
Definition _m_ (c : nat) (k : Component) : wcomp unit :=
  if negb (_n_ k) then fun w => (Throw TypeError, w)
  else
    wbind
      (batchUpdate_with
         (fun w =>
            (Ok tt,
             log (EvRender c
                    (option_map _u_
                       (mbind J_ (components w !! c)))) w)))
      (fun _ => wmodify (I_ c)).

(** [component.update()], alias [_w_] (lines 4008-4032). *)
Definition update (c : nat) : wcomp unit :=
  wbind (wmodify (log (EvUpdate c)))
    (fun _ w =>
       match components w !! c with
       | None => (Throw TypeError, w)
       | Some k =>
           if T_ k || negb (_j_ k) then (Ok tt, w)
           else
             wbind
               (match J_ k with
                | Some state =>
                    if negb (V_ k) && sV_ state then
                      wbind
                        (processUpdateHandlers c k
                           (default [] (_k_ state))
                           (default ∅ (_l_ state)))
                        (fun handled =>
                           if handled then
                             wmodify
                               (modify_component c
                                  (fun k =>
                                     with_J_
                                       (option_map
                                          (fun s =>
                                             mkStateObj (_u_ s) false (_l_ s)
                                               (_k_ s) (_T_ s))
                                          (J_ k)) k))
                           else wret tt)
                    else wret tt
                | None => wret tt
                end)
               (fun _ w =>
                  match components w !! c with
                  | None => (Throw TypeError, w)
                  | Some k =>
                      wbind
                        (if _j_ k && shouldUpdate k then _m_ c k
                         else wret tt)
                        (fun _ => wmodify (I_ c)) w
                  end) w
       end).

End Update.

(** A loop over a queue, followed by [queue.length = 0]. *)
Definition then_clear (q : queue_ref) (loop : wcomp unit) : wcomp unit :=
  wbind loop (fun _ => wmodify (clear_queue q)).

(** The loop of [updateComponents(queue)] from index [i] on (lines
    2165-2168); the queue may grow while it is walked. *)
Fixpoint updateComponents_from (fuel : nat) (q : queue_ref) (i : nat)
  : wcomp unit :=
  match fuel with
  | O => fun w => (OutOfFuel, w)
  | S fuel =>
      fun w =>
        match queue_at q w !! i with
        | None => (Ok tt, w)
        | Some component =>
            wbind
              (update
                 (fun q => then_clear q (updateComponents_from fuel q 0))
                 component)
              (fun _ => updateComponents_from fuel q (S i)) w
        end
  end.

(** [updateComponents(queue)] (lines 2162-2173). *)
Definition updateComponents (fuel : nat) (q : queue_ref) : wcomp unit :=
  then_clear q (updateComponents_from fuel q 0).


(** [updateUnbatchedComponents()], the deferred flush (lines 2137-2148). *)
Definition updateUnbatchedComponents (fuel : nat) : wcomp unit :=
  fun w =>
    match unbatchedQueue w with
    | [] => (Ok tt, w)
    | _ :: _ =>
        try_finally (updateComponents fuel QUnbatched)
          (set_updatesScheduled false) w
    end.

(** The next tick: the oldest callback handed to [nextTick] runs. *)
Definition run_tick (fuel : nat) : wcomp unit :=
  fun w =>
    match ticks w with
    | O => (Ok tt, w)
    | S n => updateUnbatchedComponents fuel (set_ticks n w)
    end.

(** The [_w_] calls recorded in a trace. *)
Definition update_calls (t : list event) : list nat :=
  omap (fun e => match e with EvUpdate c => Some c | _ => None end) t.





(** Outside of any batch: still outside of any batch, the unbatched queue
    has only been appended to, and no [_w_] has been entered. *)
Definition appends_only (w w' : World) : Prop :=
  batchStack w = [] ->
  batchStack w' = []
  /\ unbatchedQueue w `prefix_of` unbatchedQueue w'
  /\ update_calls (trace w') = update_calls (trace w).

(** No component has an [update_<name>] handler. *)
Definition no_handlers (w : World) : Prop :=
  Forall (fun k => update_handlers k = ∅) (components w).

(** The [update_<name>] handlers of a component set no state. *)
Definition inert_handlers (k : Component) : Prop :=
  forall name body, update_handlers k !! name = Some body -> body = [].

(** No [update_<name>] handler of the page sets state. *)
Definition inert (w : World) : Prop :=
  Forall inert_handlers (components w).




(** A computation that, started outside of any batch, returns or throws
    and only appends to the unbatched queue. *)
Definition settles {A} (m : wcomp A) : Prop :=
  forall w,
    batchStack w = [] ->
    fst (m w) <> OutOfFuel /\ appends_only w (snd (m w)).


(** A world outside of any batch, given by its variables and the component
    at reference [c]. *)
Definition focused (c : nat) (cs : list Component) (scheduled : bool)
  (queue : list nat) (pending : nat) (k : Component) (t : list event)
  : World :=
  mkWorld scheduled [] queue pending (<[c := k]> cs) t.

(** Between two flushes at most one flush is scheduled. *)
Definition schedules_at_most_once (w w' : World) : Prop :=
  batchStack w = [] ->
  batchStack w' = []
  /\ (if updatesScheduled w
      then updatesScheduled w' = true /\ ticks w' = ticks w
      else (updatesScheduled w' = false /\ ticks w' = ticks w)
           \/ (updatesScheduled w' = true /\ ticks w' = S (ticks w))).

(** A relation that tolerates what marking a component dirty does:
    writing to components and queueing one. *)
Class Quiet (R : relation World) : Prop := {
  quiet_preorder :: PreOrder R;
  quiet_components cs w : R w (set_components cs w);
  quiet_queue c w : R w (queueComponentUpdate c w)
}.

End UpdateManager.

(** * Event emitters, subscriptions and the destruction of a component

    events-light (source lines 1554-1718), listener-tracker (lines
    1801-2050), [emitLifecycleEvent] and [destroyNodeRecursive] of
    util-browser (lines 663-701), the [nodes] getter of a fragment (lines
    1035-1044) and [Component.prototype.destroy] (lines 3848-3893).

    Functions of the application are opaque: calling one is recorded in the
    trace with its receiver and arguments, and it does not call back into
    the runtime.  The targets of subscriptions are event emitters (plain
    ones or components); DOM elements as targets are not modelled. *)
Module Lifecycle.

(** A function value, compared by identity: a function of the
    application, the closure [g] that events-light's [once] creates, the
    closure [wrappedListener] that the tracker's [once] creates, the
    destroy listener that [subscribeTo] registers, or the function that
    [Object.prototype] has under a name, which a table of listeners
    inherits.  A closure carries what it captured; [g] captures the
    variable [listener], which it overwrites, as a cell of the world. *)
Inductive fn :=
  | FUser (name : string)
  | FOnceG (cell : nat) (type : string)
  | FWrapped (closure : nat) (self : nat) (listener : fn)
  | FSubscribeDestroy (wrapper : nat) (subscribeToList : nat) (target : nat)
  | FNative (name : string).

#[global] Instance fn_eq_dec : EqDecision fn.
Proof.
  unfold EqDecision, Decision. decide equality;
    solve [apply Nat.eq_dec | apply String.string_dec].
Defined.

(** An argument of [emit]: an [Error] object, another primitive value with
    its conversion to a string, [undefined], or a component. *)
Inductive arg :=
  | AError (e : js_error)
  | AText (s : string)
  | AUndefined
  | AComponent (c : nat).

(** The value of an own property [events[type]]: one function, or an
    array of them. *)
Inductive listeners :=
  | One (l : fn)
  | Many (ls : list fn).

(** What [events[type]] reads: listeners, nothing, or the object
    [Object.prototype], which a table without an own property "__proto__"
    has under that name: it is no function, and as an array it is empty
    and has no [push]. *)
Inductive entry :=
  | Listeners (ls : listeners)
  | ThePrototype
  | Nothing.

(** An entry of [component.O_]: [[targetMethodName, isOnce, extraArgs]]. *)
Record CustomEvent := mkCustomEvent {
  targetMethodName : string;
  isOnce : bool;
  extraArgs : option (list arg)
}.

(** The fields of a component that its destruction reads and writes, and
    the names of the methods that its author defined (none of them a name
    of the prototype).  [O_] holds the own properties of the table of
    custom events. *)
Record Component := mkComponent {
  id : string;
  T_ : bool;
  K_ : option nat;
  L_ : option nat;
  M_ : option (list string);
  O_ : option (gmap string CustomEvent);
  H_ : option string;
  m_ : gmap string nat;
  methods : gset string
}.

(** An event emitter: the own properties of its [$e], and the component
    it is, if any. *)
Record Emitter := mkEmitter {
  e_ : option (gmap string listeners);
  component : option Component
}.

(** An [EventEmitterWrapper]; an entry of [$__listeners] is
    [[event, listener]] or [[event, listener, wrappedListener]]. *)
Record Wrapper := mkWrapper {
  w_target : nat;
  w_listeners : list (string * fn * option fn);
  w_subscribeTo : option nat
}.

(** A DOM node: its type, parent and children, and the fragment whose
    start or end marker it is. *)
Record Node := mkNode {
  nodeType : Z;
  parentNode : option nat;
  childNodes : list nat;
  fragment : option nat
}.

(** A fragment (lines 1012-1069). *)
Record Fragment := mkFragment {
  startNode : nat;
  endNode : nat;
  detachedContainer : nat;
  detached : bool
}.

(** What the application sees. *)
Inductive event :=
  | Called (f : string) (this : nat) (args : list arg)
      (** a function of the application was called *)
  | Method (target : nat) (name : string) (args : list arg)
      (** a method that the author defined was called *)
  | HandleCalled (handle : string).
      (** a handle that removes a DOM listener was called *)

(** The heap: emitters, the cells of the [g] closures, the number of
    [wrappedListener] closures made, wrappers, trackers (each is its
    [$__subscribeToList], a reference to an array of wrappers), these
    arrays, the DOM, [componentsByDOMNode] for nodes and for fragments,
    [componentLookup] and the trace.  [componentLookup] holds the own
    properties of the table; its keys are component ids, which are taken
    not to be names of members of [Object.prototype], so that a read of
    the table is a read of its own properties. *)
Record World := mkWorld {
  emitters : list Emitter;
  cells : list (option fn);
  closures : nat;
  wrappers : list Wrapper;
  trackers : list nat;
  arrays : list (list nat);
  nodes : list Node;
  fragments : list Fragment;
  componentsByNode : gmap nat nat;
  componentsByFragment : gmap nat nat;
  componentLookup : gmap string nat;
  trace : list event
}.

Definition empty_world : World :=
  mkWorld [] [] 0 [] [] [] [] [] ∅ ∅ ∅ [].

Definition set_emitters (f : list Emitter -> list Emitter) (w : World)
  : World :=
  mkWorld (f (emitters w)) (cells w) (closures w) (wrappers w) (trackers w)
    (arrays w) (nodes w) (fragments w) (componentsByNode w)
    (componentsByFragment w) (componentLookup w) (trace w).

Definition set_cells (f : list (option fn) -> list (option fn)) (w : World)
  : World :=
  mkWorld (emitters w) (f (cells w)) (closures w) (wrappers w) (trackers w)
    (arrays w) (nodes w) (fragments w) (componentsByNode w)
    (componentsByFragment w) (componentLookup w) (trace w).

Definition set_closures (n : nat) (w : World) : World :=
  mkWorld (emitters w) (cells w) n (wrappers w) (trackers w)
    (arrays w) (nodes w) (fragments w) (componentsByNode w)
    (componentsByFragment w) (componentLookup w) (trace w).

Definition set_wrappers (f : list Wrapper -> list Wrapper) (w : World)
  : World :=
  mkWorld (emitters w) (cells w) (closures w) (f (wrappers w)) (trackers w)
    (arrays w) (nodes w) (fragments w) (componentsByNode w)
    (componentsByFragment w) (componentLookup w) (trace w).

Definition set_trackers (f : list nat -> list nat) (w : World) : World :=
  mkWorld (emitters w) (cells w) (closures w) (wrappers w) (f (trackers w))
    (arrays w) (nodes w) (fragments w) (componentsByNode w)
    (componentsByFragment w) (componentLookup w) (trace w).

Definition set_arrays (f : list (list nat) -> list (list nat)) (w : World)
  : World :=
  mkWorld (emitters w) (cells w) (closures w) (wrappers w) (trackers w)
    (f (arrays w)) (nodes w) (fragments w) (componentsByNode w)
    (componentsByFragment w) (componentLookup w) (trace w).

Definition set_nodes (f : list Node -> list Node) (w : World) : World :=
  mkWorld (emitters w) (cells w) (closures w) (wrappers w) (trackers w)
    (arrays w) (f (nodes w)) (fragments w) (componentsByNode w)
    (componentsByFragment w) (componentLookup w) (trace w).

Definition set_fragments (f : list Fragment -> list Fragment) (w : World)
  : World :=
  mkWorld (emitters w) (cells w) (closures w) (wrappers w) (trackers w)
    (arrays w) (nodes w) (f (fragments w)) (componentsByNode w)
    (componentsByFragment w) (componentLookup w) (trace w).

Definition set_componentsByFragment (f : gmap nat nat -> gmap nat nat)
  (w : World) : World :=
  mkWorld (emitters w) (cells w) (closures w) (wrappers w) (trackers w)
    (arrays w) (nodes w) (fragments w) (componentsByNode w)
    (f (componentsByFragment w)) (componentLookup w) (trace w).

Definition set_componentLookup (f : gmap string nat -> gmap string nat)
  (w : World) : World :=
  mkWorld (emitters w) (cells w) (closures w) (wrappers w) (trackers w)
    (arrays w) (nodes w) (fragments w) (componentsByNode w)
    (componentsByFragment w) (f (componentLookup w)) (trace w).

Definition log (e : event) (w : World) : World :=
  mkWorld (emitters w) (cells w) (closures w) (wrappers w) (trackers w)
    (arrays w) (nodes w) (fragments w) (componentsByNode w)
    (componentsByFragment w) (componentLookup w) (trace w ++ [e]).

(** A computation over the heap; the heap is kept when it throws. *)
Definition M (A : Type) : Type := World -> outcome A * World.

Definition ret {A} (a : A) : M A := fun w => (Ok a, w).

Definition throw {A} (e : js_error) : M A := fun w => (Throw e, w).

Definition out_of_fuel {A} : M A := fun w => (OutOfFuel, w).

Definition bind {A B} (m : M A) (k : A -> M B) : M B :=
  fun w =>
    match m w with
    | (Ok a, w') => k a w'
    | (Throw e, w') => (Throw e, w')
    | (OutOfFuel, w') => (OutOfFuel, w')
    end.

Notation "'call!' x ':=' m 'in' k" := (bind m (fun x => k))
  (at level 10, x pattern, m at level 100, k at level 200).

Definition modify (f : World -> World) : M unit := fun w => (Ok tt, f w).

Definition get {A} (f : World -> A) : M A := fun w => (Ok (f w), w).

(** [for (...) body(x)] over a list. *)
Fixpoint for_each {A} (body : A -> M unit) (l : list A) : M unit :=
  match l with
  | [] => ret tt
  | x :: rest => call! _ := body x in for_each body rest
  end.

(** What reading a property of [null] or [undefined] throws, and what a
    [WeakMap] throws for a key that is not an object. *)
Definition TypeError (message : string) : js_error :=
  JsError "TypeError" message None.

(** ** events-light *)

(** Writing to the emitter at reference [ee]. *)
Definition modify_emitter (ee : nat) (f : Emitter -> Emitter) (w : World)
  : World :=
  set_emitters (alter f ee) w.

Definition with_e_ (events : option (gmap string listeners)) (o : Emitter)
  : Emitter :=
  mkEmitter events (component o).

(** [events[type]]: an own entry, or what the table inherits from
    [Object.prototype] under that name. *)
Definition events_at (events : gmap string listeners) (type : string)
  : entry :=
  match JsObject.read events type with
  | JsObject.Own ls => Listeners ls
  | JsObject.Inherited name =>
      if String.eqb name "__proto__" then ThePrototype
      else Listeners (One (FNative name))
  | JsObject.Missing => Nothing
  end.

(** [events[type]] of an emitter. *)
Definition entry_of (ee : nat) (type : string) (w : World) : entry :=
  match emitters w !! ee ≫= e_ with
  | Some events => events_at events type
  | None => Nothing
  end.

(** [events[type]] after [addListener] (lines 1590-1603). *)
Definition added (listener : fn) (prepend : bool) (old : option listeners)
  : listeners :=
  match old with
  | Some (One listeners) =>
      Many (if prepend then [listener; listeners] else [listeners; listener])
  | Some (Many listeners) =>
      Many (if prepend then listener :: listeners
            else listeners ++ [listener])
  | None => One listener
  end.

(** [checkListener(listener)]; [None] stands for a value that is not a
    function. *)
Definition checkListener (listener : option fn) : M fn :=
  match listener with
  | Some l => ret l
  | None => throw (TypeError "Invalid listener")
  end.

(** [addListener(eventEmitter, type, listener, prepend)] (lines
    1585-1606). *)
Definition addListener (ee : nat) (type : string) (listener : option fn)
  (prepend : bool) : M unit :=
  call! l := checkListener listener in
  call! events := get (fun w => default ∅ (emitters w !! ee ≫= e_)) in
  let store old :=
    modify (modify_emitter ee
      (with_e_ (Some (JsObject.write type (added l prepend old) events)))) in
  match events_at events type with
  | Listeners listeners => store (Some listeners)
  | Nothing => store None
  | ThePrototype =>
      call! _ := modify (modify_emitter ee (with_e_ (Some events))) in
      throw (TypeError (if prepend then "listeners.unshift is not a function"
                        else "listeners.push is not a function"))
  end.

Definition on (ee : nat) (type : string) (listener : option fn) : M unit :=
  addListener ee type listener false.

Definition prependListener (ee : nat) (type : string) (listener : option fn)
  : M unit :=
  addListener ee type listener true.

(** [once(type, listener)]: the closure [g] gets a fresh cell for its
    variable [listener]. *)
Definition once (ee : nat) (type : string) (listener : option fn) : M unit :=
  call! l := checkListener listener in
  call! cell := get (fun w => length (cells w)) in
  call! _ := modify (set_cells (fun cs => cs ++ [Some l])) in
  on ee type (Some (FOnceG cell type)).

(** The loop of [removeListener] over an array: every occurrence is
    spliced out. *)
Definition without (listener : fn) (ls : list fn) : list fn :=
  List.filter (fun l => negb (bool_decide (l = listener))) ls.

(** [removeListener(type, listener)] for a function [listener]; an array
    is an own property of the table, and the loop over [Object.prototype]
    finds nothing. *)
Definition removeListener_fn (ee : nat) (type : string) (listener : fn)
  (w : World) : World :=
  modify_emitter ee (fun o =>
    match e_ o with
    | Some events =>
        match events_at events type with
        | Listeners (One l) =>
            if bool_decide (l = listener)
            then with_e_ (Some (JsObject.remove type events)) o
            else o
        | Listeners (Many ls) =>
            with_e_
              (Some (JsObject.write type (Many (without listener ls)) events))
              o
        | ThePrototype => o
        | Nothing => o
        end
    | None => o
    end) w.

(** [removeListener(type, listener)] (lines 1682-1703). *)
Definition removeListener (ee : nat) (type : string) (listener : option fn)
  : M unit :=
  call! l := checkListener listener in
  modify (removeListener_fn ee type l).

(** [removeAllListeners(type)] of an emitter (lines 1705-1710). *)
Definition removeAllListeners (ee : nat) (type : string) (w : World)
  : World :=
  modify_emitter ee (fun o =>
    match e_ o with
    | Some events => with_e_ (Some (JsObject.remove type events)) o
    | None => o
    end) w.

(** [listenerCount(type)] (lines 1712-1716); [None] stands for
    [undefined], the [length] of [Object.prototype]. *)
Definition listenerCount (ee : nat) (type : string) (w : World)
  : option nat :=
  match entry_of ee type w with
  | Listeners (One _) => Some 1%nat
  | Listeners (Many ls) => Some (length ls)
  | ThePrototype => None
  | Nothing => Some 0%nat
  end.

(** The functions that [emit] would call for a value of [events[type]],
    in order. *)
Definition as_list (e : entry) : list fn :=
  match e with
  | Listeners (One l) => [l]
  | Listeners (Many ls) => ls
  | ThePrototype => []
  | Nothing => []
  end.

(** The functions that [emit] would call for [type] on the emitter
    [ee]. *)
Definition listeners_of (ee : nat) (type : string) (w : World) : list fn :=
  as_list (entry_of ee type w).

(** Recording a series of calls. *)
Definition log_all (es : list event) (w : World) : World :=
  fold_left (fun w e => log e w) es w.

(** ** listener-tracker *)

Definition modify_wrapper (self : nat) (f : Wrapper -> Wrapper) (w : World)
  : World :=
  set_wrappers (alter f self) w.

Definition with_listeners (ls : list (string * fn * option fn))
  (k : Wrapper) : Wrapper :=
  mkWrapper (w_target k) ls (w_subscribeTo k).

Definition with_subscribeTo (t : option nat) (k : Wrapper) : Wrapper :=
  mkWrapper (w_target k) (w_listeners k) t.

(** Whether the callback of the [filter] in [$__remove] removes the entry,
    and with which function it calls [target.removeListener]. *)
Definition removed_as (test : string -> fn -> bool) (testWrapped : bool)
  (entry : string * fn * option fn) : option fn :=
  let '(curEvent, curListenerFunc, curWrappedListenerFunc) := entry in
  if testWrapped then
    match curWrappedListenerFunc with
    | Some wrapped => if test curEvent wrapped then Some wrapped else None
    | None => None
    end
  else if test curEvent curListenerFunc
  then Some (default curListenerFunc curWrappedListenerFunc)
  else None.

(** The [filter] of [$__remove]: the entries kept, the target being told
    to remove the others. *)
Fixpoint remove_filter (target : nat) (test : string -> fn -> bool)
  (testWrapped : bool) (entries : list (string * fn * option fn))
  (w : World) : list (string * fn * option fn) * World :=
  match entries with
  | [] => ([], w)
  | entry :: rest =>
      match removed_as test testWrapped entry with
      | Some f =>
          remove_filter target test testWrapped rest
            (removeListener_fn target (fst (fst entry)) f w)
      | None =>
          let '(kept, w') := remove_filter target test testWrapped rest w in
          (entry :: kept, w')
      end
  end.

(** [wrapper.$__remove(test, testWrapped)] (lines 1817-1863); the tracker
    gets a new array when the wrapper has become empty. *)
Definition wrapper_remove (self : nat) (test : string -> fn -> bool)
  (testWrapped : bool) (w : World) : World :=
  match wrappers w !! self with
  | None => w
  | Some k =>
      let '(kept, w) :=
        remove_filter (w_target k) test testWrapped (w_listeners k) w in
      let w := modify_wrapper self (with_listeners kept) w in
      match kept, w_subscribeTo k with
      | [], Some subscribeTo =>
          match trackers w !! subscribeTo with
          | Some array =>
              let subscribeToList := default [] (arrays w !! array) in
              let filtered :=
                List.filter (fun cur => negb (Nat.eqb cur self))
                  subscribeToList in
              set_trackers (<[subscribeTo := length (arrays w)]>)
                (set_arrays (fun a => a ++ [filtered]) w)
          | None => w
          end
      | _, _ => w
      end
  end.

(** [wrapper.on(event, listener)]. *)
Definition wrapper_on (self : nat) (event : string) (listener : fn)
  : M unit :=
  fun w =>
    match wrappers w !! self with
    | None => (Throw (TypeError ""), w)
    | Some k =>
        (call! _ := on (w_target k) event (Some listener) in
         modify (modify_wrapper self (fun k =>
           with_listeners (w_listeners k ++ [(event, listener, None)]) k))) w
    end.

(** [wrapper.once(event, listener)]. *)
Definition wrapper_once (self : nat) (event : string) (listener : fn)
  : M unit :=
  fun w =>
    match wrappers w !! self with
    | None => (Throw (TypeError ""), w)
    | Some k =>
        let wrappedListener := FWrapped (closures w) self listener in
        (call! _ := modify (set_closures (S (closures w))) in
         call! _ := once (w_target k) event (Some wrappedListener) in
         modify (modify_wrapper self (fun k =>
           with_listeners
             (w_listeners k ++ [(event, listener, Some wrappedListener)])
             k))) w
    end.

(** The loop of [wrapper.removeAllListeners()] without an event: from the
    last entry to the first, the target is told to remove the user's
    listener. *)
Definition remove_user_listeners (target : nat)
  (entries : list (string * fn * option fn)) (w : World) : World :=
  fold_left
    (fun w cur => removeListener_fn target (fst (fst cur)) (snd (fst cur)) w)
    (rev entries) w.

(** [wrapper.removeAllListeners(event)] (lines 1912-1931). *)
Definition wrapper_removeAllListeners (self : nat) (event : option string)
  (w : World) : World :=
  match wrappers w !! self with
  | None => w
  | Some k =>
      match event with
      | Some event' =>
          if JsString.truthy event'
          then wrapper_remove self
                 (fun curEvent _ => String.eqb event' curEvent) false w
          else modify_wrapper self (with_listeners [])
                 (remove_user_listeners (w_target k) (w_listeners k) w)
      | None =>
          modify_wrapper self (with_listeners [])
            (remove_user_listeners (w_target k) (w_listeners k) w)
      end
  end.

(** [wrapper.removeListener(event, listener)] (lines 1891-1910); a call
    with a function as its only argument is the call with no event. *)
Definition wrapper_removeListener (self : nat) (event : option string)
  (listener : option fn) (w : World) : World :=
  let event := match event with
               | Some e => if JsString.truthy e then Some e else None
               | None => None
               end in
  match listener, event with
  | Some l, Some e =>
      wrapper_remove self
        (fun curEvent curListener =>
           String.eqb e curEvent && bool_decide (l = curListener)) false w
  | Some l, None =>
      wrapper_remove self
        (fun _ curListener => bool_decide (l = curListener)) false w
  | None, Some e => wrapper_removeAllListeners self (Some e) w
  | None, None => w
  end.

(** [new SubscriptionTracker()]: the reference of the new tracker. *)
Definition new_SubscriptionTracker : M nat :=
  fun w =>
    (Ok (length (trackers w)),
     set_trackers (fun t => t ++ [length (arrays w)])
       (set_arrays (fun a => a ++ [[]]) w)).

(** The first wrapper of the list whose target is [target]. *)
Definition find_wrapper (target : nat) (subscribeToList : list nat)
  (w : World) : option nat :=
  List.find
    (fun cur =>
       match wrappers w !! cur with
       | Some k => Nat.eqb (w_target k) target
       | None => false
       end)
    subscribeToList.

(** [tracker.subscribeTo(target, options)] (lines 1966-2005) for a
    [target] that is an event emitter, as every target of this
    development is: a target without [once], which the code wraps into an
    [EventEmitterAdapter] (lines 1980-1986), is outside of it.
    [addDestroyListener] is
    [!options || options.addDestroyListener !== false]. *)
Definition tracker_subscribeTo (self : nat) (target : nat)
  (addDestroyListener : bool) : M nat :=
  fun w =>
    match trackers w !! self with
    | None => (Throw (TypeError ""), w)
    | Some array =>
        let subscribeToList := default [] (arrays w !! array) in
        match find_wrapper target subscribeToList w with
        | Some wrapper => (Ok wrapper, w)
        | None =>
            let wrapper := length (wrappers w) in
            (call! _ :=
               modify (set_wrappers (fun ws =>
                 ws ++ [mkWrapper target [] None])) in
             call! _ :=
               (if addDestroyListener
                then wrapper_once wrapper "destroy"
                       (FSubscribeDestroy wrapper array target)
                else ret tt) in
             call! _ :=
               modify (modify_wrapper wrapper (with_subscribeTo (Some self)))
             in
             call! _ :=
               modify (set_arrays (alter (fun l => l ++ [wrapper]) array)) in
             ret wrapper) w
        end
    end.

(** The last index of the array whose wrapper has the target [target]. *)
Fixpoint last_index_of_target (target : nat) (subscribeToList : list nat)
  (w : World) (i : nat) : option nat :=
  match subscribeToList with
  | [] => None
  | cur :: rest =>
      match last_index_of_target target rest w (S i) with
      | Some j => Some j
      | None =>
          match wrappers w !! cur with
          | Some k => if Nat.eqb (w_target k) target then Some i else None
          | None => None
          end
      end
  end.

(** The destroy listener of [subscribeTo] (lines 1987-1996), with the
    wrapper, the array and the target that it captured. *)
Definition subscribe_destroy_listener (wrapper array target : nat)
  (w : World) : World :=
  let w := wrapper_removeAllListeners wrapper None w in
  match last_index_of_target target (default [] (arrays w !! array)) w 0 with
  | Some i => set_arrays (alter (fun l => delete i l) array) w
  | None => w
  end.

(** [tracker.removeAllListeners(target, event)] (lines 2007-2032). *)
Definition tracker_removeAllListeners (self : nat) (target : option nat)
  (event : option string) (w : World) : World :=
  match trackers w !! self with
  | None => w
  | Some array =>
      let subscribeToList := default [] (arrays w !! array) in
      match target with
      | Some target' =>
          match last_index_of_target target' subscribeToList w 0 with
          | Some i =>
              match subscribeToList !! i with
              | Some cur =>
                  let w := wrapper_removeAllListeners cur event w in
                  match wrappers w !! cur ≫= (fun k => Some (w_listeners k))
                  with
                  | Some [] =>
                      set_arrays (alter (fun l => delete i l) array) w
                  | _ => w
                  end
              | None => w
              end
          | None => w
          end
      | None =>
          let w :=
            fold_left
              (fun w cur => wrapper_removeAllListeners cur None w)
              (rev subscribeToList) w in
          set_arrays (alter (fun _ => []) array) w
      end
  end.

(** ** Calling a function and emitting an event *)

(** [f.apply(this, args)].  A function of [Object.prototype] changes
    nothing and calls nothing of the application; [__defineGetter__] and
    [__defineSetter__] refuse their second argument, which is never a
    function here. *)
Fixpoint apply (fuel : nat) (f : fn) (this : nat) (args : list arg)
  : M unit :=
  match fuel with
  | O => out_of_fuel
  | S fuel =>
      match f with
      | FUser name => modify (log (Called name this args))
      | FOnceG cell type =>
          call! _ := removeListener this type (Some f) in
          call! listener := get (fun w => mjoin (cells w !! cell)) in
          match listener with
          | Some l =>
              call! _ := apply fuel l this args in
              modify (set_cells (alter (fun _ => None) cell))
          | None => ret tt
          end
      | FWrapped _ self listener =>
          call! _ :=
            modify (wrapper_remove self
                      (fun _ listenerFunc => bool_decide (f = listenerFunc))
                      true) in
          apply fuel listener this args
      | FSubscribeDestroy wrapper array target =>
          modify (subscribe_destroy_listener wrapper array target)
      | FNative name =>
          if String.eqb name "__defineGetter__"
             || String.eqb name "__defineSetter__"
          then throw (TypeError
                        ("Object.prototype." +:+ name
                         +:+ ": Expecting function"))
          else ret tt
      end
  end.

(** What an unhandled 'error' event throws (lines 1624-1634). *)
Definition unhandled_error (args : list arg) : js_error :=
  match args with
  | AError error :: _ => error
  | AText context :: _ => JsError "Error" ("Error: " +:+ context) None
  | AComponent _ :: _ => JsError "Error" "Error: [object Object]" None
  | AUndefined :: _ | [] => JsError "Error" "Error: undefined" None
  end.

(** [EventEmitter.prototype.emit] (lines 1615-1651); [args] are the
    arguments after the type.  The result is [undefined], [false] or
    [true]. *)
Definition emit (fuel : nat) (ee : nat) (type : string) (args : list arg)
  : M (option bool) :=
  fun w =>
    match emitters w !! ee ≫= e_ with
    | None => (Ok None, w)
    | Some events =>
        match events_at events type with
        | Nothing =>
            if String.eqb type "error"
            then (Throw (unhandled_error args), w)
            else (Ok (Some false), w)
        | Listeners (One listener) =>
            (call! _ := apply fuel listener ee args in ret (Some true)) w
        | Listeners (Many listeners) =>
            (call! _ :=
               for_each (fun listener => apply fuel listener ee args)
                 listeners in
             ret (Some true)) w
        | ThePrototype => (Ok (Some true), w)
        end
    end.

(** ** Components *)

(** Writing to the fields of the component at reference [c]. *)
Definition modify_component (c : nat) (f : Component -> Component)
  (w : World) : World :=
  modify_emitter c (fun o => mkEmitter (e_ o) (option_map f (component o))) w.

Definition with_T_ (b : bool) (k : Component) : Component :=
  mkComponent (id k) b (K_ k) (L_ k) (M_ k) (O_ k) (H_ k) (m_ k) (methods k).

Definition with_K_ (r : option nat) (k : Component) : Component :=
  mkComponent (id k) (T_ k) r (L_ k) (M_ k) (O_ k) (H_ k) (m_ k) (methods k).

Definition with_L_ (t : option nat) (k : Component) : Component :=
  mkComponent (id k) (T_ k) (K_ k) t (M_ k) (O_ k) (H_ k) (m_ k) (methods k).

Definition with_M_ (h : option (list string)) (k : Component) : Component :=
  mkComponent (id k) (T_ k) (K_ k) (L_ k) h (O_ k) (H_ k) (m_ k) (methods k).

Definition with_O_ (o : option (gmap string CustomEvent)) (k : Component)
  : Component :=
  mkComponent (id k) (T_ k) (K_ k) (L_ k) (M_ k) o (H_ k) (m_ k) (methods k).

Definition with_m_ (m : gmap string nat) (k : Component) : Component :=
  mkComponent (id k) (T_ k) (K_ k) (L_ k) (M_ k) (O_ k) (H_ k) m (methods k).

(** The component at a reference; a reference to something else makes the
    caller read a property of [undefined]. *)
Definition the_component (c : nat) : M Component :=
  fun w =>
    match emitters w !! c ≫= component with
    | Some k => (Ok k, w)
    | None => (Throw (TypeError ""), w)
    end.

(** [component.subscribeTo(target)] (lines 3765-3775). *)
Definition subscribeTo (c : nat) (target : option nat) : M nat :=
  match target with
  | None => throw (TypeError "")
  | Some target' =>
      call! k := the_component c in
      call! subscriptions :=
        match L_ k with
        | Some t => ret t
        | None =>
            call! t := new_SubscriptionTracker in
            call! _ := modify (modify_component c (with_L_ (Some t))) in
            ret t
        end in
      call! is_component :=
        get (fun w => bool_decide
                        (is_Some (emitters w !! target' ≫= component))) in
      tracker_subscribeTo subscriptions target' is_component
  end.

(** [handleCustomEventWithMethodListener] (lines 3631-3646) for a method
    name. *)
Definition handleCustomEventWithMethodListener (c : nat)
  (targetMethodName : string) (args : list arg)
  (extraArgs : option (list arg)) : M unit :=
  call! k := the_component c in
  call! targetComponent :=
    get (fun w => H_ k ≫= (fun scope => componentLookup w !! scope)) in
  match targetComponent with
  | None => throw (TypeError "")
  | Some target =>
      call! t := the_component target in
      if bool_decide (targetMethodName ∈ methods t)
      then modify (log (Method target targetMethodName
                          (default [] extraArgs ++ args ++ [AComponent c])))
      else throw (JsError "Error"
                    ("Method not found: " +:+ targetMethodName) None)
  end.

(** [component.emit(eventType, ...)] (lines 3777-3796).  What the table
    of custom events inherits under [eventType] is truthy and has no
    elements: the method name is [undefined], which names the property
    "undefined" of the target component, and the entry is not deleted. *)
Definition component_emit (fuel : nat) (c : nat) (eventType : string)
  (args : list arg) : M (option bool) :=
  call! k := the_component c in
  call! _ :=
    match O_ k with
    | None => ret tt
    | Some customEvents =>
        match JsObject.read customEvents eventType with
        | JsObject.Own target =>
            call! _ :=
              handleCustomEventWithMethodListener c (targetMethodName target)
                args (extraArgs target) in
            if isOnce target
            then modify (modify_component c (fun k =>
                   with_O_ (option_map (JsObject.remove eventType) (O_ k)) k))
            else ret tt
        | JsObject.Inherited _ =>
            handleCustomEventWithMethodListener c "undefined" args None
        | JsObject.Missing => ret tt
        end
    end in
  call! count := get (listenerCount c eventType) in
  match count with
  | Some (S _) => emit fuel c eventType args
  | _ => ret None
  end.

(** [lifecycleEventMethods[eventType]] (lines 643-647). *)
Definition lifecycleEventMethods (eventType : string) : option string :=
  if String.eqb eventType "create" then Some "onCreate"
  else if String.eqb eventType "render" then Some "onRender"
  else if String.eqb eventType "update" then Some "onUpdate"
  else if String.eqb eventType "mount" then Some "onMount"
  else if String.eqb eventType "destroy" then Some "onDestroy"
  else None.

(** [emitLifecycleEvent(component, eventType, eventArg1, eventArg2)]
    (lines 663-671). *)
Definition emitLifecycleEvent (fuel : nat) (c : nat) (eventType : string)
  (eventArg1 eventArg2 : arg) : M unit :=
  call! k := the_component c in
  call! _ :=
    match lifecycleEventMethods eventType with
    | Some listenerMethod =>
        if bool_decide (listenerMethod ∈ methods k)
        then modify (log (Method c listenerMethod [eventArg1; eventArg2]))
        else ret tt
    | None => ret tt
    end in
  call! _ := component_emit fuel c eventType [eventArg1; eventArg2] in
  ret tt.

(** [component._b_()] (lines 4106-4112). *)
Definition _b_ (c : nat) : M unit :=
  call! k := the_component c in
  match M_ k with
  | Some eventListenerHandles =>
      call! _ :=
        for_each (fun h => modify (log (HandleCalled h)))
          eventListenerHandles in
      modify (modify_component c (with_M_ None))
  | None => ret tt
  end.

(** [component.___()] (lines 3873-3893); a [WeakMap] refuses the key
    [null]. *)
Definition ___ (fuel : nat) (c : nat) : M unit :=
  call! k := the_component c in
  if T_ k then ret tt
  else
    call! _ := emitLifecycleEvent fuel c "destroy" AUndefined AUndefined in
    call! _ := modify (modify_component c (with_T_ true)) in
    call! k := the_component c in
    call! _ :=
      match K_ k with
      | Some root => modify (set_componentsByFragment (delete root))
      | None => throw (TypeError "Invalid value used as weak map key")
      end in
    call! _ := modify (modify_component c (with_K_ None)) in
    call! _ := _b_ c in
    call! k := the_component c in
    match L_ k with
    | Some subscriptions =>
        call! _ :=
          modify (tracker_removeAllListeners subscriptions None None) in
        modify (modify_component c (with_L_ None))
    | None => ret tt
    end.

(** ** The DOM *)

(** The part of a list of children that starts at [node]. *)
Fixpoint from_node (node : nat) (children : list nat) : list nat :=
  match children with
  | [] => []
  | n :: rest => if Nat.eqb n node then children else from_node node rest
  end.

(** [node] and the siblings that [nextSibling] reaches from it. *)
Definition siblings_from (node : nat) (w : World) : list nat :=
  match nodes w !! node ≫= parentNode with
  | Some parent =>
      match nodes w !! parent with
      | Some p => from_node node (childNodes p)
      | None => [node]
      end
  | None => [node]
  end.

(** The loop of the getter [nodes] (lines 1035-1044) along the siblings,
    [current] being the head of the list; it reads a property of [null]
    when the siblings end before the end marker. *)
Fixpoint collect_nodes (endNode : nat) (siblings : list nat)
  : outcome (list nat) :=
  match siblings with
  | [] => Throw (TypeError "")
  | current :: rest =>
      if Nat.eqb current endNode then Ok [current]
      else let! nodes := collect_nodes endNode rest in Ok (current :: nodes)
  end.

(** [fragment.nodes]. *)
Definition fragment_nodes (root : nat) : M (list nat) :=
  fun w =>
    match fragments w !! root with
    | None => (Throw (TypeError ""), w)
    | Some f => (collect_nodes (endNode f) (siblings_from (startNode f) w), w)
    end.

(** [destroyComponentForNode(node)] (lines 674-680). *)
Definition destroyComponentForNode (fuel : nat) (node : nat) : M unit :=
  call! componentToDestroy :=
    get (fun w =>
           match nodes w !! node ≫= fragment with
           | Some f => componentsByFragment w !! f
           | None => componentsByNode w !! node
           end) in
  match componentToDestroy with
  | Some c =>
      call! _ := ___ fuel c in
      call! k := the_component c in
      modify (set_componentLookup (delete (id k)))
  | None => ret tt
  end.

(** [destroyNodeRecursive(node)] (lines 681-701), called without a
    component as [destroy] does; the nodes reached are DOM nodes, whose
    [endNode] is undefined, and nothing that runs meanwhile changes the
    DOM. *)
Fixpoint destroyNodeRecursive (fuel : nat) (node : nat) : M unit :=
  match fuel with
  | O => out_of_fuel
  | S fuel =>
      call! _ := destroyComponentForNode fuel node in
      call! n := get (fun w => nodes w !! node) in
      match n with
      | Some n =>
          if (nodeType n =? 1) || (nodeType n =? 12)
          then for_each (destroyNodeRecursive fuel) (childNodes n)
          else ret tt
      | None => throw (TypeError "")
      end
  end.

(** [node.parentNode.removeChild(node)]. *)
Definition removeChild (node : nat) : M unit :=
  fun w =>
    match nodes w !! node ≫= parentNode with
    | None => (Throw (TypeError ""), w)
    | Some parent =>
        (Ok tt,
         set_nodes
           (fun ns =>
              alter (fun n => mkNode (nodeType n) None (childNodes n)
                                (fragment n)) node
                (alter (fun p =>
                          mkNode (nodeType p) (parentNode p)
                            (List.filter (fun n => negb (Nat.eqb n node))
                               (childNodes p))
                            (fragment p)) parent ns)) w)
    end.

(** [component.destroy()] (lines 3848-3871); [eventDelegation._a_] is the
    function that returns nothing (lines 961-964), so every node is
    removed from its parent. *)
Definition destroy (fuel : nat) (c : nat) : M unit :=
  call! k := the_component c in
  if T_ k then ret tt
  else
    let root := K_ k in
    call! _ := ___ fuel c in
    match root with
    | None => throw (TypeError "")
    | Some root =>
        call! nodes := fragment_nodes root in
        call! _ :=
          for_each (fun node =>
            call! _ := destroyNodeRecursive fuel node in
            removeChild node) nodes in
        call! _ :=
          modify (set_fragments (alter (fun f =>
            mkFragment (startNode f) (endNode f) (detachedContainer f) true)
            root)) in
        call! k := the_component c in
        call! _ := modify (set_componentLookup (delete (id k))) in
        modify (modify_component c (with_m_ ∅))
    end.

(** ** Relations between the heaps before and after a call *)

(** If [m] returns from [w], its result and the heap it leaves satisfy
    [Q]. *)
Definition ensures {A} (m : M A) (w : World) (Q : A -> World -> Prop)
  : Prop :=
  match m w with
  | (Ok a, w') => Q a w'
  | _ => True
  end.

(** [m] leaves every heap in relation [R] with the heap it started in,
    whatever its outcome. *)
Definition respects {A} (R : relation World) (m : M A) : Prop :=
  forall w, R w (snd (m w)).

(** The component at a reference, if it is one. *)
Definition component_at (c : nat) (w : World) : option Component :=
  emitters w !! c ≫= component.

(** A component that was destroyed still is, with the same id, and what
    its destruction has cleared is still cleared. *)
Definition destroyed_for_good (c : nat) (w w' : World) : Prop :=
  forall k,
    component_at c w = Some k ->
    T_ k = true ->
    exists k',
      component_at c w' = Some k'
      /\ T_ k' = true
      /\ id k' = id k
      /\ (K_ k = None -> K_ k' = None)
      /\ (L_ k = None -> L_ k' = None)
      /\ (M_ k = None -> M_ k' = None).

(** Nothing was registered: the component lookup and the map from
    fragments to components have only lost entries, and every component is
    still one, with the same id. *)
Definition registers_nothing (w w' : World) : Prop :=
  componentLookup w' ⊆ componentLookup w
  /\ componentsByFragment w' ⊆ componentsByFragment w
  /\ componentsByNode w' = componentsByNode w
  /\ forall c k,
       component_at c w = Some k ->
       exists k', component_at c w' = Some k' /\ id k' = id k.

(** The DOM nodes are what they were. *)
Definition keeps_nodes (w w' : World) : Prop := nodes w' = nodes w.

(** The parent of a node. *)
Definition parent_of (node : nat) (w : World) : option nat :=
  nodes w !! node ≫= parentNode.

(** No node has got a parent, and no node has appeared or disappeared. *)
Definition detaches_only (w w' : World) : Prop :=
  length (nodes w') = length (nodes w)
  /\ forall node, parent_of node w = None -> parent_of node w' = None.

(** The fragments are what they were. *)
Definition keeps_fragments (w w' : World) : Prop :=
  fragments w' = fragments w.

(** A component is still one, and except for its custom events it is
    what it was. *)
Definition keeps_component (c : nat) (w w' : World) : Prop :=
  forall k,
    component_at c w = Some k ->
    exists k',
      component_at c w' = Some k'
      /\ id k' = id k /\ T_ k' = T_ k /\ K_ k' = K_ k /\ L_ k' = L_ k
      /\ M_ k' = M_ k /\ m_ k' = m_ k /\ methods k' = methods k.

(** The component lookup is what it was. *)
Definition keeps_lookup (w w' : World) : Prop :=
  componentLookup w' = componentLookup w.

(** What [___] has cleared of the component [k] when it returns. *)
Definition cleared (c : nat) (k : Component) (w1 : World) : Prop :=
  exists k1,
    component_at c w1 = Some k1
    /\ T_ k1 = true /\ id k1 = id k /\ K_ k1 = None /\ L_ k1 = None
    /\ M_ k1 = None.

(** What [destroy] has done to the component [k] when it returns. *)
Definition destroyed (c : nat) (k : Component) (w w' : World) : Prop :=
  exists root f ns k',
    K_ k = Some root
    /\ fragment_nodes root w = (Ok ns, w)
    /\ component_at c w' = Some k'
    /\ (T_ k' = true /\ id k' = id k /\ K_ k' = None /\ L_ k' = None
        /\ M_ k' = None /\ m_ k' = ∅)
    /\ componentLookup w' !! id k = None
    /\ componentsByFragment w' !! root = None
    /\ fragments w' !! root = Some f
    /\ detached f = true
    /\ forall n, n ∈ ns -> parent_of n w' = None.

(** A relation that tolerates every write that emitting an event and
    removing listeners make. *)
Class Listening (R : relation World) : Prop := {
  listening_preorder :: PreOrder R;
  listening_cells f w : R w (set_cells f w);
  listening_closures n w : R w (set_closures n w);
  listening_wrappers f w : R w (set_wrappers f w);
  listening_trackers f w : R w (set_trackers f w);
  listening_arrays f w : R w (set_arrays f w);
  listening_log e w : R w (log e w);
  listening_events ee g w :
    (forall o, component (g o) = component o) -> R w (modify_emitter ee g w);
  listening_O_ c g w : R w (modify_component c (fun k => with_O_ (g k) k) w)
}.

(** A relation that tolerates every write that the destruction of a
    component makes outside the DOM. *)
Class Steady (R : relation World) : Prop := {
  steady_listening :: Listening R;
  steady_componentsByFragment root w :
    R w (set_componentsByFragment (delete root) w);
  steady_componentLookup name w :
    R w (set_componentLookup (delete name) w);
  steady_T_ c w : R w (modify_component c (with_T_ true) w);
  steady_K_ c w : R w (modify_component c (with_K_ None) w);
  steady_L_ c w : R w (modify_component c (with_L_ None) w);
  steady_M_ c w : R w (modify_component c (with_M_ None) w);
  steady_m_ c w : R w (modify_component c (with_m_ ∅) w)
}.

(** A relation that tolerates the write of [removeChild]. *)
Class TouchesNodes (R : relation World) : Prop :=
  steady_nodes node parent w :
    R w (set_nodes
           (fun ns =>
              alter (fun n => mkNode (nodeType n) None (childNodes n)
                                (fragment n)) node
                (alter (fun p =>
                          mkNode (nodeType p) (parentNode p)
                            (List.filter (fun n => negb (Nat.eqb n node))
                               (childNodes p))
                            (fragment p)) parent ns)) w).

(** A relation that tolerates writes to the fragments. *)
Class TouchesFragments (R : relation World) : Prop :=
  steady_fragments f w : R w (set_fragments f w).

End Lifecycle.

(** ** Scenarios used as examples and counterexamples *)
Module Scenarios.
Import Loader.

(** A module whose factory requires a module that does not exist. *)
Definition broken_registry : registry :=
  define "/p/a" (DFactory [CRequire "./missing"]) empty_registry.

Definition broken_state : state :=
  set_reg (fun _ => broken_registry) initial_state.

(** The registry of the specification's example: package "foo" installed
    at version 2.0.0 for "app$1.0.0", with the empty main "index". *)
Definition installed_registry : registry :=
  registerInstalledDependency "app$1.0.0" "foo" "2.0.0"
    (define "/foo$2.0.0/index" (DValue (VString "installed"))
       (define "/foo-browser$0.0.0/index" (DValue (VString "builtin"))
          (registerMain "/foo$2.0.0" "" empty_registry))).

(** The same with "foo" also registered as a builtin. *)
Definition shadowing_registry : registry :=
  builtin "foo" "/foo-browser$0.0.0/index" installed_registry.

(** Registrations that could be chained: a main whose target is again a
    registered directory, a remap whose target is again remapped, and a
    file name with two extensions. *)
Definition chain_registry : registry :=
  registerMain "/a" "b"
    (registerMain "/a/b" "c"
       (remap "/x" "/y"
          (remap "/y" "/z"
             (define "/a/b" (DValue (VString "main once"))
                (define "/a/b/c" (DValue (VString "main twice"))
                   (define "/y" (DValue (VString "remap once"))
                      (define "/z" (DValue (VString "remap twice"))
                         (define "/m" (DValue (VString "m"))
                            (define "/m.a" (DValue (VString "m.a"))
                               empty_registry))))))))).

(** Two modules of one directory; the first requires the second. *)
Definition lib_registry : registry :=
  define "/pkg$1.0.0/lib/index" (DFactory [CExportsSetRequire "a" "./a"])
    (define "/pkg$1.0.0/lib/a" (DValue (VString "A")) empty_registry).

Definition lib_state : state :=
  set_reg (fun _ => lib_registry) initial_state.

(** Three entry points, the second of which starts an asynchronous job. *)
Definition gate_registry : registry :=
  define "/w" (DValue (VString "w"))
    (define "/x" (DFactory [CPending])
       (define "/z" (DValue (VString "z")) empty_registry)).

(** The page before it is ready, after [run("/w", {})], [run("/x")] and
    [run("/z")]. *)
Definition gate_state : state :=
  set_runQueue [("/w", Options None); ("/x", NoOptions); ("/z", NoOptions)]
    (set_reg (fun _ => gate_registry) initial_state).

(** Two modules that require each other. *)
Definition circular_registry : registry :=
  define "/p/a"
    (DFactory [CExportsSet "x" (VString "1");
               CExportsSetRequire "b" "./b";
               CExportsSet "y" (VString "2")])
    (define "/p/b" (DFactory [CExportsSetRequire "a" "./a"]) empty_registry).

Definition circular_state : state :=
  set_reg (fun _ => circular_registry) initial_state.

(** The same, except that the first module ends with
    [module.exports = {...}], as most modules of the bundle do. *)
Definition reassigning_registry : registry :=
  define "/p/a"
    (DFactory [CExportsSet "x" (VString "1");
               CExportsSetRequire "b" "./b";
               CModuleExportsNew])
    (define "/p/b" (DFactory [CExportsSetRequire "a" "./a"]) empty_registry).

Definition reassigning_state : state :=
  set_reg (fun _ => reassigning_registry) initial_state.




(** The counter with an [update_count] handler that leaves the state
    alone. *)
Definition handling : UpdateManager.Component :=
  UpdateManager.mkComponent
    (Some (UpdateManager.mkStateObj {["count" := "0"]} false None None None))
    false false false {["count" := []]} true true.

(** The counter without a renderer, after [setState("count", 1)]. *)
Definition rendererless_dirty : UpdateManager.World :=
  snd (UpdateManager.setState 0 "count" (Some "1")
         (UpdateManager.mkWorld false [] [] 0
            [UpdateManager.mkComponent
               (Some (UpdateManager.mkStateObj {["count" := "0"]} false None
                        None None))
               false false false ∅ true false] [])).

(** A component whose handler for "count" sets the state of a second
    component. *)
Definition forwarding : UpdateManager.Component :=
  UpdateManager.mkComponent
    (Some (UpdateManager.mkStateObj {["count" := "0"]} false None None None))
    false false false
    {["count" := [UpdateManager.ASetState 1 "x" (Some "9")]]} true true.

Definition receiver : UpdateManager.Component :=
  UpdateManager.mkComponent
    (Some (UpdateManager.mkStateObj ∅ false None None None))
    false false false ∅ true true.

Definition forwarding_world : UpdateManager.World :=
  UpdateManager.mkWorld false [] [] 0 [forwarding; receiver] [].

(** Two mounted components, each with a root fragment around one element
    of the page: nodes 1 to 3 for the first, 4 to 6 for the second. *)
Definition two_components : Lifecycle.World :=
  Lifecycle.mkWorld
    [Lifecycle.mkEmitter (Some ∅)
       (Some (Lifecycle.mkComponent "c0" false (Some 0%nat) None None None
                None ∅ ∅));
     Lifecycle.mkEmitter (Some ∅)
       (Some (Lifecycle.mkComponent "c1" false (Some 1%nat) None None None
                None ∅ ∅))]
    [] 0 [] [] []
    [Lifecycle.mkNode 1 None [1; 2; 3; 4; 5; 6]%nat None;
     Lifecycle.mkNode 3 (Some 0%nat) [] (Some 0%nat);
     Lifecycle.mkNode 1 (Some 0%nat) [] None;
     Lifecycle.mkNode 3 (Some 0%nat) [] (Some 0%nat);
     Lifecycle.mkNode 3 (Some 0%nat) [] (Some 1%nat);
     Lifecycle.mkNode 1 (Some 0%nat) [] None;
     Lifecycle.mkNode 3 (Some 0%nat) [] (Some 1%nat);
     Lifecycle.mkNode 11 None [] None;
     Lifecycle.mkNode 11 None [] None]
    [Lifecycle.mkFragment 1 3 7 false; Lifecycle.mkFragment 4 6 8 false]
    ∅ {[0%nat := 0%nat; 1%nat := 1%nat]}
    {["c0" := 0%nat; "c1" := 1%nat]} [].

(** A component that was created and registered, but never mounted. *)
Definition unmounted : Lifecycle.World :=
  Lifecycle.mkWorld
    [Lifecycle.mkEmitter (Some ∅)
       (Some (Lifecycle.mkComponent "c0" false None None None None None ∅
                ∅))]
    [] 0 [] [] [] [] [] ∅ ∅ {["c0" := 0%nat]} [].

(** The first component has subscribed to the second:
    [a.subscribeTo(b).once("change", f).on("tick", h)]. *)
Definition subscribed : Lifecycle.World :=
  snd (Lifecycle.bind (Lifecycle.subscribeTo 0 (Some 1%nat))
         (fun wrapper =>
            Lifecycle.bind
              (Lifecycle.wrapper_once wrapper "change" (Lifecycle.FUser "f"))
              (fun _ =>
                 Lifecycle.wrapper_on wrapper "tick" (Lifecycle.FUser "h")))
         two_components).

(** The page after [a.destroy()]. *)
Definition subscriber_destroyed : Lifecycle.World :=
  snd (Lifecycle.destroy 10 0 subscribed).

End Scenarios.

(** * Facts about path normalisation *)
Module PathFacts.
Import JsString Path PathSpec.

Lemma normalize_step_lookup parts len i part :
  parts !! i = Some part ->
  normalize_step (parts, len) i =
    if String.eqb part "." then (parts, len)
    else if String.eqb part ".." then (parts, len - 1)
    else (array_set parts len part, len + 1).
Proof. intros H. unfold normalize_step. now rewrite H. Qed.

Lemma drop_array_set parts len part (i : nat) :
  len <= Z.of_nat i ->
  drop (S i) (array_set parts len part) = drop (S i) parts.
Proof.
  intros Hle. unfold array_set.
  destruct (len <? 0) eqn:E; [reflexivity|].
  apply Z.ltb_ge in E. apply drop_insert_lt. lia.
Qed.

(** The counter of the loop is the plain difference between pushes and
    pops: nothing stops it at zero. *)
Lemma normalize_fold_len todo :
  forall (i : nat) parts len,
    drop i parts = todo ->
    len <= Z.of_nat i ->
    snd (fold_left normalize_step (seq i (length todo)) (parts, len))
    = len + net_segments todo.
Proof.
  induction todo as [|part rest IH]; intros i parts len Hdrop Hle;
    cbn [length seq fold_left net_segments snd].
  - lia.
  - assert (Hi : parts !! i = Some part).
    { rewrite <- (Nat.add_0_r i), <- lookup_drop, Hdrop. reflexivity. }
    assert (Hrest : drop (S i) parts = rest).
    { assert (H' := drop_S parts part i Hi). rewrite Hdrop in H'.
      now inversion H'. }
    rewrite (normalize_step_lookup _ _ _ _ Hi).
    destruct (String.eqb part ".").
    + rewrite IH by (auto; lia). lia.
    + destruct (String.eqb part "..").
      * rewrite IH by (auto; lia). lia.
      * rewrite IH; [lia | | lia].
        rewrite drop_array_set by lia. exact Hrest.
Qed.

Lemma normalize_loop_len parts :
  snd (normalize_loop parts) = net_segments parts.
Proof.
  unfold normalize_loop.
  rewrite (normalize_fold_len parts 0%nat parts 0); [lia | reflexivity | lia].
Qed.

Lemma removelast_take {A} (l : list A) :
  removelast l = take (length l - 1) l.
Proof.
  rewrite removelast_firstn_len. unfold take. f_equal. lia.
Qed.

Lemma length_removelast {A} (l : list A) :
  length (removelast l) = (length l - 1)%nat.
Proof. rewrite removelast_take, length_take. lia. Qed.

(** The in-place loop computes the stack of the specification as long as
    no ".." is read on an empty stack. *)
Lemma normalize_fold_spec todo :
  forall (i : nat) parts stack,
    drop i parts = todo ->
    take (length stack) parts = stack ->
    (length stack <= i)%nat ->
    has_ancestors (length stack) todo = true ->
    exists parts',
      fold_left normalize_step (seq i (length todo))
        (parts, Z.of_nat (length stack))
      = (parts', Z.of_nat (length (spec_segments todo stack)))
      /\ take (length (spec_segments todo stack)) parts'
         = spec_segments todo stack.
Proof.
  induction todo as [|part rest IH]; intros i parts stack Hdrop Htake Hle Hanc;
    cbn [length seq fold_left spec_segments has_ancestors] in *.
  - exists parts. split; [reflexivity | exact Htake].
  - assert (Hi : parts !! i = Some part).
    { rewrite <- (Nat.add_0_r i), <- lookup_drop, Hdrop. reflexivity. }
    assert (Hrest : drop (S i) parts = rest).
    { assert (H' := drop_S parts part i Hi). rewrite Hdrop in H'.
      now inversion H'. }
    assert (Hlen : (i < length parts)%nat) by (eapply lookup_lt_Some; eauto).
    rewrite (normalize_step_lookup _ _ _ _ Hi).
    destruct (String.eqb part ".").
    + apply IH; auto.
    + destruct (String.eqb part "..").
      * apply andb_true_iff in Hanc as [Hpos Hanc].
        apply Nat.ltb_lt in Hpos.
        replace (Z.of_nat (length stack) - 1)
          with (Z.of_nat (length (removelast stack)))
          by (rewrite length_removelast; lia).
        apply IH; auto.
        -- rewrite length_removelast, removelast_take.
           rewrite <- Htake at 3. rewrite take_take.
           f_equal. lia.
        -- rewrite length_removelast. lia.
        -- now rewrite length_removelast.
      * replace (Z.of_nat (length stack) + 1)
          with (Z.of_nat (length (stack ++ [part])))
          by (rewrite length_app; simpl; lia).
        apply IH.
        -- rewrite drop_array_set by lia. exact Hrest.
        -- unfold array_set.
           destruct (Z.of_nat (length stack) <? 0) eqn:E;
             [apply Z.ltb_lt in E; lia|].
           rewrite Nat2Z.id, length_app. simpl.
           rewrite Nat.add_1_r.
           rewrite (take_S_r _ _ part)
             by (apply list_lookup_insert_eq; lia).
           rewrite take_insert_ge by lia. now rewrite Htake.
        -- rewrite length_app. simpl. lia.
        -- rewrite length_app. simpl. now rewrite Nat.add_1_r.
Qed.

Lemma len_zero_iff s : (len s =? 0) = String.eqb s "".
Proof. destruct s; reflexivity. Qed.

Lemma last_take_lookup {A} (l : list A) (n : nat) :
  (0 < n <= length l)%nat -> last (take n l) = l !! (n - 1)%nat.
Proof.
  intros H. rewrite last_lookup, length_take.
  rewrite Nat.min_l by lia.
  rewrite lookup_take_lt by lia. f_equal. lia.
Qed.

(** Reading on top of a longer stack: the segments below stay. *)
Lemma spec_segments_below pre todo : forall stack,
  has_ancestors (length stack) todo = true ->
  spec_segments todo (pre ++ stack) = pre ++ spec_segments todo stack.
Proof.
  induction todo as [|part rest IH]; intros stack Hanc;
    cbn [spec_segments has_ancestors] in *; [reflexivity|].
  destruct (String.eqb part "."); [now apply IH|].
  destruct (String.eqb part "..").
  - apply andb_true_iff in Hanc as [Hpos Hanc]. apply Nat.ltb_lt in Hpos.
    destruct stack as [|x stack _] using rev_ind; [simpl in Hpos; lia|].
    rewrite app_assoc, !removelast_last. apply IH.
    rewrite length_app in Hanc. simpl in Hanc.
    now replace (length stack + 1 - 1)%nat with (length stack) in Hanc by lia.
  - rewrite <- app_assoc. apply IH. rewrite length_app. simpl.
    now rewrite Nat.add_1_r.
Qed.

Lemma has_ancestors_deeper todo : forall depth extra,
  has_ancestors depth todo = true ->
  has_ancestors (depth + extra) todo = true.
Proof.
  induction todo as [|part rest IH]; intros depth extra Hanc;
    cbn [has_ancestors] in *; [reflexivity|].
  destruct (String.eqb part "."); [now apply IH|].
  destruct (String.eqb part "..").
  - apply andb_true_iff in Hanc as [Hpos Hanc]. apply Nat.ltb_lt in Hpos.
    apply andb_true_iff. split; [apply Nat.ltb_lt; lia|].
    replace (depth + extra - 1)%nat with (depth - 1 + extra)%nat by lia.
    now apply IH.
  - now apply (IH (S depth) extra).
Qed.

Lemma join_cons (s : string) (l : list string) :
  l <> [] -> JsString.join "/" (s :: l) = s +:+ "/" +:+ JsString.join "/" l.
Proof. destruct l; [congruence | reflexivity]. Qed.

(** Refinement: on the parts of an absolute path whose ".." never meet
    the root, [normalizePathParts] returns the absolute path of the
    segments that are left, the last one dropped when it is empty and
    another one precedes it. *)
Lemma normalizePathParts_spec segs :
  has_ancestors 0 segs = true ->
  normalizePathParts ("" :: segs)
  = Ok (spec_path (drop_last_empty (spec_segments segs []))).
Proof.
  intros Hanc.
  set (parts := "" :: segs).
  destruct (normalize_fold_spec segs 1%nat parts [""])
    as (parts' & Hloop & Htake); auto.
  { apply (has_ancestors_deeper segs 0 1 Hanc). }
  pose proof (spec_segments_below [""] segs [] Hanc) as Hbelow.
  cbn [app] in Hbelow. rewrite Hbelow in Hloop, Htake.
  set (T := spec_segments segs []) in *.
  unfold normalizePathParts, normalize_loop.
  change (seq 0 (length parts)) with (0%nat :: seq 1 (length segs)).
  cbn [fold_left]. change (normalize_step (parts, 0) 0) with (parts, 1).
  change (Z.of_nat (length [""])) with 1 in Hloop. rewrite Hloop.
  cbn [length] in *.
  assert (Hbound : (S (length T) <= length parts')%nat).
  { pose proof (f_equal (@length string) Htake) as Hl.
    rewrite length_take in Hl. cbn [length] in Hl. lia. }
  destruct T as [|t0 T'] eqn:HT.
  { reflexivity. }
  set (n := S (length (t0 :: T'))) in *.
  assert (Hn : (2 <= n)%nat) by (subst n; simpl; lia).
  destruct (Z.of_nat n =? 1) eqn:E1; [apply Z.eqb_eq in E1; lia|].
  assert (Hlast : parts' !! (n - 1)%nat = last (t0 :: T')).
  { rewrite <- (last_cons_cons "" t0 T') at 1. rewrite <- Htake.
    rewrite last_take_lookup by (subst n; simpl in *; lia). reflexivity. }
  unfold spec_path, drop_last_empty.
  replace (Z.to_nat (Z.of_nat n - 1)) with (n - 1)%nat by lia.
  rewrite Hlast.
  assert (Hsome : is_Some (last (t0 :: T'))).
  { rewrite last_is_Some. discriminate. }
  destruct Hsome as [l Hl]. rewrite Hl.
  assert (Hlen : length (t0 :: T') = (n - 1)%nat) by (subst n; simpl; lia).
  rewrite Hlen.
  destruct (Z.of_nat n >? 2) eqn:E2.
  - assert ((1 <? n - 1)%nat = true) as -> by (apply Nat.ltb_lt; lia).
    rewrite len_zero_iff. cbn [andb].
    destruct (String.eqb l "") eqn:El.
    + assert ((Z.of_nat n - 1 <? 0) = false) as -> by lia.
      replace (Z.to_nat (Z.of_nat n - 1)) with (n - 1)%nat by lia.
      assert (Htake' : take (n - 1) parts' = "" :: removelast (t0 :: T')).
      { replace (n - 1)%nat with (length ("" :: removelast (t0 :: T')))
          by (cbn [length]; rewrite length_removelast; lia).
        change ("" :: removelast (t0 :: T'))
          with (removelast ("" :: t0 :: T')).
        rewrite <- Htake, removelast_take, take_take, length_take.
        f_equal. subst n. simpl in *. lia. }
      rewrite Htake'. rewrite join_cons.
      * reflexivity.
      * intros Hnil. apply (f_equal (@length string)) in Hnil.
        rewrite length_removelast, Hlen in Hnil. cbn [length] in Hnil. lia.
    + assert ((Z.of_nat n <? 0) = false) as -> by lia.
      rewrite Nat2Z.id. fold n in Htake. rewrite Htake.
      now rewrite join_cons by discriminate.
  - assert ((1 <? n - 1)%nat = false) as -> by (apply Nat.ltb_ge; lia).
    assert ((Z.of_nat n <? 0) = false) as -> by lia.
    cbn [andb]. rewrite Nat2Z.id. fold n in Htake. rewrite Htake.
    now rewrite join_cons by discriminate.
Qed.

(** With at most one empty segment at the end, dropping the last one is
    collapsing them all, as far as the path shows. *)
Lemma drop_last_is_collapse segs :
  (trailing_empties segs <= 1)%nat ->
  spec_path (drop_last_empty segs) = spec_path (collapse_trailing_empty segs).
Proof.
  unfold trailing_empties.
  induction segs as [|x segs _] using rev_ind; [reflexivity|].
  assert (Hcollapse : forall l y,
    collapse_trailing_empty (l ++ [y])
    = if String.eqb y "" then collapse_trailing_empty l else l ++ [y]).
  { induction l as [|z l IHl]; intros y.
    - cbn. now destruct (String.eqb y "").
    - cbn [app collapse_trailing_empty]. rewrite IHl.
      destruct (String.eqb_spec y "") as [->|Hy]; [reflexivity|].
      destruct (l ++ [y]) eqn:E; [now destruct l|reflexivity]. }
  assert (Hshort : forall l, (length (collapse_trailing_empty l) <= length l)%nat).
  { induction l as [|z l IHl]; [simpl; lia|].
    cbn [collapse_trailing_empty length].
    destruct (collapse_trailing_empty l); [|simpl in *; lia].
    destruct (String.eqb z ""); simpl; lia. }
  rewrite Hcollapse. unfold drop_last_empty. rewrite last_snoc, length_app.
  cbn [length]. intros Hle.
  destruct (String.eqb_spec x "") as [->|Hx].
  - destruct segs as [|y segs _] using rev_ind; [reflexivity|].
    assert ((1 <? length (segs ++ [y]) + 1)%nat = true) as ->
      by (apply Nat.ltb_lt; rewrite length_app; simpl; lia).
    cbn [andb]. rewrite removelast_last.
    rewrite Hcollapse in Hle |- *.
    destruct (String.eqb_spec y "") as [->|Hy]; [|reflexivity].
    pose proof (Hshort segs). rewrite length_app in Hle. simpl in Hle. lia.
  - now rewrite andb_false_r.
Qed.

(** No clamping: a negative counter makes the truncation throw. *)
Lemma normalizePathParts_negative parts :
  net_segments parts < 0 ->
  normalizePathParts parts = Throw RangeError_invalid_array_length.
Proof.
  intros Hneg. unfold normalizePathParts.
  pose proof (normalize_loop_len parts) as Hlen.
  destruct (normalize_loop parts) as [parts' n]. simpl in Hlen. subst n.
  destruct (net_segments parts =? 1) eqn:E1; [lia|].
  destruct (net_segments parts >? 2) eqn:E2; [lia|].
  destruct (net_segments parts <? 0) eqn:E3; [reflexivity|lia].
Qed.

(** ... and a counter back at zero leaves the empty string. *)
Lemma normalizePathParts_zero parts :
  net_segments parts = 0 ->
  normalizePathParts parts = Ok "".
Proof.
  intros Hz. unfold normalizePathParts.
  pose proof (normalize_loop_len parts) as Hlen.
  destruct (normalize_loop parts) as [parts' n]. simpl in Hlen. subst n.
  rewrite Hz. reflexivity.
Qed.

End PathFacts.

(** * Facts about the string primitives *)
Module JsStringFacts.
Import JsString.

Lemma app_cons c a b : String c a +:+ b = String c (a +:+ b).
Proof. reflexivity. Qed.

Lemma app_nil_l b : "" +:+ b = b.
Proof. reflexivity. Qed.

Lemma drop_chars_app a b : drop_chars (String.length a) (a +:+ b) = b.
Proof. induction a; rewrite ?app_cons, ?app_nil_l; simpl; auto. Qed.

Lemma take_chars_app a b : take_chars (String.length a) (a +:+ b) = a.
Proof.
  induction a; rewrite ?app_cons, ?app_nil_l; simpl;
    [now destruct b | now f_equal].
Qed.

Lemma take_chars_all a : take_chars (String.length a) a = a.
Proof. induction a; simpl; [reflexivity | now f_equal]. Qed.

Lemma app_empty_r a : a +:+ "" = a.
Proof. induction a; rewrite ?app_cons; [reflexivity | now f_equal]. Qed.

Lemma length_append a b :
  String.length (a +:+ b) = (String.length a + String.length b)%nat.
Proof.
  induction a; rewrite ?app_cons, ?app_nil_l; simpl; [reflexivity | now f_equal].
Qed.

Lemma len_app a b : len (a +:+ b) = len a + len b.
Proof. unfold len. rewrite length_append. lia. Qed.

Lemma len_nonneg a : 0 <= len a.
Proof. unfold len. lia. Qed.

Lemma clamp_0 s : clamp s 0 = 0%nat.
Proof. unfold clamp. pose proof (len_nonneg s). lia. Qed.

Lemma clamp_inside s i : 0 <= i <= len s -> clamp s i = Z.to_nat i.
Proof. unfold clamp. lia. Qed.

Lemma find_char_shift c s : forall i j,
  find_char c s i = None -> find_char c s j = None.
Proof.
  induction s as [|x s IH]; simpl; intros i j H; [reflexivity|].
  destruct (Ascii.eqb x c); [discriminate|]. eapply IH, H.
Qed.

Lemma lacks_indexOf c s : indexOf s c 0 = -1 -> lacks c s.
Proof.
  unfold indexOf. rewrite clamp_0. simpl. intros H i.
  destruct (find_char c s 0) eqn:E; [lia|].
  eapply find_char_shift, E.
Qed.

Lemma lacks_cons c x s :
  lacks c (String x s) -> Ascii.eqb x c = false /\ lacks c s.
Proof.
  intros H. pose proof (H 0%nat) as H0. simpl in H0.
  destruct (Ascii.eqb x c) eqn:E; [discriminate|]. split; [reflexivity|].
  intros i. eapply find_char_shift, H0.
Qed.

Lemma find_char_app_hit c a b i :
  lacks c a -> find_char c (a +:+ String c b) i = Some (i + String.length a)%nat.
Proof.
  revert i. induction a as [|x a IH]; intros i H;
    rewrite ?app_cons, ?app_nil_l; simpl.
  - rewrite Ascii.eqb_refl. f_equal. lia.
  - apply lacks_cons in H as [-> H]. rewrite IH by assumption. f_equal. lia.
Qed.

Lemma find_char_lacks c a i : lacks c a -> find_char c a i = None.
Proof. intros H. apply H. Qed.

(** [indexOf] finds the first separator after a separator-free prefix. *)
Lemma indexOf_app_hit c a b :
  lacks c a -> indexOf (a +:+ String c b) c 0 = len a.
Proof.
  intros H. unfold indexOf. rewrite clamp_0. simpl.
  rewrite find_char_app_hit by assumption. unfold len. lia.
Qed.

Lemma indexOf_lacks c a : lacks c a -> indexOf a c 0 = -1.
Proof.
  intros H. unfold indexOf. rewrite clamp_0. simpl. now rewrite H.
Qed.

(** ... and, started behind a prefix, the first one after that prefix. *)
Lemma indexOf_skip_prefix c p a b :
  lacks c a ->
  indexOf (p +:+ a +:+ String c b) c (len p) = len p + len a.
Proof.
  intros H. unfold indexOf.
  rewrite clamp_inside
    by (rewrite len_app; pose proof (len_nonneg p);
        pose proof (len_nonneg (a +:+ String c b)); lia).
  unfold len at 1. rewrite Nat2Z.id, drop_chars_app.
  rewrite find_char_app_hit by assumption. unfold len. lia.
Qed.

Lemma indexOf_skip_prefix_lacks c p a :
  lacks c a -> indexOf (p +:+ a) c (len p) = -1.
Proof.
  intros H. unfold indexOf.
  rewrite clamp_inside
    by (rewrite len_app; pose proof (len_nonneg p);
        pose proof (len_nonneg a); lia).
  unfold len at 1. rewrite Nat2Z.id, drop_chars_app. now rewrite H.
Qed.

Lemma substring_inside s a b :
  0 <= a <= b -> b <= len s ->
  substring s a b
  = take_chars (Z.to_nat (b - a)) (drop_chars (Z.to_nat a) s).
Proof.
  intros Hab Hb. unfold substring.
  rewrite !clamp_inside by lia.
  replace (Nat.min (Z.to_nat a) (Z.to_nat b)) with (Z.to_nat a) by lia.
  replace (Nat.max (Z.to_nat a) (Z.to_nat b)) with (Z.to_nat b) by lia.
  f_equal. lia.
Qed.

Lemma substring_prefix a b : substring (a +:+ b) 0 (len a) = a.
Proof.
  pose proof (len_nonneg a). pose proof (len_nonneg b).
  rewrite substring_inside by (rewrite ?len_app; lia).
  rewrite Z.sub_0_r. unfold len. rewrite Nat2Z.id. simpl.
  apply take_chars_app.
Qed.

Lemma substring_from_suffix a b : substring_from (a +:+ b) (len a) = b.
Proof.
  pose proof (len_nonneg a). pose proof (len_nonneg b).
  unfold substring_from.
  rewrite substring_inside by (rewrite ?len_app; lia).
  rewrite len_app.
  replace (Z.to_nat (len a)) with (String.length a) by (unfold len; lia).
  replace (Z.to_nat (len a + len b - len a)) with (String.length b)
    by (unfold len; lia).
  rewrite drop_chars_app. apply take_chars_all.
Qed.

Lemma substring_whole a : substring a 0 (len a) = a.
Proof.
  rewrite <- (app_empty_r a) at 1. apply substring_prefix.
Qed.

Lemma substring_from_end a : substring_from a (len a) = "".
Proof.
  rewrite <- (app_empty_r a) at 1. apply substring_from_suffix.
Qed.

Lemma app_assoc a b c : (a +:+ b) +:+ c = a +:+ b +:+ c.
Proof. induction a; rewrite ?app_cons; [reflexivity | now f_equal]. Qed.

Lemma truthy_false_iff s : truthy s = false <-> s = "".
Proof. unfold truthy. destruct s; simpl; split; congruence. Qed.

End JsStringFacts.

(** * Facts about resolution *)
Module ResolveFacts.
Import JsString Path PathSpec Loader JsStringFacts PathFacts.

Lemma substring_from_1 c s : substring_from (String c s) 1 = s.
Proof. apply (substring_from_suffix (String c "") s). Qed.

Lemma is_subpath_cases sub :
  is_subpath sub -> sub = "" \/ exists rest, sub = String "/" rest.
Proof. auto. Qed.

(** A bare target of either shape is split into its package name and its
    subpath. *)
Lemma split_target_shape target name sub :
  target_shape target name sub -> split_target target = (name, sub).
Proof.
  intros [n s Hn Hat [->|[rest ->]] | scope pkg rest Hs Hp];
    unfold split_target.
  - rewrite app_empty_r, indexOf_lacks by assumption. reflexivity.
  - rewrite indexOf_app_hit by assumption.
    pose proof (len_nonneg n).
    destruct (len n <? 0) eqn:E; [lia|].
    assert (Hc : charAt (n +:+ String "/" rest) 0 = charAt n 0
                 \/ n = "").
    { destruct n; [now right | now left]. }
    destruct Hc as [->| ->].
    + rewrite Hat. now rewrite substring_prefix, substring_from_suffix.
    + change (charAt ("" +:+ String "/" rest) 0) with "/".
      cbn [String.eqb Ascii.eqb Bool.eqb].
      now rewrite substring_prefix, substring_from_suffix.
  - assert (Hfirst : indexOf ("@" +:+ scope +:+ "/" +:+ pkg +:+ String "/" rest)
                       "/" 0 = len ("@" +:+ scope)).
    { rewrite <- (app_assoc "@" scope). 
      change ("/" +:+ pkg +:+ String "/" rest)
        with (String "/" (pkg +:+ String "/" rest)).
      apply indexOf_app_hit.
      intros i. change ("@" +:+ scope) with (String "@" scope). simpl.
      apply Hs. }
    rewrite Hfirst.
    pose proof (len_nonneg ("@" +:+ scope)).
    destruct (len ("@" +:+ scope) <? 0) eqn:E; [lia|].
    change (charAt ("@" +:+ scope +:+ "/" +:+ pkg +:+ String "/" rest) 0)
      with "@". cbn [String.eqb Ascii.eqb Bool.eqb].
    replace ("@" +:+ scope +:+ "/" +:+ pkg +:+ String "/" rest)
      with (("@" +:+ scope +:+ "/") +:+ pkg +:+ String "/" rest)
      by (now rewrite !app_assoc).
    replace (len ("@" +:+ scope) + 1) with (len ("@" +:+ scope +:+ "/"))
      by (rewrite <- (app_assoc "@" scope), len_app; reflexivity).
    rewrite indexOf_skip_prefix by assumption.
    rewrite <- len_app, <- app_assoc.
    rewrite substring_prefix, substring_from_suffix.
    now rewrite !app_assoc.
Qed.

(** The package identifier of a requesting path is its first segment. *)
Lemma splitPackageIdAndSubpath_shape from pkg rest :
  from_shape from pkg rest ->
  splitPackageIdAndSubpath from = (pkg, rest).
Proof.
  intros (-> & Hpkg & Hsub & _ & Hat). unfold splitPackageIdAndSubpath.
  rewrite substring_from_1.
  assert (Hc : charAt (pkg +:+ rest) 1
               = charAt (String "/" (pkg +:+ rest)) 2).
  { unfold charAt. simpl. reflexivity. }
  rewrite Hc, Hat.
  destruct Hsub as [->|[rest' ->]].
  - rewrite app_empty_r, indexOf_lacks by assumption.
    cbn [Z.eqb]. now rewrite substring_whole, substring_from_end.
  - rewrite indexOf_app_hit by assumption.
    pose proof (len_nonneg pkg).
    destruct (len pkg =? -1) eqn:E; [lia|].
    now rewrite substring_prefix, substring_from_suffix.
Qed.

(** A truthy builtin entry wins over everything [resolveInstalledModule]
    would otherwise compute. *)
Lemma resolveInstalledModule_builtin r target from :
  truthy_entry (JsObject.read (builtins r) (strip_trailing_slash target))
  = true ->
  resolveInstalledModule r target from
  = JsObject.read (builtins r) (strip_trailing_slash target).
Proof. intros H. unfold resolveInstalledModule. now rewrite H. Qed.

(** Without a builtin entry the installed version is spliced in. *)
Lemma resolveInstalledModule_installed r target from pkg rest name sub v :
  truthy_entry (JsObject.read (builtins r) (strip_trailing_slash target))
  = false ->
  from_shape from pkg rest ->
  target_shape (strip_trailing_slash target) name sub ->
  installed r !! (pkg +:+ "/" +:+ name) = Some v ->
  truthy v = true ->
  resolveInstalledModule r target from
  = JsObject.Own ("/" +:+ name +:+ "$" +:+ v +:+ sub).
Proof.
  intros Hb Hfrom Htarget Hinst Hv. unfold resolveInstalledModule.
  rewrite Hb, (splitPackageIdAndSubpath_shape _ _ _ Hfrom).
  rewrite (split_target_shape _ _ _ Htarget). cbn [fst].
  rewrite Hinst, Hv. f_equal.
  destruct (truthy sub) eqn:E.
  - now rewrite !app_assoc.
  - apply truthy_false_iff in E. subst sub. now rewrite app_empty_r.
Qed.

Lemma resolveInstalledModule_not_installed r target from name sub :
  truthy_entry (JsObject.read (builtins r) (strip_trailing_slash target))
  = false ->
  split_target (strip_trailing_slash target) = (name, sub) ->
  truthy_own
    (installed r !! (fst (splitPackageIdAndSubpath from) +:+ "/" +:+ name))
  = false ->
  resolveInstalledModule r target from = JsObject.Missing.
Proof.
  intros Hb Hsplit Hinst. unfold resolveInstalledModule.
  rewrite Hb, Hsplit.
  destruct (installed r !! _) as [v|]; [|reflexivity].
  simpl in Hinst. now rewrite Hinst.
Qed.

(** The name of a member of [Object.prototype] that is not registered
    as a builtin finds the member. *)
Lemma resolveInstalledModule_inherited r target from :
  JsObject.read (builtins r) (strip_trailing_slash target)
  = JsObject.Inherited (strip_trailing_slash target) ->
  resolveInstalledModule r target from
  = JsObject.Inherited (strip_trailing_slash target).
Proof. intros H. unfold resolveInstalledModule. now rewrite H. Qed.

(** The search-path loop returns the first hit ... *)
Lemma search_loop_first_hit rec pre sp post target otherwise found :
  Forall (fun p => rec (p +:+ target) = Ok None) pre ->
  rec (sp +:+ target) = Ok (Some found) ->
  search_loop rec (pre ++ sp :: post) target otherwise = Ok (Some found).
Proof.
  induction 1 as [|p pre Hp _ IH]; intros Hsp; simpl.
  - now rewrite Hsp.
  - rewrite Hp. simpl. now apply IH.
Qed.

(** ... and falls through when no prefix resolves. *)
Lemma search_loop_no_hit rec paths target otherwise :
  Forall (fun p => rec (p +:+ target) = Ok None) paths ->
  search_loop rec paths target otherwise = otherwise.
Proof.
  induction 1 as [|p paths Hp _ IH]; simpl; [reflexivity|].
  rewrite Hp. simpl. exact IH.
Qed.

Lemma resolve_relative fuel r target from :
  String.eqb (charAt target 0) "." = true ->
  resolve (S fuel) r target from
  = obind (Path.join from target) (fun p => resolve_tail r (JsObject.Own p)).
Proof. intros H. simpl. now rewrite H. Qed.

Lemma resolve_absolute fuel r target from :
  String.eqb (charAt target 0) "/" = true ->
  resolve (S fuel) r target from
  = obind (normalizePathParts (split "/" target))
      (fun p => resolve_tail r (JsObject.Own p)).
Proof.
  intros H. simpl.
  destruct (String.eqb (charAt target 0) ".") eqn:E.
  - apply String.eqb_eq in E, H. congruence.
  - now rewrite H.
Qed.

Lemma resolve_bare fuel r target from :
  String.eqb (charAt target 0) "." = false ->
  String.eqb (charAt target 0) "/" = false ->
  resolve (S fuel) r target from
  = search_loop (fun candidate => resolve fuel r candidate from)
      (searchPaths r) target
      (resolve_tail r (resolveInstalledModule r target from)).
Proof. intros H1 H2. simpl. now rewrite H1, H2. Qed.

(** A bare target that names a member of [Object.prototype], is not
    registered as a builtin and is found under no search path: the member
    is taken for the path, and the resolution throws a TypeError. *)
Lemma resolve_prototype_member fuel r target from :
  String.eqb (charAt target 0) "." = false ->
  String.eqb (charAt target 0) "/" = false ->
  Forall (fun p => resolve fuel r (p +:+ target) from = Ok None)
    (searchPaths r) ->
  JsObject.inherits (strip_trailing_slash target) = true ->
  builtins r !! strip_trailing_slash target = None ->
  resolve (S fuel) r target from
  = Throw (TypeError "path.lastIndexOf is not a function").
Proof.
  intros Hdot Hslash Hsearch Hinh Hown.
  rewrite resolve_bare, search_loop_no_hit by assumption.
  rewrite (resolveInstalledModule_inherited r target from); [reflexivity|].
  unfold JsObject.read. now rewrite Hown, Hinh.
Qed.

(** [resolve_tail] is the three-step pipeline of the specification. *)
Lemma resolve_tail_spec r candidate :
  truthy candidate = true ->
  resolve_tail r (JsObject.Own candidate) = resolve_candidate_spec r candidate.
Proof.
  intros Hc. unfold resolve_tail, resolve_candidate_spec, main_substitution.
  rewrite Hc. cbn [negb].
  assert (Hidx : forall rel,
    (if negb (truthy rel) then "index" else rel)
    = (if String.eqb rel "" then "index" else rel)).
  { intros rel. unfold truthy. now destruct (String.eqb rel ""). }
  destruct (mains r !! candidate) as [rel|].
  - rewrite Hidx. destruct (Path.join candidate _) as [p| |]; simpl; auto.
    unfold lookup_exact_then_stripped, remap_substitution.
    destruct (lookup_definition r _); [reflexivity|].
    destruct (withoutExtension _); [|reflexivity].
    now destruct (lookup_definition r _).
  - simpl. unfold lookup_exact_then_stripped, remap_substitution.
    destruct (lookup_definition r _); [reflexivity|].
    destruct (withoutExtension _); [|reflexivity].
    now destruct (lookup_definition r _).
Qed.

Lemma resolve_tail_falsy r candidate :
  truthy candidate = false ->
  resolve_tail r (JsObject.Own candidate) = Ok None.
Proof. intros H. unfold resolve_tail. now rewrite H. Qed.

(** Whatever [resolve_tail] returns is registered under the returned path. *)
Lemma resolve_tail_sound r candidate p d :
  resolve_tail r candidate = Ok (Some (p, d)) ->
  lookup_definition r p = Some d.
Proof.
  unfold resolve_tail. destruct candidate as [c| |]; try discriminate.
  destruct (negb (truthy c)); [discriminate|].
  destruct (match mains r !! c with Some _ => _ | None => _ end)
    as [c1| |]; simpl; try discriminate.
  set (c2 := match remapped r !! c1 with Some _ => _ | None => _ end).
  destruct (lookup_definition r c2) eqn:E1.
  - intros [= <- <-]. exact E1.
  - destruct (withoutExtension c2) as [c3|]; [|discriminate].
    destruct (lookup_definition r c3) eqn:E2; [|discriminate].
    intros [= <- <-]. exact E2.
Qed.

Lemma search_loop_sound (P : string * definition -> Prop) rec paths target
  otherwise found :
  (forall c x, rec c = Ok (Some x) -> P x) ->
  (otherwise = Ok (Some found) -> P found) ->
  search_loop rec paths target otherwise = Ok (Some found) -> P found.
Proof.
  intros Hrec Hother. induction paths as [|p paths IH]; simpl; [exact Hother|].
  destruct (rec (p +:+ target)) as [[x|]| |] eqn:E; simpl; try discriminate.
  - intros [= <-]. eapply Hrec, E.
  - exact IH.
Qed.

(** [resolve] only ever returns a registered definition. *)
Lemma resolve_sound fuel r : forall target from p d,
  resolve fuel r target from = Ok (Some (p, d)) ->
  lookup_definition r p = Some d.
Proof.
  induction fuel as [|fuel IH]; intros target from p d; [discriminate|].
  destruct (String.eqb (charAt target 0) ".") eqn:E1.
  - rewrite resolve_relative by assumption.
    destruct (Path.join from target); cbn [obind]; try discriminate.
    apply resolve_tail_sound.
  - destruct (String.eqb (charAt target 0) "/") eqn:E2.
    + rewrite resolve_absolute by assumption.
      destruct (normalizePathParts _); cbn [obind]; try discriminate.
      apply resolve_tail_sound.
    + rewrite resolve_bare by assumption.
      apply (search_loop_sound
               (fun x => lookup_definition r (fst x) = Some (snd x))).
      * intros c [p' d'] H. eapply IH, H.
      * apply resolve_tail_sound.
Qed.

End ResolveFacts.

(** * Facts about instantiation *)
Module LoaderFacts.
Import JsString Path Loader JsStringFacts ResolveFacts.

(** ** Computations that respect a relation on states *)

Section Respect.
Context (R : relation state) `{!Tolerant R}.

Lemma respects_ret {A} (a : A) : respects R (ret a).
Proof. intros st. reflexivity. Qed.

Lemma respects_throw {A} e : respects R (@throw A e).
Proof. intros st. reflexivity. Qed.

Lemma respects_bind {A B} (m : comp A) (k : A -> comp B) :
  respects R m -> (forall a, respects R (k a)) -> respects R (bind m k).
Proof.
  intros Hm Hk st. unfold bind. specialize (Hm st).
  destruct (m st) as [[a|e|] st1]; simpl in *; auto.
  etransitivity; [exact Hm | apply Hk].
Qed.

Lemma respects_modify (f : state -> state) :
  (forall st, R st (f st)) -> respects R (modify f).
Proof. intros H st. apply H. Qed.

Lemma respects_read {A} (f : state -> A) :
  respects R (fun st => (Ok (f st), st)).
Proof. intros st. reflexivity. Qed.

Lemma respects_new_object : respects R new_object.
Proof. intros st. apply tolerant_object_heap. Qed.

Lemma respects_object_set a key v : respects R (modify (object_set a key v)).
Proof. intros st. apply tolerant_object_heap. Qed.

Lemma respects_pending : respects R pending.
Proof.
  intros st. unfold pending, modify. simpl.
  etransitivity; [apply (tolerant_ready false)|apply tolerant_pendingCount].
Qed.

Context (calls : runtime_calls).
Hypothesis calls_requireModule :
  forall target from, respects R (call_requireModule calls target from).
Hypothesis calls_ready : respects R (call_ready calls).

Lemma respects_require_with target from :
  respects R (require_with calls target from).
Proof.
  apply respects_bind; [apply calls_requireModule|].
  intros m. apply respects_read.
Qed.

Lemma respects_run_with path options : respects R (run_with calls path options).
Proof.
  intros st. unfold run_with.
  destruct (wait_requested options && negb (_ready st)) eqn:E.
  - apply andb_true_iff in E as [E _]. now apply tolerant_runQueue_push.
  - apply respects_bind; [apply respects_require_with|].
    intros _. apply respects_ret.
Qed.

Lemma respects_onPendingComplete : respects R (onPendingComplete_with calls).
Proof.
  apply respects_bind.
  - apply respects_modify. intros st. apply tolerant_pendingCount.
  - intros _ st. destruct (pendingCount st =? 0); [apply calls_ready|].
    reflexivity.
Qed.

Lemma respects_instanceRequire dirname target :
  respects R (instanceRequire calls dirname target).
Proof.
  apply respects_bind; [|intros m; apply respects_read].
  intros st.
  destruct (JsObject.read (localCache st dirname) target);
    [reflexivity | reflexivity |].
  apply respects_bind; [apply calls_requireModule|]. intros m.
  apply respects_bind; [|intros _; apply respects_ret].
  apply respects_modify. intros st'. apply tolerant_cacheByDirname.
Qed.

Lemma respects_instanceRequire_resolve n dirname target :
  respects R (instanceRequire_resolve n dirname target).
Proof.
  intros st. unfold instanceRequire_resolve.
  destruct (negb (truthy target)); [reflexivity|].
  destruct (resolve n (reg st) target dirname) as [[x|]| |]; reflexivity.
Qed.

Lemma respects_exec_cmd n this exports_ref dirname c :
  (reassigns c = true -> forall v st, R st (set_exports this v st)) ->
  respects R (exec_cmd n calls this exports_ref dirname c).
Proof.
  intros Hre. destruct c; cbn [exec_cmd].
  - apply respects_bind; [apply respects_instanceRequire|].
    intros _; apply respects_ret.
  - apply respects_object_set.
  - apply respects_bind; [apply respects_instanceRequire|].
    intros v; apply respects_object_set.
  - apply respects_bind; [apply respects_new_object|].
    intros a. apply respects_modify. now apply Hre.
  - apply respects_modify. now apply Hre.
  - apply respects_bind; [apply respects_instanceRequire|].
    intros v. apply respects_modify. now apply Hre.
  - apply respects_bind; [apply respects_instanceRequire_resolve|].
    intros _; apply respects_ret.
  - apply respects_pending.
  - apply respects_onPendingComplete.
  - apply respects_run_with.
  - apply calls_ready.
Qed.

Lemma respects_exec_body n this exports_ref dirname body :
  (existsb reassigns body = true ->
   forall v st, R st (set_exports this v st)) ->
  respects R (exec_body n calls this exports_ref dirname body).
Proof.
  induction body as [|c body IH]; intros Hre; cbn [exec_body].
  - apply respects_ret.
  - apply respects_bind.
    + apply respects_exec_cmd. intros Hc. apply Hre. simpl. now rewrite Hc.
    + intros _. apply IH. intros Hb. apply Hre. simpl. rewrite Hb.
      apply orb_true_r.
Qed.

Lemma respects_run_batch queue : respects R (run_batch calls queue).
Proof.
  induction queue as [|args queue IH]; cbn [run_batch].
  - apply respects_ret.
  - apply respects_bind; [apply respects_run_with | intros _; exact IH].
Qed.

Lemma respects_ready_loop rounds : respects R (ready_loop calls rounds).
Proof.
  induction rounds as [|rounds IH]; intros st; simpl.
  - destruct (runQueue st); reflexivity.
  - destruct (runQueue st) as [|e q] eqn:Eq; [reflexivity|].
    change (R st (snd (bind (modify (set_runQueue []))
      (fun _ => bind (run_batch calls (e :: q))
        (fun _ st => if negb (_ready st) then (Ok tt, st)
                     else ready_loop calls rounds st)) st))).
    apply respects_bind.
    + apply respects_modify. intros st'. apply tolerant_runQueue_clear.
    + intros _. apply respects_bind; [apply respects_run_batch|].
      intros _ st'. destruct (negb (_ready st')); [reflexivity|apply IH].
Qed.

End Respect.

(** ** The three frame relations *)

#[local] Instance frame_preorder : PreOrder frame.
Proof.
  split.
  - intros st. unfold frame. auto.
  - intros a b c (H1 & H2 & H3 & H4) (H1' & H2' & H3' & H4').
    unfold frame. repeat split; try congruence; auto.
    etransitivity; eauto.
Qed.

#[local] Instance frame_tolerant : Tolerant frame.
Proof. split; [apply _|..]; intros; unfold frame; simpl; auto. Qed.

#[local] Instance frame_but_preorder this : PreOrder (frame_but this).
Proof.
  split.
  - intros st. unfold frame_but. auto 6.
  - intros a b c (H1 & H2 & H3 & H4 & H5) (H1' & H2' & H3' & H4' & H5').
    unfold frame_but. repeat split; try congruence; auto.
    etransitivity; eauto.
Qed.

#[local] Instance frame_but_tolerant this : Tolerant (frame_but this).
Proof. split; [apply _|..]; intros; unfold frame_but; simpl; auto 6. Qed.

#[local] Instance keeps_exports_preorder this : PreOrder (keeps_exports this).
Proof.
  split.
  - intros st. split; [reflexivity | auto].
  - intros a b c [Hab Eab] [Hbc Ebc]. split; [etransitivity; eauto|].
    intros Ha. rewrite Ebc, Eab; auto. now apply Hab.
Qed.

#[local] Instance keeps_exports_tolerant this : Tolerant (keeps_exports this).
Proof.
  split; [apply _|..]; intros; (split; [|auto]);
    first [apply tolerant_ready | apply tolerant_runQueue_clear
          | now apply tolerant_runQueue_push
          | apply tolerant_pendingCount | apply tolerant_cacheByDirname
          | apply tolerant_object_heap].
Qed.

Lemma frame_frame_but this st st' : frame st st' -> frame_but this st st'.
Proof.
  intros (H1 & H2 & H3 & H4). unfold frame_but. repeat split; auto.
  intros [md Hmd]. exists md. auto.
Qed.

Lemma frame_keeps_exports this st st' :
  frame st st' -> keeps_exports this st st'.
Proof.
  intros H. split; [now apply frame_frame_but|].
  destruct H as (_ & _ & _ & H4). intros [md Hmd].
  unfold exports_of. now rewrite Hmd, (H4 _ _ Hmd).
Qed.

Lemma frame_but_set_exports this v st : frame_but this st (set_exports this v st).
Proof.
  unfold frame_but, set_exports. simpl. repeat split; auto.
  - intros k md Hk Hmd. now rewrite list_lookup_alter_ne.
  - intros [md Hmd]. rewrite list_lookup_alter_eq, Hmd. simpl. eauto.
Qed.

Lemma frame_but_set_loaded this st : frame_but this st (set_loaded this st).
Proof.
  unfold frame_but, set_loaded. simpl. repeat split; auto.
  - intros k md Hk Hmd. now rewrite list_lookup_alter_ne.
  - intros [md Hmd]. rewrite list_lookup_alter_eq, Hmd. simpl. eauto.
Qed.

Lemma keeps_exports_set_loaded this st :
  keeps_exports this st (set_loaded this st).
Proof.
  split; [apply frame_but_set_loaded|].
  intros [md Hmd]. unfold exports_of, set_loaded. simpl.
  now rewrite list_lookup_alter_eq, Hmd.
Qed.

Section Knot.
Context (calls : runtime_calls).
Hypothesis calls_requireModule :
  forall target from, respects frame (call_requireModule calls target from).
Hypothesis calls_ready : respects frame (call_ready calls).

(** [load] writes to the instance it loads and to no other. *)
Lemma load_with_frame_but n this filename d :
  respects (frame_but this) (load_with n calls this filename d).
Proof.
  assert (Hreq : forall target from,
    respects (frame_but this) (call_requireModule calls target from)).
  { intros t f st. apply frame_frame_but, calls_requireModule. }
  assert (Hready : respects (frame_but this) (call_ready calls)).
  { intros st. apply frame_frame_but, calls_ready. }
  unfold load_with. apply respects_bind; [apply _| |].
  - destruct d as [body|v].
    + apply respects_bind; [apply _| |].
      * apply respects_modify. intros st. apply tolerant_cacheByDirname.
      * intros _. apply respects_bind; [apply _|apply respects_new_object; apply _|].
        intros a. apply respects_bind; [apply _| |].
        -- apply respects_modify. intros st. apply frame_but_set_exports.
        -- intros _. apply respects_exec_body; auto; [apply _|].
           intros _ v st. apply frame_but_set_exports.
    + apply respects_modify. intros st. apply frame_but_set_exports.
  - intros _. apply respects_modify. intros st. apply frame_but_set_loaded.
Qed.

(** A factory that never assigns [module.exports] leaves it alone. *)
Lemma exec_body_keeps_exports n this exports_ref dirname body :
  existsb reassigns body = false ->
  respects (keeps_exports this) (exec_body n calls this exports_ref dirname body).
Proof.
  intros Hno. apply respects_exec_body; [apply _| | |].
  - intros t f st. apply frame_keeps_exports, calls_requireModule.
  - intros st. apply frame_keeps_exports, calls_ready.
  - rewrite Hno. discriminate.
Qed.

Lemma requireModule_with_frame n target from :
  respects frame (requireModule_with n calls target from).
Proof.
  intros st. unfold requireModule_with.
  destruct (negb (truthy target)); [reflexivity|].
  destruct (resolve n (reg st) target from) as [[[p d]|]| |]; try reflexivity.
  destruct (instanceCache st !! p) as [m|] eqn:Ec; [reflexivity|].
  destruct (loadedGlobalsByRealPath st !! p) as [m|]; [reflexivity|].
  unfold bind, new_Module, modify at 1, ret.
  set (m := length (module_heap st)).
  set (st1 := set_instanceCache _ _).
  pose proof (load_with_frame_but n m p d st1) as Hload.
  destruct (load_with n calls m p d st1) as [[[]|e|] st2]; simpl in *.
  all: destruct Hload as (H1 & H2 & H3 & H4 & _).
  all: unfold frame; repeat split; auto.
  all: try (etransitivity; [|exact H3]; subst st1; simpl;
            now apply insert_subseteq).
  all: intros k md Hk; apply H4;
       [ apply lookup_lt_Some in Hk; subst m; lia
       | subst st1; simpl; now apply lookup_app_l_Some ].
Qed.

End Knot.

(** ** Relations that do not look at the instances at all *)

Section Indifference.
Context (R : relation state) `{!Indifferent R}.
Context (calls : runtime_calls).
Hypothesis calls_requireModule :
  forall target from, respects R (call_requireModule calls target from).
Hypothesis calls_ready : respects R (call_ready calls).

Lemma load_with_indifferent n this filename d :
  respects R (load_with n calls this filename d).
Proof.
  unfold load_with. apply respects_bind; [apply _| |].
  - destruct d as [body|v].
    + apply respects_bind; [apply _| |].
      * apply respects_modify. intros st. apply tolerant_cacheByDirname.
      * intros _.
        apply respects_bind; [apply _|apply respects_new_object; apply _|].
        intros a. apply respects_bind; [apply _| |].
        -- apply respects_modify. intros st. apply indifferent_module_heap.
        -- intros _. apply respects_exec_body; auto; [apply _|].
           intros _ v st. apply indifferent_module_heap.
    + apply respects_modify. intros st. apply indifferent_module_heap.
  - intros _. apply respects_modify. intros st. apply indifferent_module_heap.
Qed.

Lemma requireModule_with_indifferent n target from :
  respects R (requireModule_with n calls target from).
Proof.
  intros st. unfold requireModule_with.
  destruct (negb (truthy target)); [reflexivity|].
  destruct (resolve n (reg st) target from) as [[[p d]|]| |]; try reflexivity.
  destruct (instanceCache st !! p) as [m|] eqn:Ec; [reflexivity|].
  destruct (loadedGlobalsByRealPath st !! p) as [m|]; [reflexivity|].
  clear Ec. revert st.
  change (respects R
    (do module <- new_Module p;
     do _ <- modify (fun st => set_instanceCache
                (<[p := module]> (instanceCache st)) st);
     do _ <- load_with n calls module p d; ret module)) .
  apply respects_bind; [apply _| |].
  - intros st. apply indifferent_module_heap.
  - intros m. apply respects_bind; [apply _| |].
    + apply respects_modify. intros st. apply indifferent_instanceCache.
    + intros _. apply respects_bind; [apply _|apply load_with_indifferent|].
      intros _. apply respects_ret. apply _.
Qed.

End Indifference.

Lemma runtime_indifferent (R : relation state) `{!Indifferent R} fuel :
  (forall target from,
     respects R (call_requireModule (runtime fuel) target from))
  /\ respects R (call_ready (runtime fuel)).
Proof.
  induction fuel as [|fuel [IHr IHy]].
  - split; [intros ? ? st|intros st]; reflexivity.
  - change (runtime (S fuel))
      with (mkCalls (requireModule_with (S fuel) (runtime fuel))
              (bind (modify (set_ready true))
                 (fun _ => ready_loop (runtime fuel) (S fuel)))).
    cbn [call_requireModule call_ready]. split.
    + intros target from. now apply requireModule_with_indifferent.
    + apply respects_bind; [apply _| |].
      * apply respects_modify. intros st. apply tolerant_ready.
      * intros _. apply respects_ready_loop; auto. apply _.
Qed.

Lemma runtime_S fuel :
  runtime (S fuel)
  = mkCalls (requireModule_with (S fuel) (runtime fuel))
      (bind (modify (set_ready true))
         (fun _ => ready_loop (runtime fuel) (S fuel))).
Proof. reflexivity. Qed.

(** Every call of the loader, at every depth, is framed. *)
Lemma runtime_frame fuel :
  (forall target from,
     respects frame (call_requireModule (runtime fuel) target from))
  /\ respects frame (call_ready (runtime fuel)).
Proof.
  induction fuel as [|fuel [IHr IHy]].
  - split; [intros ? ? st|intros st]; reflexivity.
  - rewrite runtime_S. cbn [call_requireModule call_ready]. split.
    + intros target from. now apply requireModule_with_frame.
    + apply respects_bind; [apply _| |].
      * apply respects_modify. intros st. apply tolerant_ready.
      * intros _. apply respects_ready_loop; auto. apply _.
Qed.

Lemma requireModule_frame fuel target from :
  respects frame (requireModule fuel target from).
Proof. apply runtime_frame. Qed.

Lemma ready_frame fuel : respects frame (ready fuel).
Proof. apply runtime_frame. Qed.

End LoaderFacts.

(** * The loader's [requireModule], case by case *)
Module RequireFacts.
Import JsString Path PathSpec Loader Scenarios.
Import JsStringFacts PathFacts ResolveFacts LoaderFacts.

Lemma truthy_true_iff s : truthy s = true <-> s <> "".
Proof.
  unfold truthy. destruct (String.eqb_spec s ""); simpl; split; congruence.
Qed.

Lemma requireModule_S fuel target from st :
  requireModule (S fuel) target from st
  = requireModule_with (S fuel) (runtime fuel) target from st.
Proof. reflexivity. Qed.

Lemma requireModule_empty fuel from st :
  requireModule (S fuel) "" from st = (Throw (moduleNotFoundError "" ""), st).
Proof. reflexivity. Qed.

Lemma requireModule_not_found fuel target from st :
  target <> "" ->
  resolve (S fuel) (reg st) target from = Ok None ->
  requireModule (S fuel) target from st
  = (Throw (moduleNotFoundError target from), st).
Proof.
  intros Ht Hres. rewrite requireModule_S. unfold requireModule_with.
  apply truthy_true_iff in Ht. now rewrite Ht, Hres.
Qed.

Lemma requireModule_resolve_throws fuel target from st e :
  target <> "" ->
  resolve (S fuel) (reg st) target from = Throw e ->
  requireModule (S fuel) target from st = (Throw e, st).
Proof.
  intros Ht Hres. rewrite requireModule_S. unfold requireModule_with.
  apply truthy_true_iff in Ht. now rewrite Ht, Hres.
Qed.

(** A cached instance is returned as it is; nothing changes. *)
Lemma requireModule_cached fuel target from st p d m :
  target <> "" ->
  resolve (S fuel) (reg st) target from = Ok (Some (p, d)) ->
  instanceCache st !! p = Some m ->
  requireModule (S fuel) target from st = (Ok m, st).
Proof.
  intros Ht Hres Hc. rewrite requireModule_S. unfold requireModule_with.
  apply truthy_true_iff in Ht. now rewrite Ht, Hres, Hc.
Qed.

Lemma requireModule_global fuel target from st p d m :
  target <> "" ->
  resolve (S fuel) (reg st) target from = Ok (Some (p, d)) ->
  instanceCache st !! p = None ->
  loadedGlobalsByRealPath st !! p = Some m ->
  requireModule (S fuel) target from st = (Ok m, st).
Proof.
  intros Ht Hres Hc Hg. rewrite requireModule_S. unfold requireModule_with.
  apply truthy_true_iff in Ht. now rewrite Ht, Hres, Hc, Hg.
Qed.

Lemma requireModule_miss fuel target from st p d :
  target <> "" ->
  resolve (S fuel) (reg st) target from = Ok (Some (p, d)) ->
  instanceCache st !! p = None ->
  loadedGlobalsByRealPath st !! p = None ->
  requireModule (S fuel) target from st
  = (do _ <- load_with (S fuel) (runtime fuel) (length (module_heap st)) p d;
     ret (length (module_heap st))) (precached st p).
Proof.
  intros Ht Hres Hc Hg. rewrite requireModule_S. unfold requireModule_with.
  apply truthy_true_iff in Ht. now rewrite Ht, Hres, Hc, Hg.
Qed.

Lemma precached_lookup st p :
  instanceCache (precached st p) !! p = Some (length (module_heap st))
  /\ module_heap (precached st p) !! length (module_heap st)
     = Some (mkModule p false VUndefined).
Proof.
  unfold precached. simpl. split; [apply lookup_insert_eq|].
  rewrite lookup_app_r by lia. now rewrite Nat.sub_diag.
Qed.

(** After a miss the instance is on the heap and in the cache whatever the
    factory does, even when it throws. *)
Lemma requireModule_miss_cached fuel target from st p d out st' :
  target <> "" ->
  resolve (S fuel) (reg st) target from = Ok (Some (p, d)) ->
  instanceCache st !! p = None ->
  loadedGlobalsByRealPath st !! p = None ->
  requireModule (S fuel) target from st = (out, st') ->
  instanceCache st' !! p = Some (length (module_heap st))
  /\ is_Some (module_heap st' !! length (module_heap st)).
Proof.
  intros Ht Hres Hc Hg Hrun.
  rewrite (requireModule_miss _ _ _ _ _ _ Ht Hres Hc Hg) in Hrun.
  destruct (precached_lookup st p) as [Hin Hheap].
  pose proof (load_with_frame_but (runtime fuel)
    (fun t f => proj1 (runtime_frame fuel) t f) (proj2 (runtime_frame fuel))
    (S fuel) (length (module_heap st)) p d (precached st p))
    as (_ & _ & Hsub & _ & Hsome).
  unfold bind, ret in Hrun.
  destruct (load_with _ _ _ _ _ _) as [[[]|e|] st2];
    simpl in *; inversion Hrun; subst; clear Hrun.
  all: split; [eapply lookup_weaken; eauto | apply Hsome; eauto].
Qed.

(** A definition that is not a factory is loaded without running code. *)
Lemma requireModule_miss_value fuel target from st p v :
  target <> "" ->
  resolve (S fuel) (reg st) target from = Ok (Some (p, DValue v)) ->
  instanceCache st !! p = None ->
  loadedGlobalsByRealPath st !! p = None ->
  requireModule (S fuel) target from st
  = (Ok (length (module_heap st)),
     set_loaded (length (module_heap st))
       (set_exports (length (module_heap st)) v (precached st p))).
Proof.
  intros Ht Hres Hc Hg.
  now rewrite (requireModule_miss _ _ _ _ _ _ Ht Hres Hc Hg).
Qed.

(** ** Scenarios *)

(** C6, counterexample: requiring "/p/a" throws an error whose code is
    MODULE_NOT_FOUND although the target is not empty and its resolution
    finds a definition; the error comes from the nested require, and by then
    the instance of "/p/a" has been created and cached. *)
Lemma nested_module_not_found_leaves_instance_cached :
  resolve 3 (reg broken_state) "/p/a" "/"
    = Ok (Some ("/p/a", DFactory [CRequire "./missing"]))
  /\ fst (require 3 "/p/a" "/" broken_state)
    = Throw (moduleNotFoundError "./missing" "/p")
  /\ err_code (moduleNotFoundError "./missing" "/p") = Some "MODULE_NOT_FOUND"
  /\ instanceCache (snd (require 3 "/p/a" "/" broken_state)) !! "/p/a"
    = Some 0%nat
  /\ module_heap (snd (require 3 "/p/a" "/" broken_state))
    = [mkModule "/p/a" false (VObject 0)].
Proof. repeat split; vm_compute; reflexivity. Qed.

(** The [require] of a factory takes a member of [Object.prototype] for
    a cached module. *)
Lemma instanceRequire_prototype_member calls dirname target st :
  JsObject.inherits target = true ->
  localCache st dirname !! target = None ->
  instanceRequire calls dirname target st = (Ok VUndefined, st).
Proof.
  intros Hinh Hown. unfold instanceRequire, bind, JsObject.read.
  rewrite Hown, Hinh. now destruct (String.eqb target "__proto__").
Qed.

(** A bare target that names a member of [Object.prototype] does not
    reach the own check: the builtins table inherits the member, the
    resolution throws a TypeError, and the [require] handed to a factory
    returns [undefined] for such a name without resolving it. *)
Lemma prototype_names_are_not_looked_up fuel st target from :
  (String.eqb (charAt target 0) "." = false ->
   String.eqb (charAt target 0) "/" = false ->
   searchPaths (reg st) = [] ->
   JsObject.inherits (strip_trailing_slash target) = true ->
   builtins (reg st) !! strip_trailing_slash target = None ->
   exists message,
     requireModule (S fuel) target from st
     = (Throw (TypeError message), st)
     /\ instanceRequire_resolve (S fuel) from target st
        = (Throw (TypeError message), st))
  /\ (JsObject.inherits target = true ->
      localCache st from !! target = None ->
      instanceRequire (runtime fuel) from target st
      = (Ok VUndefined, st)).
Proof.
  split; [|apply instanceRequire_prototype_member].
  intros Hdot Hslash Hsearch Hinh Hown.
  assert (Ht : target <> "") by (intros ->; discriminate).
  assert (Hres : resolve (S fuel) (reg st) target from
                 = Throw (TypeError "path.lastIndexOf is not a function")).
  { apply resolve_prototype_member; auto. rewrite Hsearch. constructor. }
  exists "path.lastIndexOf is not a function". split.
  - now apply requireModule_resolve_throws.
  - unfold instanceRequire_resolve. apply truthy_true_iff in Ht.
    now rewrite Ht, Hres.
Qed.

(** C6 (amended): the check of [requireModule] itself, and likewise of
    [require.resolve], raises the MODULE_NOT_FOUND error exactly when the
    target is empty or its resolution returns without a definition; the
    message carries the target and a non-empty origin, and the state is
    left as it was, so no instance is created or cached.  An error that
    the resolution itself throws passes through instead, the state left
    as it was.  When resolution finds a definition, a cached or literal
    module is returned without any throw, and whatever a factory throws
    escapes only after the new instance has been created and cached. *)
Theorem module_not_found_is_raised_by_the_own_check :
  forall (fuel : nat) (st : state) (target from : string),
    err_code (moduleNotFoundError target from) = Some "MODULE_NOT_FOUND"
    /\ err_message (moduleNotFoundError target from)
       = "Cannot find module " +:+ dquote +:+ target +:+ dquote
         +:+ (if String.eqb from "" then ""
              else " from " +:+ dquote +:+ from +:+ dquote)
    /\ requireModule (S fuel) "" from st
       = (Throw (moduleNotFoundError "" ""), st)
    /\ instanceRequire_resolve (S fuel) from "" st
       = (Throw (moduleNotFoundError "" ""), st)
    /\ (target <> "" ->
        resolve (S fuel) (reg st) target from = Ok None ->
        requireModule (S fuel) target from st
          = (Throw (moduleNotFoundError target from), st)
        /\ instanceRequire_resolve (S fuel) from target st
          = (Throw (moduleNotFoundError target from), st))
    /\ (forall e,
        target <> "" ->
        resolve (S fuel) (reg st) target from = Throw e ->
        requireModule (S fuel) target from st = (Throw e, st)
        /\ instanceRequire_resolve (S fuel) from target st = (Throw e, st))
    /\ (forall p d,
        target <> "" ->
        resolve (S fuel) (reg st) target from = Ok (Some (p, d)) ->
        instanceRequire_resolve (S fuel) from target st = (Ok p, st)
        /\ (forall m, instanceCache st !! p = Some m ->
             requireModule (S fuel) target from st = (Ok m, st))
        /\ (forall m, instanceCache st !! p = None ->
             loadedGlobalsByRealPath st !! p = Some m ->
             requireModule (S fuel) target from st = (Ok m, st))
        /\ (forall v, instanceCache st !! p = None ->
             loadedGlobalsByRealPath st !! p = None ->
             d = DValue v ->
             fst (requireModule (S fuel) target from st)
               = Ok (length (module_heap st)))
        /\ (forall e st',
             requireModule (S fuel) target from st = (Throw e, st') ->
             (exists body, d = DFactory body)
             /\ instanceCache st !! p = None
             /\ instanceCache st' !! p = Some (length (module_heap st))
             /\ is_Some (module_heap st' !! length (module_heap st)))).
Proof.
  intros fuel st target from. split; [reflexivity|].
  split.
  { unfold moduleNotFoundError, truthy. simpl.
    now destruct (String.eqb from ""). }
  split; [reflexivity|]. split; [reflexivity|]. split.
  { intros Ht Hres. split; [now apply requireModule_not_found|].
    unfold instanceRequire_resolve. apply truthy_true_iff in Ht.
    now rewrite Ht, Hres. }
  split.
  { intros e Ht Hres. split; [now apply requireModule_resolve_throws|].
    unfold instanceRequire_resolve. apply truthy_true_iff in Ht.
    now rewrite Ht, Hres. }
  intros p d Ht Hres. split.
  { unfold instanceRequire_resolve.
    pose proof Ht as Ht'. apply truthy_true_iff in Ht'.
    now rewrite Ht', Hres. }
  split; [intros m Hc; eapply requireModule_cached; eauto|].
  split; [intros m Hc Hg; eapply requireModule_global; eauto|].
  split.
  { intros v Hc Hg ->.
    now rewrite (requireModule_miss_value _ _ _ _ _ _ Ht Hres Hc Hg). }
  intros e st' Hrun.
  destruct (instanceCache st !! p) as [m|] eqn:Hc.
  { rewrite (requireModule_cached _ _ _ _ _ _ _ Ht Hres Hc) in Hrun.
    discriminate. }
  destruct (loadedGlobalsByRealPath st !! p) as [m|] eqn:Hg.
  { rewrite (requireModule_global _ _ _ _ _ _ _ Ht Hres Hc Hg) in Hrun.
    discriminate. }
  destruct (requireModule_miss_cached _ _ _ _ _ _ _ _ Ht Hres Hc Hg Hrun)
    as [Hin Hheap].
  repeat split; auto.
  destruct d as [body|v]; [eauto|].
  rewrite (requireModule_miss_value _ _ _ _ _ _ Ht Hres Hc Hg) in Hrun.
  discriminate.
Qed.

(** The own check at work, in the initial state: a target that resolves
    to nothing, and a target whose resolution throws. *)
Lemma module_not_found_own_check_witness :
  (requireModule 1 "./nope" "/app" initial_state
     = (Throw (moduleNotFoundError "./nope" "/app"), initial_state)
   /\ instanceRequire_resolve 1 "/app" "./nope" initial_state
      = (Throw (moduleNotFoundError "./nope" "/app"), initial_state))
  /\ (requireModule 1 "../../.." "/" initial_state
      = (Throw RangeError_invalid_array_length, initial_state)
      /\ instanceRequire_resolve 1 "/" "../../.." initial_state
         = (Throw RangeError_invalid_array_length, initial_state)).
Proof.
  split.
  - destruct (module_not_found_is_raised_by_the_own_check
                0 initial_state "./nope" "/app") as (_ & _ & _ & _ & H & _).
    apply H; [discriminate | reflexivity].
  - destruct (module_not_found_is_raised_by_the_own_check
                0 initial_state "../../.." "/")
      as (_ & _ & _ & _ & _ & H & _).
    apply H; [discriminate | reflexivity].
Defined.

End RequireFacts.

(** * Resolution: the verified properties *)
Module ResolveClaims.
Import JsString Path PathSpec Loader Scenarios.
Import JsStringFacts PathFacts ResolveFacts LoaderFacts RequireFacts.

Lemma split_rooted s :
  String.eqb (charAt s 0) "/" = true ->
  split "/" s = "" :: drop 1 (split "/" s).
Proof.
  destruct s as [|c s]; [discriminate|]. unfold charAt. cbn.
  intros H. apply String.eqb_eq in H. injection H as ->. reflexivity.
Qed.

(** The parts that [join] takes from a directory are the empty part of
    the root and the segments of the directory. *)
Lemma fromParts_of_directory from :
  is_directory from -> fromParts_of from = "" :: directory_segments from.
Proof.
  intros [->|Habs]; [reflexivity|].
  unfold fromParts_of, directory_segments.
  destruct (String.eqb from "/"); [reflexivity|]. now apply split_rooted.
Qed.

(** C3, counterexample: [join] does not normalise every relative
    specifier as the claim says.  A ".." that is read when only the root
    is left takes the root away, and the segment that follows is lost;
    and of two empty segments at the end only one is dropped. *)
Lemma join_loses_a_segment_at_the_root_and_keeps_a_trailing_slash :
  Path.join "/a" "../../x" = Ok "/"
  /\ spec_join "/a" "../../x" = "/x"
  /\ Path.join "/a" "./b//" = Ok "/a/b/"
  /\ spec_join "/a" "./b//" = "/a/b".
Proof. repeat split; vm_compute; reflexivity. Qed.

(** C3 (amended): a relative specifier is joined to the requesting
    directory and an absolute one is taken alone.  As long as no ".." is
    read when only the root is left, what [resolve] goes on with is the
    absolute path of the segments that are left after each ".." has popped
    one segment and each "." was elided, the last segment dropped when it
    is empty and another one precedes it; with at most one empty segment
    at the end this is the normal form of the specification.  A require of
    "./a" from the module /pkg$1.0.0/lib/index resolves to
    /pkg$1.0.0/lib/a, and /pkg$1.0.0/lib joined with "../other" is
    /pkg$1.0.0/other. *)
Theorem relative_specifiers_are_joined_and_normalized :
  forall (r : registry) (fuel : nat) (target from : string),
    (String.eqb (charAt target 0) "." = true ->
     is_directory from ->
     has_ancestors 0 (directory_segments from ++ split "/" target) = true ->
     Path.join from target
       = Ok (spec_path
               (drop_last_empty
                  (spec_segments
                     (directory_segments from ++ split "/" target) [])))
     /\ resolve (S fuel) r target from
        = resolve_tail r
            (JsObject.Own
               (spec_path
                  (drop_last_empty
                     (spec_segments
                        (directory_segments from ++ split "/" target) []))))
     /\ ((trailing_empties
            (spec_segments (directory_segments from ++ split "/" target) [])
          <= 1)%nat ->
         Path.join from target = Ok (spec_join from target)
         /\ resolve (S fuel) r target from
            = resolve_tail r (JsObject.Own (spec_join from target))))
    /\ (String.eqb (charAt target 0) "/" = true ->
        has_ancestors 0 (drop 1 (split "/" target)) = true ->
        resolve (S fuel) r target from
        = resolve_tail r
            (JsObject.Own
               (spec_path
                  (drop_last_empty
                     (spec_segments (drop 1 (split "/" target)) []))))
        /\ ((trailing_empties
               (spec_segments (drop 1 (split "/" target)) []) <= 1)%nat ->
            resolve (S fuel) r target from
            = resolve_tail r (JsObject.Own (spec_absolute target))))
    /\ Path.join (dirname "/pkg$1.0.0/lib/index") "./a"
       = Ok "/pkg$1.0.0/lib/a"
    /\ Path.join "/pkg$1.0.0/lib" "../other" = Ok "/pkg$1.0.0/other"
    /\ instanceCache (snd (require 3 "/pkg$1.0.0/lib/index" "/" lib_state))
         !! "/pkg$1.0.0/lib/a" = Some 1%nat
    /\ module_heap (snd (require 3 "/pkg$1.0.0/lib/index" "/" lib_state))
         !! 1%nat = Some (mkModule "/pkg$1.0.0/lib/a" true (VString "A")).
Proof.
  intros r fuel target from. split; [|split].
  - intros Hrel Hdir Hanc.
    assert (Hjoin : Path.join from target
              = Ok (spec_path
                      (drop_last_empty
                         (spec_segments
                            (directory_segments from ++ split "/" target)
                            [])))).
    { unfold Path.join. rewrite (fromParts_of_directory from Hdir).
      now apply normalizePathParts_spec. }
    assert (Hres : resolve (S fuel) r target from
              = resolve_tail r
                  (JsObject.Own
                     (spec_path
                        (drop_last_empty
                           (spec_segments
                              (directory_segments from ++ split "/" target)
                              []))))).
    { rewrite resolve_relative by assumption. now rewrite Hjoin. }
    split; [exact Hjoin|]. split; [exact Hres|].
    intros Hfew. unfold spec_join.
    rewrite <- (drop_last_is_collapse _ Hfew). now split.
  - intros Habs Hanc.
    assert (Hres : resolve (S fuel) r target from
              = resolve_tail r
                  (JsObject.Own
                     (spec_path
                        (drop_last_empty
                           (spec_segments (drop 1 (split "/" target))
                              []))))).
    { rewrite resolve_absolute by assumption.
      rewrite (split_rooted target Habs).
      now rewrite normalizePathParts_spec. }
    split; [exact Hres|].
    intros Hfew. unfold spec_absolute.
    now rewrite <- (drop_last_is_collapse _ Hfew).
  - repeat split; vm_compute; reflexivity.
Qed.

Lemma relative_specifier_witness :
  (Path.join "/pkg$1.0.0/lib" "../other/./x/"
     = Ok (spec_join "/pkg$1.0.0/lib" "../other/./x/")
   /\ resolve 1 lib_registry "../other/./x/" "/pkg$1.0.0/lib"
     = resolve_tail lib_registry
         (JsObject.Own (spec_join "/pkg$1.0.0/lib" "../other/./x/")))
  /\ spec_join "/pkg$1.0.0/lib" "../other/./x/" = "/pkg$1.0.0/other/x".
Proof.
  split; [|reflexivity].
  destruct (relative_specifiers_are_joined_and_normalized
              lib_registry 0 "../other/./x/" "/pkg$1.0.0/lib") as [H _].
  destruct H as (_ & _ & H); [reflexivity | now right | reflexivity |].
  apply H. vm_compute. lia.
Defined.

(** C10: normalisation does not stop ".." at the root.  The counter of
    kept parts is the number of ordinary parts minus the number of ".."
    parts; when it comes out as zero the path is the empty string, which
    [resolve] reports as not found, and when it comes out negative the
    truncation of the array throws a RangeError, which [resolve] and
    [require] let through instead of the module-not-found error. *)
Theorem normalization_does_not_clamp_at_the_root :
  (forall parts, snd (normalize_loop parts) = net_segments parts)
  /\ (forall parts, net_segments parts = 0 ->
        normalizePathParts parts = Ok "")
  /\ (forall parts, net_segments parts < 0 ->
        normalizePathParts parts = Throw RangeError_invalid_array_length)
  /\ Path.join "/" ".." = Ok ""
  /\ (forall r fuel, resolve (S fuel) r ".." "/" = Ok None)
  /\ (forall fuel st,
        requireModule (S fuel) ".." "/" st
        = (Throw (moduleNotFoundError ".." "/"), st))
  /\ snd (normalize_loop (fromParts_of "/" ++ split "/" "../..")) = -1
  /\ Path.join "/" "../.." = Throw RangeError_invalid_array_length
  /\ (forall r fuel,
        resolve (S fuel) r "../.." "/"
        = Throw RangeError_invalid_array_length)
  /\ (forall fuel st,
        requireModule (S fuel) "../.." "/" st
        = (Throw RangeError_invalid_array_length, st)).
Proof.
  split; [exact normalize_loop_len|].
  split; [exact normalizePathParts_zero|].
  split; [exact normalizePathParts_negative|].
  split; [reflexivity|].
  assert (Hnone : forall r fuel, resolve (S fuel) r ".." "/" = Ok None).
  { intros r fuel. now rewrite resolve_relative. }
  split; [exact Hnone|].
  split.
  { intros fuel st. apply requireModule_not_found.
    - discriminate.
    - apply Hnone. }
  split; [reflexivity|]. split; [reflexivity|].
  assert (Hthrow : forall r fuel,
    resolve (S fuel) r "../.." "/" = Throw RangeError_invalid_array_length).
  { intros r fuel. now rewrite resolve_relative. }
  split; [exact Hthrow|].
  intros fuel st. apply requireModule_resolve_throws.
  - discriminate.
  - apply Hthrow.
Qed.

Lemma no_clamping_witness :
  normalizePathParts ["a"; ".."; ".."; ".."]
  = Throw RangeError_invalid_array_length.
Proof.
  apply (proj1 (proj2 (proj2 normalization_does_not_clamp_at_the_root))).
  reflexivity.
Defined.

(** What the pipeline returns is registered under the returned path. *)
Lemma resolve_candidate_spec_sound r candidate p d :
  resolve_candidate_spec r candidate = Ok (Some (p, d)) ->
  lookup_definition r p = Some d.
Proof.
  unfold resolve_candidate_spec.
  destruct (main_substitution r candidate) as [c1| |]; cbn [obind];
    try discriminate.
  unfold lookup_exact_then_stripped.
  destruct (lookup_definition r (remap_substitution r c1)) eqn:E1.
  - intros [= <- <-]. exact E1.
  - destruct (withoutExtension _) as [c3|]; [|discriminate].
    destruct (lookup_definition r c3) eqn:E2; [|discriminate].
    intros [= <- <-]. exact E2.
Qed.

(** C4: once [resolve] has a candidate path, from the join of a relative
    specifier, from the normalisation of an absolute one or from
    [resolveInstalledModule] for a bare one that no search path resolves,
    its result is that of the steps the specification words: the
    main-file substitution once ("index" for an empty main), then the
    remap once, then the lookup of the path and, failing that, one lookup
    without its extension.  What it returns is registered under the
    returned path, and when neither lookup finds a definition [resolve]
    returns nothing and [require] raises the module-not-found error. *)
Theorem resolve_applies_main_then_remap_then_lookup :
  forall (r : registry) (fuel : nat) (target from candidate : string),
    truthy candidate = true ->
    (String.eqb (charAt target 0) "." = true ->
     Path.join from target = Ok candidate ->
     resolve (S fuel) r target from = resolve_candidate_spec r candidate)
    /\ (String.eqb (charAt target 0) "/" = true ->
        normalizePathParts (split "/" target) = Ok candidate ->
        resolve (S fuel) r target from = resolve_candidate_spec r candidate)
    /\ (String.eqb (charAt target 0) "." = false ->
        String.eqb (charAt target 0) "/" = false ->
        Forall (fun p => resolve fuel r (p +:+ target) from = Ok None)
          (searchPaths r) ->
        resolveInstalledModule r target from = JsObject.Own candidate ->
        resolve (S fuel) r target from = resolve_candidate_spec r candidate)
    /\ (forall p d,
          resolve_candidate_spec r candidate = Ok (Some (p, d)) ->
          lookup_definition r p = Some d)
    /\ (forall withMain,
          main_substitution r candidate = Ok withMain ->
          lookup_definition r (remap_substitution r withMain) = None ->
          (forall stripped,
             withoutExtension (remap_substitution r withMain)
             = Some stripped ->
             lookup_definition r stripped = None) ->
          resolve_candidate_spec r candidate = Ok None)
    /\ (forall st,
          reg st = r ->
          target <> "" ->
          resolve (S fuel) r target from = Ok None ->
          require (S fuel) target from st
          = (Throw (moduleNotFoundError target from), st)).
Proof.
  intros r fuel target from candidate Hc.
  split.
  { intros Hdot Hjoin. rewrite resolve_relative, Hjoin by assumption.
    now apply resolve_tail_spec. }
  split.
  { intros Hslash Hnorm. rewrite resolve_absolute, Hnorm by assumption.
    now apply resolve_tail_spec. }
  split.
  { intros Hdot Hslash Hsearch Hinst.
    rewrite resolve_bare, search_loop_no_hit, Hinst by assumption.
    now apply resolve_tail_spec. }
  split; [apply resolve_candidate_spec_sound|].
  split.
  { intros withMain Hmain Hexact Hstripped. unfold resolve_candidate_spec.
    rewrite Hmain. cbn [obind]. unfold lookup_exact_then_stripped.
    rewrite Hexact.
    destruct (withoutExtension _) as [stripped|] eqn:E; [|reflexivity].
    now rewrite (Hstripped stripped eq_refl). }
  intros st <- Ht Hres.
  unfold require, require_with, bind.
  change (call_requireModule (runtime (S fuel)))
    with (requireModule (S fuel)).
  now rewrite requireModule_not_found.
Qed.

(** Each substitution is applied once even where a second application
    would be possible, and the extension is stripped once. *)
Lemma substitutions_are_not_chained_witness :
  resolve 1 chain_registry "/a" "/"
    = Ok (Some ("/a/b", DValue (VString "main once")))
  /\ resolve 1 chain_registry "./x" "/"
    = Ok (Some ("/y", DValue (VString "remap once")))
  /\ resolve 1 chain_registry "/m.a.b" "/"
    = Ok (Some ("/m.a", DValue (VString "m.a")))
  /\ resolve 1 chain_registry "/m.b.c" "/" = Ok None
  /\ require 1 "/m.b.c" "/" (set_reg (fun _ => chain_registry) initial_state)
    = (Throw (moduleNotFoundError "/m.b.c" "/"),
       set_reg (fun _ => chain_registry) initial_state).
Proof.
  split.
  { destruct (resolve_applies_main_then_remap_then_lookup
                chain_registry 0 "/a" "/" "/a" eq_refl) as (_ & H & _).
    rewrite H; reflexivity. }
  split.
  { destruct (resolve_applies_main_then_remap_then_lookup
                chain_registry 0 "./x" "/" "/x" eq_refl) as (H & _).
    rewrite H; reflexivity. }
  split.
  { destruct (resolve_applies_main_then_remap_then_lookup
                chain_registry 0 "/m.a.b" "/" "/m.a.b" eq_refl)
      as (_ & H & _).
    rewrite H; reflexivity. }
  split.
  { destruct (resolve_applies_main_then_remap_then_lookup
                chain_registry 0 "/m.b.c" "/" "/m.b.c" eq_refl)
      as (_ & H & _).
    rewrite H; reflexivity. }
  destruct (resolve_applies_main_then_remap_then_lookup
              chain_registry 0 "/m.b.c" "/" "/m.b.c" eq_refl)
    as (_ & _ & _ & _ & _ & H).
  apply H; [reflexivity | discriminate | reflexivity].
Defined.

(** C2, counterexample: with "foo" both installed for the requesting
    package and registered as a builtin, the order stated by the claim
    (installed dependency first, builtin as the last resort) gives the
    installed path, while the loader returns the builtin path. *)
Lemma builtin_shadows_installed_dependency :
  installed shadowing_registry !! "app$1.0.0/foo" = Some "2.0.0"
  /\ installed_then_builtin shadowing_registry "foo" "/app$1.0.0/src/x"
    = Some "/foo$2.0.0"
  /\ resolveInstalledModule shadowing_registry "foo" "/app$1.0.0/src/x"
    = JsObject.Own "/foo-browser$0.0.0/index"
  /\ resolve 1 shadowing_registry "foo" "/app$1.0.0/src/x"
    = Ok (Some ("/foo-browser$0.0.0/index", DValue (VString "builtin"))).
Proof. repeat split; vm_compute; reflexivity. Qed.

(** The package identifier of a scoped requesting path is cut after its
    first segment: line 297 tests the second character of the path whose
    leading slash has already been removed. *)
Example scoped_requesting_path_is_cut_after_the_scope :
  splitPackageIdAndSubpath "/@scope/pkg$1.0.0/lib" = ("@scope", "/pkg$1.0.0/lib").
Proof. reflexivity. Qed.

(** C2 (amended): for a bare specifier the registered search-path prefixes
    are tried first, in order, each concatenated with the specifier and
    resolved recursively, and the first that resolves wins; when none does,
    the candidate is computed by [resolveInstalledModule], where a builtin
    registered for the specifier (one trailing slash removed) takes
    precedence, and only when the builtins table has nothing under the
    specifier, registered or inherited, the version installed for the
    requesting package, one whose identifier has "@" neither as its first
    nor as its second character, is looked up under
    "<package id>/<target package>" and spliced into
    "/<name>$<version><subpath>"; a target package name starting with "@"
    and followed by a subpath takes two segments. *)
Theorem bare_specifiers_try_search_paths_then_builtins_then_installed :
  forall (r : registry) (fuel : nat) (target from : string),
    String.eqb (charAt target 0) "." = false ->
    String.eqb (charAt target 0) "/" = false ->
    (forall (pre : list string) sp post found,
        searchPaths r = (pre ++ sp :: post)%list ->
        Forall (fun p => resolve fuel r (p +:+ target) from = Ok None) pre ->
        resolve fuel r (sp +:+ target) from = Ok (Some found) ->
        resolve (S fuel) r target from = Ok (Some found))
    /\ (Forall (fun p => resolve fuel r (p +:+ target) from = Ok None)
          (searchPaths r) ->
        resolve (S fuel) r target from
        = resolve_tail r (resolveInstalledModule r target from))
    /\ (forall builtinPath,
        JsObject.read (builtins r) (strip_trailing_slash target)
        = JsObject.Own builtinPath ->
        truthy builtinPath = true ->
        resolveInstalledModule r target from = JsObject.Own builtinPath)
    /\ (forall pkg rest name sub version,
        truthy_entry
          (JsObject.read (builtins r) (strip_trailing_slash target)) = false ->
        from_shape from pkg rest ->
        target_shape (strip_trailing_slash target) name sub ->
        installed r !! (pkg +:+ "/" +:+ name) = Some version ->
        truthy version = true ->
        resolveInstalledModule r target from
        = JsObject.Own ("/" +:+ name +:+ "$" +:+ version +:+ sub))
    /\ (forall name sub,
        truthy_entry
          (JsObject.read (builtins r) (strip_trailing_slash target)) = false ->
        split_target (strip_trailing_slash target) = (name, sub) ->
        truthy_own
          (installed r
             !! (fst (splitPackageIdAndSubpath from) +:+ "/" +:+ name))
        = false ->
        resolveInstalledModule r target from = JsObject.Missing).
Proof.
  intros r fuel target from Hdot Hslash.
  pose proof (resolve_bare fuel r target from Hdot Hslash) as Hbare.
  split.
  { intros pre sp post found Hsp Hpre Hhit. rewrite Hbare, Hsp.
    now apply search_loop_first_hit. }
  split.
  { intros Hnone. rewrite Hbare. now apply search_loop_no_hit. }
  split.
  { intros builtinPath Hread Htruthy.
    rewrite resolveInstalledModule_builtin; [exact Hread|].
    now rewrite Hread. }
  split.
  { intros pkg rest name sub version.
    apply resolveInstalledModule_installed. }
  intros name sub. apply resolveInstalledModule_not_installed.
Qed.

Lemma plain_name_shape name :
  indexOf name "/" 0 = -1 ->
  String.eqb (charAt name 0) "@" = false ->
  target_shape name name "".
Proof.
  intros Hl Hat. rewrite <- (app_empty_r name) at 1.
  apply shape_plain; [now apply lacks_indexOf | assumption | now left].
Qed.

(** The example of the specification: "foo" required from
    /app$1.0.0/src/x resolves to /foo$2.0.0 and then to its main file. *)
Lemma installed_dependency_witness :
  resolveInstalledModule installed_registry "foo" "/app$1.0.0/src/x"
    = JsObject.Own ("/" +:+ "foo" +:+ "$" +:+ "2.0.0" +:+ "")
  /\ resolve 1 installed_registry "foo" "/app$1.0.0/src/x"
    = Ok (Some ("/foo$2.0.0/index", DValue (VString "installed"))).
Proof.
  destruct (bare_specifiers_try_search_paths_then_builtins_then_installed
              installed_registry 0 "foo" "/app$1.0.0/src/x"
              eq_refl eq_refl) as (_ & Hnone & _ & Hinst & _).
  split.
  - apply (Hinst "app$1.0.0" "/src/x"); try reflexivity.
    + split; [reflexivity|]. split; [now apply lacks_indexOf|].
      split; [right; eauto | split; reflexivity].
    + now apply plain_name_shape.
  - rewrite Hnone by constructor. reflexivity.
Defined.

End ResolveClaims.

(** * The run queue and the instance cache: the verified properties *)
Module LoaderClaims.
Import JsString Path PathSpec Loader Scenarios.
Import JsStringFacts PathFacts ResolveFacts LoaderFacts RequireFacts.

(** ** The run queue *)

Lemma set_runQueue_same st : set_runQueue (runQueue st) st = st.
Proof. now destruct st. Qed.

Lemma run_enqueues fuel path options st :
  wait_requested options = true ->
  _ready st = false ->
  run fuel path options st
  = (Ok tt, set_runQueue (runQueue st ++ [(path, options)]) st).
Proof.
  intros Hw Hr. unfold run, run_with. now rewrite Hw, Hr.
Qed.

Lemma run_with_not_ready calls args st :
  wait_requested (snd args) = true ->
  _ready st = false ->
  run_with calls (fst args) (snd args) st
  = (Ok tt, set_runQueue (runQueue st ++ [args]) st).
Proof.
  intros Hw Hr. unfold run_with. rewrite Hw, Hr. now destruct args.
Qed.

(** While the page is not ready a batch is queued again, entry by entry. *)
Lemma run_batch_not_ready calls batch : forall st,
  _ready st = false ->
  Forall (fun args => wait_requested (snd args) = true) batch ->
  run_batch calls batch st
  = (Ok tt, set_runQueue (runQueue st ++ batch) st).
Proof.
  induction batch as [|args batch IH]; intros st Hr Hw.
  - simpl. unfold ret. now rewrite List.app_nil_r, set_runQueue_same.
  - inversion Hw as [|? ? Hargs Hrest]; subst.
    cbn [run_batch]. unfold bind.
    rewrite run_with_not_ready by assumption.
    rewrite IH by assumption. simpl. now rewrite <- List.app_assoc.
Qed.

Lemma bind_assoc {A B C} (m : comp A) (k1 : A -> comp B) (k2 : B -> comp C)
  st :
  bind (bind m k1) k2 st = bind m (fun a => bind (k1 a) k2) st.
Proof. unfold bind. now destruct (m st) as [[a|e|] st1]. Qed.

Lemma bind_ext {A B} (m : comp A) (k k' : A -> comp B) st :
  (forall a st', k a st' = k' a st') -> bind m k st = bind m k' st.
Proof. intros H. unfold bind. destruct (m st) as [[a|e|] st1]; auto. Qed.

(** A batch runs in queue order: first the front, then the rest. *)
Lemma run_batch_app calls b1 b2 st :
  run_batch calls (b1 ++ b2) st
  = (do _ <- run_batch calls b1; run_batch calls b2) st.
Proof.
  revert st. induction b1 as [|args b1 IH]; intros st; [reflexivity|].
  change ((args :: b1) ++ b2)%list with (args :: (b1 ++ b2))%list.
  cbn [run_batch]. rewrite bind_assoc. apply bind_ext. intros _ st'. apply IH.
Qed.

Lemma ready_S fuel st :
  ready (S fuel) st = ready_loop (runtime fuel) (S fuel) (set_ready true st).
Proof. reflexivity. Qed.

Lemma ready_loop_S calls rounds st :
  runQueue st <> [] ->
  ready_loop calls (S rounds) st
  = (do _ <- run_batch calls (runQueue st);
     fun st => if negb (_ready st) then (Ok tt, st)
               else ready_loop calls rounds st) (set_runQueue [] st).
Proof. intros Hq. simpl. now destruct (runQueue st). Qed.

Lemma ready_loop_empty calls rounds st :
  runQueue st = [] -> ready_loop calls rounds st = (Ok tt, st).
Proof. intros Hq. destruct rounds; simpl; now rewrite Hq. Qed.

#[local] Instance waits_kept_indifferent : Indifferent waits_kept.
Proof.
  split; [split; [split|..]|..]; unfold waits_kept, queue_waits; simpl; auto.
  intros path options st Hw Hq. apply Forall_app. split; [exact Hq|].
  now repeat constructor.
Qed.

Lemma queue_waits_ready fuel st :
  queue_waits st -> queue_waits (snd (ready fuel st)).
Proof. apply (runtime_indifferent waits_kept fuel). Qed.

Lemma queue_waits_run fuel path options st :
  queue_waits st -> queue_waits (snd (run fuel path options st)).
Proof.
  apply (respects_run_with waits_kept); apply (runtime_indifferent waits_kept).
Qed.

(** C5: [run] with waiting requested queues its entry while the page is not
    ready.  [ready] sets the flag and runs the queued entries in queue
    order; if they all run and leave the page ready, the queue is drained.
    If readiness has flipped back to false once the entries [done] have
    run, none of the entries [rest] behind them is executed: they are back
    in the queue, in order, behind whatever was queued meanwhile, and
    nothing else has changed. *)
Theorem ready_drains_in_order_and_stops_when_not_ready :
  forall (fuel : nat) (st : state),
    queue_waits st ->
    (forall path options,
        wait_requested options = true ->
        _ready st = false ->
        run fuel path options st
        = (Ok tt, set_runQueue (runQueue st ++ [(path, options)]) st))
    /\ (forall path options,
        queue_waits (snd (run fuel path options st)))
    /\ queue_waits (snd (ready fuel st))
    /\ (forall b1 b2 st0,
        run_batch (runtime fuel) (b1 ++ b2) st0
        = (do _ <- run_batch (runtime fuel) b1;
           run_batch (runtime fuel) b2) st0)
    /\ (forall st1,
        run_batch (runtime fuel) (runQueue st)
          (set_runQueue [] (set_ready true st)) = (Ok tt, st1) ->
        _ready st1 = true ->
        runQueue st1 = [] ->
        ready (S fuel) st = (Ok tt, st1))
    /\ (forall done rest st1,
        runQueue st = (done ++ rest)%list ->
        run_batch (runtime fuel) done
          (set_runQueue [] (set_ready true st)) = (Ok tt, st1) ->
        _ready st1 = false ->
        ready (S fuel) st
        = (Ok tt, set_runQueue (runQueue st1 ++ rest) st1)).
Proof.
  intros fuel st Hq.
  split; [intros; now apply run_enqueues|].
  split; [intros; now apply queue_waits_run|].
  split; [now apply queue_waits_ready|].
  split; [intros; apply run_batch_app|].
  split.
  - intros st1 Hbatch Hr Hempty. rewrite ready_S.
    destruct (runQueue st) as [|args q] eqn:Eq.
    + simpl in Hbatch. inversion Hbatch; subst. simpl in Hr.
      rewrite ready_loop_empty by exact Eq.
      f_equal. destruct st; simpl in *. now subst.
    + rewrite ready_loop_S by (simpl; now rewrite Eq).
      change (runQueue (set_ready true st)) with (runQueue st).
      rewrite Eq. unfold bind. rewrite Hbatch, Hr. cbn [negb].
      now apply ready_loop_empty.
  - intros done rest st1 Hsplit Hbatch Hr. rewrite ready_S.
    assert (Hrest : Forall (fun args => wait_requested (snd args) = true) rest).
    { unfold queue_waits in Hq. rewrite Hsplit in Hq.
      now apply Forall_app in Hq. }
    destruct (runQueue st) as [|args q] eqn:Eq.
    + symmetry in Hsplit. apply app_eq_nil in Hsplit as [-> ->].
      simpl in Hbatch. inversion Hbatch; subst. discriminate.
    + rewrite ready_loop_S by (simpl; now rewrite Eq).
      change (runQueue (set_ready true st)) with (runQueue st).
      rewrite Eq, Hsplit.
      unfold bind at 1. rewrite run_batch_app. unfold bind at 1.
      rewrite Hbatch. rewrite run_batch_not_ready by assumption.
      cbn [_ready set_runQueue]. now rewrite Hr.
Qed.

(** The three queued entry points: "/w" and "/x" run, "/x" starts a job,
    and "/z" is still queued when [ready] returns; completing the job then
    runs it. *)
Lemma drain_stops_at_pending_job_witness :
  ready 3 gate_state
    = (Ok tt,
       set_runQueue
         (runQueue (snd (run_batch (runtime 2)
                           [("/w", Options None); ("/x", NoOptions)]
                           (set_runQueue [] (set_ready true gate_state))))
          ++ [("/z", NoOptions)])
         (snd (run_batch (runtime 2)
                 [("/w", Options None); ("/x", NoOptions)]
                 (set_runQueue [] (set_ready true gate_state)))))
  /\ runQueue (snd (ready 3 gate_state)) = [("/z", NoOptions)]
  /\ map id (module_heap (snd (ready 3 gate_state))) = ["/w"; "/x"]
  /\ map id (module_heap
               (snd (onPendingComplete 3 (snd (ready 3 gate_state)))))
     = ["/w"; "/x"; "/z"].
Proof.
  assert (Hq : queue_waits gate_state) by (repeat constructor).
  destruct (ready_drains_in_order_and_stops_when_not_ready 2 gate_state Hq)
    as (_ & _ & _ & _ & _ & Hstop).
  split; [|repeat split; vm_compute; reflexivity].
  apply (Hstop [("/w", Options None); ("/x", NoOptions)] [("/z", NoOptions)]).
  - reflexivity.
  - now destruct (run_batch _ _ _) as [[[]| |] st1] eqn:E; vm_compute in E.
  - vm_compute. reflexivity.
Defined.

(** ** The instance cache *)

Lemma requireModule_result_cached fuel target from st p d m st1 :
  target <> "" ->
  resolve (S fuel) (reg st) target from = Ok (Some (p, d)) ->
  requireModule (S fuel) target from st = (Ok m, st1) ->
  reg st1 = reg st
  /\ (instanceCache st1 !! p = Some m
      \/ (instanceCache st1 !! p = None
          /\ loadedGlobalsByRealPath st1 !! p = Some m)).
Proof.
  intros Ht Hres Hrun.
  assert (Hreg : reg st1 = reg st).
  { pose proof (requireModule_frame (S fuel) target from st) as Hf.
    rewrite Hrun in Hf. apply Hf. }
  split; [exact Hreg|].
  destruct (instanceCache st !! p) as [m0|] eqn:Hc.
  { rewrite (requireModule_cached _ _ _ _ _ _ _ Ht Hres Hc) in Hrun.
    inversion Hrun; subst. now left. }
  destruct (loadedGlobalsByRealPath st !! p) as [m0|] eqn:Hg.
  { rewrite (requireModule_global _ _ _ _ _ _ _ Ht Hres Hc Hg) in Hrun.
    inversion Hrun; subst. right. now split. }
  left.
  destruct (requireModule_miss_cached _ _ _ _ _ _ _ _ Ht Hres Hc Hg Hrun)
    as [Hin _].
  rewrite (requireModule_miss _ _ _ _ _ _ Ht Hres Hc Hg) in Hrun.
  unfold bind, ret in Hrun.
  destruct (load_with _ _ _ _ _ _) as [[[]|e|] st2]; inversion Hrun; subst.
  exact Hin.
Qed.

(** Requiring a resolved path again returns the instance of the first
    require and changes nothing. *)
Lemma requireModule_again fuel target from st p d m st1
  fuel2 target2 from2 d2 :
  target <> "" ->
  resolve (S fuel) (reg st) target from = Ok (Some (p, d)) ->
  requireModule (S fuel) target from st = (Ok m, st1) ->
  target2 <> "" ->
  resolve (S fuel2) (reg st) target2 from2 = Ok (Some (p, d2)) ->
  requireModule (S fuel2) target2 from2 st1 = (Ok m, st1).
Proof.
  intros Ht Hres Hrun Ht2 Hres2.
  destruct (requireModule_result_cached _ _ _ _ _ _ _ _ Ht Hres Hrun)
    as [Hreg [Hc|[Hc Hg]]].
  - apply (requireModule_cached fuel2 target2 from2 st1 p d2 m Ht2);
      [now rewrite Hreg | exact Hc].
  - apply (requireModule_global fuel2 target2 from2 st1 p d2 m Ht2);
      [now rewrite Hreg | exact Hc | exact Hg].
Qed.

Lemma require_of_requireModule fuel target from st m st1 :
  requireModule fuel target from st = (Ok m, st1) ->
  require fuel target from st = (Ok (exports_of st1 m), st1).
Proof.
  intros H. unfold require, require_with, bind.
  change (call_requireModule (runtime fuel)) with (requireModule fuel).
  now rewrite H.
Qed.

(** A require issued inside a factory for a path whose instance is in the
    cache gets the current [exports] of that instance; no instance and no
    object is created. *)
Lemma instanceRequire_sees_cached fuel st dirname target p d m :
  target <> "" ->
  resolve (S fuel) (reg st) target dirname = Ok (Some (p, d)) ->
  instanceCache st !! p = Some m ->
  JsObject.read (localCache st dirname) target = JsObject.Missing
    \/ JsObject.read (localCache st dirname) target = JsObject.Own m ->
  fst (instanceRequire (runtime (S fuel)) dirname target st)
    = Ok (exports_of st m)
  /\ module_heap (snd (instanceRequire (runtime (S fuel)) dirname target st))
     = module_heap st
  /\ object_heap (snd (instanceRequire (runtime (S fuel)) dirname target st))
     = object_heap st
  /\ instanceCache (snd (instanceRequire (runtime (S fuel)) dirname target st))
     = instanceCache st.
Proof.
  intros Ht Hres Hc Hlocal. unfold instanceRequire, bind.
  destruct Hlocal as [Hl|Hl]; rewrite Hl; [|now repeat split].
  change (call_requireModule (runtime (S fuel)))
    with (requireModule (S fuel)).
  rewrite (requireModule_cached _ _ _ _ _ _ _ Ht Hres Hc).
  now repeat split.
Qed.

Lemma exports_of_set_exports st m v :
  is_Some (module_heap st !! m) ->
  exports_of (set_exports m v st) m = v.
Proof.
  intros [md Hmd]. unfold exports_of, set_exports. simpl.
  now rewrite list_lookup_alter_eq, Hmd.
Qed.

(** A factory that never assigns [module.exports] ends, normally or not,
    with the [exports] object it was started with. *)
Lemma load_with_in_progress_exports fuel st m p body :
  is_Some (module_heap st !! m) ->
  existsb reassigns body = false ->
  exports_of
    (snd (load_with (S fuel) (runtime fuel) m p (DFactory body) st)) m
  = VObject (length (object_heap st)).
Proof.
  intros Hm Hno. unfold load_with.
  unfold bind at 1 2 3 4, modify at 1 2, new_object. cbn [object_heap set_cacheByDirname].
  set (st3 := set_exports m _ _).
  assert (H3 : exports_of st3 m = VObject (length (object_heap st))).
  { subst st3. now apply exports_of_set_exports. }
  assert (Hm3 : is_Some (module_heap st3 !! m)).
  { subst st3. unfold set_exports. simpl.
    destruct Hm as [md Hmd]. rewrite list_lookup_alter_eq, Hmd. simpl. eauto. }
  pose proof (exec_body_keeps_exports (runtime fuel)
    (fun t f => proj1 (runtime_frame fuel) t f) (proj2 (runtime_frame fuel))
    (S fuel) m (length (object_heap st)) (dirname p) body Hno st3)
    as [[_ [_ [_ [_ Hsome]]]] Hkeep].
  destruct (exec_body _ _ _ _ _ _ st3) as [[[]|e|] st4]; simpl in *.
  - unfold modify. simpl.
    destruct (Hsome Hm3) as [md Hmd].
    unfold exports_of, set_loaded. simpl.
    rewrite list_lookup_alter_eq.
    specialize (Hkeep Hm3). unfold exports_of in Hkeep at 1.
    rewrite Hmd in *. simpl. now rewrite Hkeep.
  - now rewrite Hkeep.
  - now rewrite Hkeep.
Qed.

(** C1, counterexample: "/p/a" requires "/p/b", which requires "/p/a"
    back, and "/p/a" then assigns a new object to [module.exports].  What
    "/p/b" observed and stored as [exports.a] is the in-progress object 0;
    what the require of "/p/a" returns is object 2: two requires of the
    same resolved path returned different references. *)
Lemma reassigned_exports_differ_from_the_observed_ones :
  fst (require 4 "/p/a" "/" reassigning_state) = Ok (VObject 2)
  /\ exports_of (snd (require 4 "/p/a" "/" reassigning_state)) 1
    = VObject 1
  /\ (object_heap (snd (require 4 "/p/a" "/" reassigning_state)) !! 1%nat)
       ≫= (fun o => o !! "a")
    = Some (VObject 0)
  /\ VObject 0 <> VObject 2
  /\ length (module_heap (snd (require 4 "/p/a" "/" reassigning_state)))
    = 2%nat.
Proof.
  split; [vm_compute; reflexivity|]. split; [vm_compute; reflexivity|].
  split; [vm_compute; reflexivity|]. split; [discriminate|].
  vm_compute. reflexivity.
Qed.

(** C1 (amended): on a require whose resolution finds a definition for a
    path that is neither cached nor pinned as a global, the new instance is
    put in the cache under the resolved path before [load] runs the
    factory.  Hence a later require of the same resolved path returns that
    same instance without instantiating anything, and with it the
    [exports] the instance has at that moment; so does the [require]
    handed to a factory, when the local cache of its directory holds that
    instance for the target, or nothing at all, inherited members
    included.  Inside a circular require the [exports] are the in-progress
    object, and it is the object the outer require returns provided the
    factory never assigns [module.exports]. *)
Theorem instance_is_cached_before_its_factory_runs :
  forall (fuel : nat) (st : state) (target from p : string) (d : definition),
    target <> "" ->
    resolve (S fuel) (reg st) target from = Ok (Some (p, d)) ->
    (instanceCache st !! p = None ->
     loadedGlobalsByRealPath st !! p = None ->
     instanceCache (precached st p) !! p = Some (length (module_heap st))
     /\ module_heap (precached st p) !! length (module_heap st)
        = Some (mkModule p false VUndefined)
     /\ requireModule (S fuel) target from st
        = (do _ <- load_with (S fuel) (runtime fuel)
                     (length (module_heap st)) p d;
           ret (length (module_heap st))) (precached st p)
     /\ (forall out st', requireModule (S fuel) target from st = (out, st') ->
          instanceCache st' !! p = Some (length (module_heap st)))
     /\ (forall body,
          d = DFactory body ->
          existsb reassigns body = false ->
          exports_of (snd (requireModule (S fuel) target from st))
            (length (module_heap st))
          = VObject (length (object_heap st))))
    /\ (forall m,
        instanceCache st !! p = Some m ->
        requireModule (S fuel) target from st = (Ok m, st)
        /\ require (S fuel) target from st = (Ok (exports_of st m), st)
        /\ (JsObject.read (localCache st from) target = JsObject.Missing
              \/ JsObject.read (localCache st from) target = JsObject.Own m ->
            fst (instanceRequire (runtime (S fuel)) from target st)
              = Ok (exports_of st m)
            /\ module_heap
                 (snd (instanceRequire (runtime (S fuel)) from target st))
               = module_heap st
            /\ instanceCache
                 (snd (instanceRequire (runtime (S fuel)) from target st))
               = instanceCache st))
    /\ (forall m st1,
        requireModule (S fuel) target from st = (Ok m, st1) ->
        require (S fuel) target from st = (Ok (exports_of st1 m), st1)
        /\ forall fuel2 target2 from2 d2,
            target2 <> "" ->
            resolve (S fuel2) (reg st) target2 from2 = Ok (Some (p, d2)) ->
            requireModule (S fuel2) target2 from2 st1 = (Ok m, st1)
            /\ require (S fuel2) target2 from2 st1
               = (Ok (exports_of st1 m), st1)).
Proof.
  intros fuel st target from p d Ht Hres. split; [|split].
  - intros Hc Hg. destruct (precached_lookup st p) as [Hin Hheap].
    pose proof (requireModule_miss _ _ _ _ _ _ Ht Hres Hc Hg) as Hmiss.
    split; [exact Hin|]. split; [exact Hheap|]. split; [exact Hmiss|].
    split.
    { intros out st' Hrun.
      now destruct (requireModule_miss_cached _ _ _ _ _ _ _ _
                      Ht Hres Hc Hg Hrun). }
    intros body -> Hno. rewrite Hmiss.
    pose proof (load_with_in_progress_exports fuel (precached st p)
                  (length (module_heap st)) p body
                  (ex_intro _ _ Hheap) Hno) as Hload.
    unfold bind, ret.
    destruct (load_with _ _ _ _ _ _) as [[[]|e|] st2]; exact Hload.
  - intros m Hc.
    pose proof (requireModule_cached _ _ _ _ _ _ _ Ht Hres Hc) as Hhit.
    split; [exact Hhit|]. split; [now apply require_of_requireModule|].
    intros Hlocal.
    destruct (instanceRequire_sees_cached _ _ _ _ _ _ _ Ht Hres Hc Hlocal)
      as (H1 & H2 & _ & H4).
    now repeat split.
  - intros m st1 Hrun. split; [now apply require_of_requireModule|].
    intros fuel2 target2 from2 d2 Ht2 Hres2.
    pose proof (requireModule_again _ _ _ _ _ _ _ _ _ _ _ _
                  Ht Hres Hrun Ht2 Hres2) as Hagain.
    split; [exact Hagain|]. now apply require_of_requireModule.
Qed.

(** The circular pair whose first module only adds properties to its
    [exports]: the object it ends with is the object its factory started
    with, and it is the one "/p/b" stored as [exports.a]. *)
Lemma circular_require_witness :
  exports_of (snd (requireModule 5 "/p/a" "/" circular_state))
    (length (module_heap circular_state))
  = VObject (length (object_heap circular_state))
  /\ fst (require 5 "/p/a" "/" circular_state) = Ok (VObject 0)
  /\ (object_heap (snd (require 5 "/p/a" "/" circular_state)) !! 1%nat)
       ≫= (fun o => o !! "a")
     = Some (VObject 0)
  /\ (object_heap (snd (require 5 "/p/a" "/" circular_state)) !! 0%nat)
       ≫= (fun o => o !! "y")
     = Some (VString "2")
  /\ length (module_heap (snd (require 5 "/p/a" "/" circular_state)))
     = 2%nat.
Proof.
  split; [|repeat split; vm_compute; reflexivity].
  assert (Ht : "/p/a" <> "") by discriminate.
  destruct (instance_is_cached_before_its_factory_runs 4 circular_state
              "/p/a" "/" "/p/a"
              (DFactory [CExportsSet "x" (VString "1");
                         CExportsSetRequire "b" "./b";
                         CExportsSet "y" (VString "2")])
              Ht eq_refl) as [Hmiss _].
  eapply Hmiss; reflexivity.
Defined.

End LoaderClaims.

(** * Key sequences: the verified property *)
Module KeySequenceClaims.
Import KeySequence.

Lemma occurrences_app key seen k :
  occurrences key (seen ++ [k])
  = (occurrences key seen + (if String.eqb k key then 1 else 0))%N.
Proof.
  induction seen as [|x seen IH]; simpl.
  - lia.
  - rewrite IH. lia.
Qed.

Lemma counts_new : counts new_KeySequence [].
Proof.
  intros k. unfold new_KeySequence. rewrite lookup_empty.
  now destruct (String.eqb k _).
Qed.

(** The key "__proto__" is returned as it is and leaves no trace in a
    table that does not hold it. *)
Lemma c__proto lookup :
  lookup !! "__proto__" = None -> c_ "__proto__" lookup = ("__proto__", lookup).
Proof.
  intros Hnone. unfold c_, JsObject.read, JsObject.write. rewrite Hnone.
  reflexivity.
Qed.

(** What one call returns and leaves for another key. *)
Lemma c__own key lookup :
  key <> "__proto__" ->
  c_ key lookup
  = match lookup !! key with
    | Some (Npos p) =>
        (key +:+ "_" +:+ pretty (Npos p), <[key := (Npos p + 1)%N]> lookup)
    | _ => (key, <[key := 1%N]> lookup)
    end.
Proof.
  intros Hkey. unfold c_, JsObject.read, JsObject.write.
  destruct (lookup !! key) as [[|p]|]; try reflexivity.
  destruct (String.eqb_spec key "__proto__"); [congruence|].
  now destruct (JsObject.inherits key).
Qed.

(** One call returns the key suffixed by the number of earlier occurrences
    and keeps the table in step. *)
Lemma c__counts lookup seen key :
  counts lookup seen ->
  (key <> "__proto__" ->
   fst (c_ key lookup) = suffixed key (occurrences key seen))
  /\ counts (snd (c_ key lookup)) (seen ++ [key]).
Proof.
  intros Hc. destruct (decide (key = "__proto__")) as [->|Hkey].
  - split; [congruence|]. rewrite c__proto by apply (Hc "__proto__").
    cbn [snd]. intros k. rewrite occurrences_app, (Hc k).
    destruct (String.eqb_spec k "__proto__") as [->|Hk]; [reflexivity|].
    destruct (String.eqb_spec "__proto__" k) as [<-|_]; [congruence|].
    now rewrite N.add_0_r.
  - assert (Hkey' : String.eqb key "__proto__" = false)
      by now apply String.eqb_neq.
    rewrite (c__own key lookup Hkey). unfold suffixed.
    pose proof (Hc key) as Hk0. rewrite Hkey' in Hk0. cbn [orb] in Hk0.
    rewrite Hk0.
    destruct (occurrences key seen) as [|p] eqn:E; simpl.
    + split; [reflexivity|]. intros k. rewrite occurrences_app.
      destruct (String.eqb_spec key k) as [->|Hne].
      * rewrite lookup_insert_eq, E, Hkey'. reflexivity.
      * rewrite lookup_insert_ne by assumption. rewrite (Hc k).
        now rewrite N.add_0_r.
    + split; [reflexivity|]. intros k. rewrite occurrences_app.
      destruct (String.eqb_spec key k) as [->|Hne].
      * rewrite lookup_insert_eq, E, Hkey'. cbn [orb].
        destruct (N.pos p + 1 =? 0)%N eqn:E0;
          [apply N.eqb_eq in E0; lia|reflexivity].
      * rewrite lookup_insert_ne by assumption. rewrite (Hc k).
        now rewrite N.add_0_r.
Qed.

Lemma c_all_counts keys : forall lookup seen,
  counts lookup seen ->
  counts (snd (c_all keys lookup)) (seen ++ keys).
Proof.
  induction keys as [|key keys IH]; intros lookup seen Hc; simpl.
  - now rewrite List.app_nil_r.
  - destruct (c__counts lookup seen key Hc) as [_ Hc'].
    destruct (c_ key lookup) as [k lookup1]. simpl in Hc'.
    specialize (IH lookup1 (seen ++ [key])%list Hc').
    destruct (c_all keys lookup1) as [ks lookup2]. simpl in *.
    now rewrite <- List.app_assoc in IH.
Qed.

(** The key "__proto__" is never suffixed: the table is a plain object,
    whose accessor of that name swallows the counter, so the key comes
    back unchanged at every occurrence. *)
Lemma the_key_proto_is_never_suffixed :
  fst (c_all ["__proto__"; "__proto__"; "__proto__"] new_KeySequence)
  = ["__proto__"; "__proto__"; "__proto__"]
  /\ fst (c_all ["__proto__"; "__proto__"; "__proto__"] new_KeySequence)
     <> ["__proto__"; "__proto__" +:+ "_1"; "__proto__" +:+ "_2"].
Proof. split; [reflexivity | discriminate]. Qed.

(** C9 (amended): in every scope, that is for every fresh key sequence
    and whatever keys were generated before, a key other than "__proto__"
    is returned unchanged at its first occurrence and with the suffix "_n"
    at the occurrence that n earlier occurrences precede: "_1" at the
    second, "_2" at the third. *)
Theorem key_sequence_suffixes_repeated_keys :
  forall (earlier : list string) (key : string),
    key <> "__proto__" ->
    fst (c_ key (snd (c_all earlier new_KeySequence)))
    = suffixed key (occurrences key earlier)
    /\ (occurrences key earlier = 0%N ->
        fst (c_ key (snd (c_all earlier new_KeySequence))) = key)
    /\ (occurrences key earlier = 1%N ->
        fst (c_ key (snd (c_all earlier new_KeySequence))) = key +:+ "_1")
    /\ (occurrences key earlier = 2%N ->
        fst (c_ key (snd (c_all earlier new_KeySequence))) = key +:+ "_2")
    /\ fst (c_all [key; key; key] new_KeySequence)
       = [key; key +:+ "_1"; key +:+ "_2"].
Proof.
  intros earlier key Hkey.
  assert (H : fst (c_ key (snd (c_all earlier new_KeySequence)))
              = suffixed key (occurrences key earlier)).
  { apply c__counts; [|exact Hkey].
    apply (c_all_counts earlier new_KeySequence [] counts_new). }
  split; [exact H|]. split; [|split; [|split]].
  - intros E. now rewrite H, E.
  - intros E. now rewrite H, E.
  - intros E. now rewrite H, E.
  - unfold c_all, new_KeySequence. rewrite (c__own key ∅ Hkey).
    rewrite lookup_empty. cbn [fst snd].
    rewrite (c__own key _ Hkey), lookup_insert_eq. cbn [fst snd].
    rewrite (c__own key _ Hkey), lookup_insert_eq. reflexivity.
Qed.

Lemma key_sequence_witness :
  fst (c_ "item" (snd (c_all ["item"; "row"; "item"] new_KeySequence)))
  = "item" +:+ "_2".
Proof.
  apply (key_sequence_suffixes_repeated_keys ["item"; "row"; "item"] "item").
  - discriminate.
  - reflexivity.
Defined.

End KeySequenceClaims.

(** * Facts about plain objects *)
Module JsObjectFacts.
Import JsObject.

Lemma read_own {A} (obj : gmap string A) key a :
  obj !! key = Some a -> read obj key = Own a.
Proof. intros H. unfold read. now rewrite H. Qed.

Lemma read_missing {A} (obj : gmap string A) key :
  obj !! key = None -> inherits key = false -> read obj key = Missing.
Proof. intros H Hi. unfold read. now rewrite H, Hi. Qed.

Lemma write_plain {A} (obj : gmap string A) key (v : A) :
  key <> "__proto__" -> write key v obj = <[key := v]> obj.
Proof.
  intros Hkey. unfold write.
  destruct (obj !! key); [reflexivity|].
  now destruct (String.eqb_spec key "__proto__").
Qed.



(** ** The order of enumeration *)

Lemma forallb_insert_sorted {A} (f : string * A -> bool) n p sorted :
  forallb f (snd <$> insert_sorted n p sorted)
  = f p && forallb f (snd <$> sorted).
Proof.
  induction sorted as [|[m q] sorted IH]; cbn; [reflexivity|].
  destruct (n <? m)%N; cbn; [reflexivity|].
  rewrite IH. now destruct (f p), (f q).
Qed.

(** A test holds of every property in the order of enumeration exactly
    when it holds of every property. *)
Lemma forallb_for_in {A} (f : string * A -> bool) props :
  forallb f (for_in props) = forallb f props.
Proof.
  unfold for_in. rewrite forallb_app.
  induction props as [|p props IH]; [reflexivity|].
  cbn [indexed List.filter forallb].
  destruct (array_index (fst p)) as [n|] eqn:E.
  - rewrite forallb_insert_sorted. cbn. rewrite <- IH.
    now destruct (f p).
  - cbn. rewrite <- IH.
    destruct (f p), (forallb f (snd <$> indexed props)); reflexivity.
Qed.

Lemma for_in_nil {A} : for_in (@nil (string * A)) = [].
Proof. reflexivity. Qed.


Lemma for_in_nil_inv {A} (props : list (string * A)) :
  for_in props = [] -> props = [].
Proof.
  intros H. destruct props as [|p props]; [reflexivity|].
  pose proof (forallb_for_in (fun _ => false) (p :: props)) as Hf.
  rewrite H in Hf. discriminate.
Qed.

(** An assignment to a key other than "__proto__" leaves an own
    property. *)
Lemma write_listed_not_nil {A} key (v : A) props :
  key <> "__proto__" -> write_listed key v props <> [].
Proof.
  intros Hkey. destruct props as [|[k old] props]; cbn.
  - now destruct (String.eqb_spec key "__proto__").
  - now destruct (String.eqb k key).
Qed.

End JsObjectFacts.

(** * Facts about the update manager *)
Module UpdateFacts.
Import UpdateManager.

(** ** Queueing outside of a batch *)

Lemma queueComponentUpdate_unbatched c w :
  batchStack w = [] ->
  queueComponentUpdate c w
  = set_unbatchedQueue (unbatchedQueue w ++ [c]) (scheduleUpdates w).
Proof.
  intros Hb. unfold queueComponentUpdate. rewrite Hb. simpl.
  unfold scheduleUpdates. now destruct (updatesScheduled w).
Qed.

Lemma scheduleUpdates_fields w :
  batchStack (scheduleUpdates w) = batchStack w
  /\ unbatchedQueue (scheduleUpdates w) = unbatchedQueue w
  /\ components (scheduleUpdates w) = components w
  /\ trace (scheduleUpdates w) = trace w
  /\ updatesScheduled (scheduleUpdates w) = true
  /\ ticks (scheduleUpdates w)
     = if updatesScheduled w then ticks w else S (ticks w).
Proof.
  unfold scheduleUpdates. destruct (updatesScheduled w) eqn:E; simpl; auto 10.
Qed.

#[export] Instance schedules_at_most_once_preorder :
  PreOrder schedules_at_most_once.
Proof.
  split.
  - intros w Hb. split; [exact Hb|]. destruct (updatesScheduled w); auto.
  - intros a b c Hab Hbc Ha. destruct (Hab Ha) as [Hb Hs].
    destruct (Hbc Hb) as [Hc Hs']. split; [exact Hc|].
    destruct (updatesScheduled a), (updatesScheduled b);
      intuition (try congruence; try lia).
Qed.

#[export] Instance appends_only_preorder : PreOrder appends_only.
Proof.
  split.
  - intros w Hb. auto.
  - intros a b c Hab Hbc Ha. destruct (Hab Ha) as (Hb & Hp & Ht).
    destruct (Hbc Hb) as (Hc & Hp' & Ht'). repeat split; auto.
    + etransitivity; eauto.
    + congruence.
Qed.

#[export] Instance schedules_at_most_once_quiet : Quiet schedules_at_most_once.
Proof.
  split; [apply _|..].
  - intros cs w Hb. split; [exact Hb|]. simpl.
    destruct (updatesScheduled w); auto.
  - intros c w Hb. rewrite queueComponentUpdate_unbatched by assumption.
    destruct (scheduleUpdates_fields w) as (H1 & H2 & H3 & H4 & H5 & H6).
    cbn [batchStack updatesScheduled ticks set_unbatchedQueue].
    rewrite H1, H5, H6. split; [exact Hb|].
    destruct (updatesScheduled w); auto.
Qed.

#[export] Instance appends_only_quiet : Quiet appends_only.
Proof.
  split; [apply _|..].
  - intros cs w Hb. simpl. auto.
  - intros c w Hb. rewrite queueComponentUpdate_unbatched by assumption.
    destruct (scheduleUpdates_fields w) as (H1 & H2 & H3 & H4 & H5 & H6).
    cbn [batchStack unbatchedQueue trace set_unbatchedQueue].
    rewrite H1, H4. repeat split; auto.
    now apply prefix_app_r.
Qed.

Section Quiet.
Context (R : relation World) `{!Quiet R}.

Lemma quiet_modify_component c f w : R w (modify_component c f w).
Proof. apply quiet_components. Qed.

Lemma quiet_modify_state c f w : R w (modify_state c f w).
Proof. apply quiet_components. Qed.

Lemma quiet__e_ c w : R w (_e_ c w).
Proof.
  unfold _e_. destruct (components w !! c) as [k|]; [|reflexivity].
  destruct (negb (U_ k)); [|reflexivity].
  etransitivity; [apply quiet_modify_component | apply quiet_queue].
Qed.

Lemma quiet__f_ c name v force w : R w (_f_ c name v force w).
Proof.
  unfold _f_. destruct (components w !! c ≫= J_) as [state|]; [|reflexivity].
  destruct (negb force && identical (JsObject.read (_u_ state) name) v);
    [reflexivity|].
  set (w1 := if force then modify_state c _ w else w).
  assert (H1 : R w w1).
  { subst w1. destruct force; [apply quiet_modify_state | reflexivity]. }
  clearbody w1.
  set (w2 := if negb (sV_ state) then _e_ c (modify_state c _ w1) else w1).
  assert (H2 : R w1 w2).
  { subst w2. destruct (negb (sV_ state)); [|reflexivity].
    etransitivity; [apply quiet_modify_state | apply quiet__e_]. }
  clearbody w2.
  transitivity w1; [exact H1|].
  transitivity w2; [exact H2 | apply quiet_modify_state].
Qed.

Lemma quiet_setState c name v w : R w (snd (setState c name v w)).
Proof.
  unfold setState. destruct (components w !! c) as [k|]; [|reflexivity].
  destruct (J_ k); [apply quiet__f_ | reflexivity].
Qed.




Lemma quiet_run_actions actions w : R w (snd (run_actions actions w)).
Proof.
  revert w. induction actions as [|[target name v] actions IH]; intros w;
    simpl; [reflexivity|].
  unfold wbind. pose proof (quiet_setState target name v w) as Hs.
  destruct (setState target name v w) as [[[]|e|] w1]; simpl in *; auto.
  etransitivity; [exact Hs | apply IH].
Qed.

End Quiet.

(** ** One update, outside of any batch *)

Lemma update_calls_app t1 t2 :
  update_calls (t1 ++ t2) = update_calls t1 ++ update_calls t2.
Proof. apply omap_app. Qed.

Lemma appends_only_log e w :
  update_calls [e] = [] -> appends_only w (log e w).
Proof.
  intros He Hb. simpl. rewrite update_calls_app, He, List.app_nil_r. auto.
Qed.

Lemma settles_wret {A} (a : A) : settles (wret a).
Proof. intros w Hb. split; [discriminate | reflexivity]. Qed.

Lemma settles_throw {A} e : settles (fun w => (@Throw A e, w)).
Proof. intros w Hb. split; [discriminate | reflexivity]. Qed.

Lemma settles_wbind {A B} (m : wcomp A) (k : A -> wcomp B) :
  settles m -> (forall a, settles (k a)) -> settles (wbind m k).
Proof.
  intros Hm Hk w Hb. unfold wbind. destruct (Hm w Hb) as [Hne Hr].
  destruct (m w) as [[a|e|] w1]; simpl in *.
  - destruct (Hr Hb) as (Hb1 & _). destruct (Hk a w1 Hb1) as [Hne' Hr'].
    split; [exact Hne'|]. etransitivity; eauto.
  - split; [discriminate | exact Hr].
  - congruence.
Qed.

Lemma settles_wmodify f :
  (forall w, appends_only w (f w)) -> settles (wmodify f).
Proof. intros H w Hb. split; [discriminate | apply H]. Qed.

Lemma settles_setState c name v : settles (setState c name v).
Proof.
  intros w Hb. split; [|apply (quiet_setState appends_only)].
  unfold setState. destruct (components w !! c) as [k|]; [|discriminate].
  destruct (J_ k); discriminate.
Qed.

Lemma settles_run_actions actions : settles (run_actions actions).
Proof.
  induction actions as [|[target name v] actions IH]; simpl.
  - apply settles_wret.
  - apply settles_wbind; [apply settles_setState | intros _; exact IH].
Qed.

Lemma settles_call_handlers c handlers oldState :
  settles (call_handlers c handlers oldState).
Proof.
  induction handlers as [|[name body] handlers IH]; simpl.
  - apply settles_wret.
  - apply settles_wbind.
    + apply settles_wmodify. intros w. now apply appends_only_log.
    + intros _. apply settles_wbind; [apply settles_run_actions|].
      intros _. exact IH.
Qed.

Lemma settles_I_ c : settles (wmodify (I_ c)).
Proof.
  apply settles_wmodify. intros w.
  apply (quiet_modify_component appends_only).
Qed.

Lemma settles_processUpdateHandlers c k changes oldState :
  settles (processUpdateHandlers c k changes oldState).
Proof.
  unfold processUpdateHandlers.
  destruct (collect_handlers k (JsObject.for_in changes))
    as [[|h handlers]|].
  - apply settles_wret.
  - apply settles_wbind; [apply settles_call_handlers|]. intros _.
    apply settles_wbind.
    + apply settles_wmodify. intros w. now apply appends_only_log.
    + intros _. apply settles_wbind; [apply settles_I_|].
      intros _. apply settles_wret.
  - apply settles_wret.
Qed.

Section OneUpdate.
Variable rec : queue_ref -> wcomp unit.

(** The batch that [_m_] opens stays empty: rendering queues nothing. *)
Lemma batchUpdate_render (e : list Component -> event) w :
  batchStack w = [] ->
  batchUpdate_with rec (fun w => (Ok tt, log (e (components w)) w)) w
  = (Ok tt, log (e (components w)) w).
Proof.
  intros Hb. unfold batchUpdate_with. simpl. rewrite Hb. simpl.
  unfold try_finally, wret. simpl.
  destruct w; simpl in *. now subst.
Qed.

Lemma settles__m_ c k : settles (_m_ rec c k).
Proof.
  unfold _m_. destruct (negb (_n_ k)); [apply settles_throw|].
  apply settles_wbind; [|intros _; apply settles_I_].
  intros w Hb.
  rewrite (batchUpdate_render
             (fun cs => EvRender c (option_map _u_ (mbind J_ (cs !! c)))))
    by assumption.
  split; [discriminate|]. now apply appends_only_log.
Qed.

(** An update records its entry into [_w_] and goes on with a settling
    computation. *)
Lemma update_cases c w (P : outcome unit * World -> Prop) :
  batchStack w = [] ->
  (forall (m : wcomp unit) w0,
     settles m ->
     batchStack w0 = [] ->
     unbatchedQueue w0 = unbatchedQueue w ->
     update_calls (trace w0) = update_calls (trace w) ++ [c] ->
     P (m w0)) ->
  P (update rec c w).
Proof.
  intros Hb HP. unfold update. unfold wbind at 1. unfold wmodify at 1.
  cbv beta iota.
  set (w0 := log (EvUpdate c) w).
  assert (Hb0 : batchStack w0 = []) by exact Hb.
  assert (Hq0 : unbatchedQueue w0 = unbatchedQueue w) by reflexivity.
  assert (Ht0 : update_calls (trace w0) = update_calls (trace w) ++ [c]).
  { subst w0. simpl. now rewrite update_calls_app. }
  clearbody w0.
  destruct (components w0 !! c) as [k|].
  2: { apply (HP (fun w => (Throw TypeError, w))); auto using settles_throw. }
  destruct (T_ k || negb (_j_ k)).
  { apply (HP (wret tt)); auto using settles_wret. }
  match goal with
  | |- P (wbind ?M ?K w0) => apply (HP (wbind M K)); auto
  end.
  apply settles_wbind.
  - destruct (J_ k) as [state|]; [|apply settles_wret].
    destruct (negb (V_ k) && sV_ state); [|apply settles_wret].
    apply settles_wbind; [apply settles_processUpdateHandlers|].
    intros [|]; [|apply settles_wret].
    apply settles_wmodify. intros w'.
    apply (quiet_modify_component appends_only).
  - intros _ w' Hb'.
    destruct (components w' !! c) as [k'|];
      [|split; [discriminate | reflexivity]].
    apply settles_wbind; [|intros _; apply settles_I_|exact Hb'].
    destruct (_j_ k' && shouldUpdate k');
      [apply settles__m_ | apply settles_wret].
Qed.

(** An update enters [_w_] once, queues by appending and returns or
    throws. *)
Lemma update_effect c w :
  batchStack w = [] ->
  fst (update rec c w) <> OutOfFuel
  /\ batchStack (snd (update rec c w)) = []
  /\ unbatchedQueue w `prefix_of` unbatchedQueue (snd (update rec c w))
  /\ update_calls (trace (snd (update rec c w)))
     = update_calls (trace w) ++ [c].
Proof.
  intros Hb. pattern (update rec c w). apply update_cases; [exact Hb|].
  intros m w0 Hm Hb0 Hq0 Ht0. destruct (Hm w0 Hb0) as [Hne Hr].
  destruct (Hr Hb0) as (Hb1 & Hp & Ht).
  split; [exact Hne|]. split; [exact Hb1|].
  split; [now rewrite <- Hq0|]. now rewrite Ht.
Qed.

End OneUpdate.

(** ** The loop of [updateComponents] over the unbatched queue *)

Lemma updateComponents_from_S fuel q i w :
  updateComponents_from (S fuel) q i w
  = match queue_at q w !! i with
    | None => (Ok tt, w)
    | Some component =>
        wbind (update (updateComponents fuel) component)
          (fun _ => updateComponents_from fuel q (S i)) w
    end.
Proof. reflexivity. Qed.

(** If the loop returns, the queue it leaves is the one it started with
    followed by what was appended while it ran, and it has entered [_w_]
    for every component of that queue from index [i] on, in order. *)
Lemma updateComponents_from_unbatched fuel : forall i w w',
  batchStack w = [] ->
  updateComponents_from fuel QUnbatched i w = (Ok tt, w') ->
  unbatchedQueue w `prefix_of` unbatchedQueue w'
  /\ update_calls (trace w')
     = update_calls (trace w) ++ drop i (unbatchedQueue w')
  /\ batchStack w' = [].
Proof.
  induction fuel as [|fuel IH]; intros i w w' Hb Hrun; [discriminate|].
  rewrite updateComponents_from_S in Hrun. cbn [queue_at] in Hrun.
  destruct (unbatchedQueue w !! i) as [c|] eqn:Ei.
  - unfold wbind in Hrun.
    destruct (update_effect (updateComponents fuel) c w Hb)
      as (_ & Hb1 & Hp1 & Ht1).
    destruct (update _ c w) as [[[]|e|] w1]; try discriminate.
    simpl in *.
    destruct (IH (S i) w1 w' Hb1 Hrun) as (Hp & Ht & Hb').
    split; [etransitivity; eauto|].
    split; [|auto].
    rewrite Ht, Ht1, <- List.app_assoc. f_equal.
    assert (Hfinal : unbatchedQueue w' !! i = Some c).
    { eapply prefix_lookup_Some; [|exact Hp].
      eapply prefix_lookup_Some; [exact Ei | exact Hp1]. }
    now rewrite (drop_S _ _ _ Hfinal).
  - inversion Hrun; subst. split; [reflexivity|].
    apply lookup_ge_None in Ei. rewrite drop_ge by lia.
    now rewrite List.app_nil_r.
Qed.

End UpdateFacts.

(** * The deferred flush of the update manager *)
Module FlushFacts.
Import UpdateManager UpdateFacts.

(** A flush that returns has walked the queue to its end, has entered
    [_w_] for every component that the queue held by then, has emptied it
    and has reset the flag. *)
Lemma updateUnbatchedComponents_returns fuel w w' :
  batchStack w = [] ->
  unbatchedQueue w <> [] ->
  updateUnbatchedComponents fuel w = (Ok tt, w') ->
  exists w_last,
    updateComponents_from fuel QUnbatched 0 w = (Ok tt, w_last)
    /\ w' = set_updatesScheduled false (set_unbatchedQueue [] w_last)
    /\ unbatchedQueue w `prefix_of` unbatchedQueue w_last
    /\ update_calls (trace w')
       = update_calls (trace w) ++ unbatchedQueue w_last
    /\ batchStack w' = [].
Proof.
  intros Hb Hq Hrun. unfold updateUnbatchedComponents in Hrun.
  destruct (unbatchedQueue w) as [|c q] eqn:Eq; [congruence|].
  unfold try_finally, updateComponents, then_clear, wbind in Hrun.
  destruct (updateComponents_from fuel QUnbatched 0 w) as [[[]|e|] w1] eqn:E;
    try discriminate.
  cbn in Hrun. inversion Hrun; subst w'. clear Hrun.
  destruct (updateComponents_from_unbatched fuel 0 w w1 Hb E)
    as (Hp & Ht & Hb1).
  exists w1. rewrite Eq in Hp. cbn. auto.
Qed.

(** The same, without the world in which the loop ended. *)
Lemma updateUnbatchedComponents_entered fuel w w' :
  batchStack w = [] ->
  unbatchedQueue w <> [] ->
  updateUnbatchedComponents fuel w = (Ok tt, w') ->
  exists final,
    unbatchedQueue w `prefix_of` final
    /\ update_calls (trace w') = update_calls (trace w) ++ final
    /\ unbatchedQueue w' = []
    /\ updatesScheduled w' = false
    /\ batchStack w' = [].
Proof.
  intros Hb Hq Hrun.
  destruct (updateUnbatchedComponents_returns fuel w w' Hb Hq Hrun)
    as (w_last & _ & -> & Hp & Ht & Hb').
  exists (unbatchedQueue w_last). auto.
Qed.

(** The flag is reset when the flush throws, too. *)
Lemma updateUnbatchedComponents_throws fuel w e w' :
  updateUnbatchedComponents fuel w = (Throw e, w') ->
  updatesScheduled w' = false.
Proof.
  unfold updateUnbatchedComponents, try_finally.
  destruct (unbatchedQueue w); [discriminate|].
  destruct (updateComponents fuel QUnbatched w) as [[[]|e'|] w1];
    intros H; inversion H; reflexivity.
Qed.

(** ** Where no handler sets state, the flush ends *)

Lemma no_handlers_inert w : no_handlers w -> inert w.
Proof.
  unfold no_handlers, inert. intros H. eapply Forall_impl; [exact H|].
  intros k Hk name body. rewrite Hk, lookup_empty. discriminate.
Qed.














Lemma collect_handlers_names k : forall changes handlers,
  collect_handlers k changes = Some handlers ->
  fst <$> handlers = fst <$> changes.
Proof.
  induction changes as [|[n v] changes IH]; intros handlers Hcol.
  - cbn in Hcol. now injection Hcol as <-.
  - cbn in Hcol. destruct (update_handlers k !! n) as [body|]; [|discriminate].
    destruct (collect_handlers k changes) as [hs|]; [|discriminate].
    cbn in Hcol. injection Hcol as <-. cbn. f_equal. now apply IH.
Qed.




Section Calm.
Variable rec : queue_ref -> wcomp unit.




End Calm.


End FlushFacts.

(** * One component between two flushes *)
Module CoalesceFacts.
Import UpdateManager JsObjectFacts UpdateFacts FlushFacts.



Lemma changes_set_not_nil n v l :
  n <> "__proto__" -> changes_set n v l <> [].
Proof. apply write_listed_not_nil. Qed.


Section Focused.
Variables (c : nat) (cs : list Component).
Hypothesis Hc : (c < length cs)%nat.

Lemma focused_lookup f q t k tr :
  components (focused c cs f q t k tr) !! c = Some k.
Proof. simpl. now apply list_lookup_insert_eq. Qed.

Lemma focused_modify g f q t k tr :
  modify_component c g (focused c cs f q t k tr)
  = focused c cs f q t (g k) tr.
Proof.
  unfold modify_component, focused, set_components. simpl. f_equal.
  apply list_eq. intros j. destruct (decide (c = j)) as [<-|Hne].
  - rewrite list_lookup_alter_eq, !list_lookup_insert_eq by assumption.
    reflexivity.
  - rewrite list_lookup_alter_ne, !list_lookup_insert_ne by assumption.
    reflexivity.
Qed.


Lemma focused_queue f q t k tr :
  queueComponentUpdate c (focused c cs f q t k tr)
  = focused c cs true (q ++ [c]) (if f then t else S t) k tr.
Proof.
  rewrite queueComponentUpdate_unbatched by reflexivity.
  unfold scheduleUpdates. simpl. now destruct f.
Qed.

Lemma focused_log e f q t k tr :
  log e (focused c cs f q t k tr) = focused c cs f q t k (tr ++ [e]).
Proof. reflexivity. Qed.








Section Render.
Variable rec : queue_ref -> wcomp unit.






End Render.

(** The flush of a queue that holds only [c], given what its update
    does. *)
Lemma run_tick_one fuel f t k tr k' tr' :
  (2 <= fuel)%nat ->
  (forall rec f q t,
     update rec c (focused c cs f q t k tr)
     = (Ok tt, focused c cs f q t k' tr')) ->
  run_tick fuel (focused c cs f [c] (S t) k tr)
  = (Ok tt, focused c cs false [] t k' tr').
Proof.
  intros Hfuel Hupdate.
  destruct fuel as [|[|fuel]]; [lia|lia|].
  change (run_tick (S (S fuel)) (focused c cs f [c] (S t) k tr))
    with (try_finally
            (then_clear QUnbatched
               (updateComponents_from (S (S fuel)) QUnbatched 0))
            (set_updatesScheduled false) (focused c cs f [c] t k tr)).
  unfold try_finally, then_clear. unfold wbind at 1.
  rewrite updateComponents_from_S.
  change (queue_at QUnbatched (focused c cs f [c] t k tr) !! 0%nat)
    with (Some c).
  unfold wbind at 1. rewrite Hupdate.
  rewrite updateComponents_from_S. reflexivity.
Qed.

End Focused.

End CoalesceFacts.

(** * The unbatched queue and its deferred flush *)
Module UpdateClaims.
Import UpdateManager JsObjectFacts UpdateFacts FlushFacts CoalesceFacts
  Scenarios.







(** A handler that sets the state of another component during the flush:
    that component is appended to the queue being walked and updated by the
    same flush. *)
Example flush_updates_components_queued_meanwhile :
  unbatchedQueue (snd (setState 0 "count" (Some "1") forwarding_world))
  = [0%nat]
  /\ fst (run_tick 5 (snd (setState 0 "count" (Some "1") forwarding_world)))
     = Ok tt
  /\ update_calls
       (trace
          (snd (run_tick 5
                  (snd (setState 0 "count" (Some "1") forwarding_world)))))
     = [0%nat; 1%nat]
  /\ unbatchedQueue
       (snd (run_tick 5
               (snd (setState 0 "count" (Some "1") forwarding_world))))
     = [].
Proof. vm_compute. repeat split. Qed.

End UpdateClaims.

(** * The destruction of a component *)
Module DestroyClaims.
Import Lifecycle Scenarios.

(** C8: the component [a] has subscribed to the component [b] with
    [a.subscribeTo(b).once("change", f).on("tick", h)].  [a.destroy()]
    returns, sets the destroyed flag, removes "c0" from the component
    lookup, detaches the three nodes of the root fragment and removes [h];
    a second [destroy] changes nothing.  But the listener of "change" and
    the tracker's own listener of "destroy" are still attached to [b], and
    when [b] emits "change" afterwards, [f] is called. *)
Theorem destroy_leaves_once_listeners_attached :
  destroy 10 0 subscribed = (Ok tt, subscriber_destroyed)
  /\ (T_ <$> (emitters subscriber_destroyed !! 0%nat ≫= component))
     = Some true
  /\ componentLookup subscribed !! "c0" = Some 0%nat
  /\ componentLookup subscriber_destroyed !! "c0" = None
  /\ (parentNode <$> nodes subscriber_destroyed !! 1%nat) = Some None
  /\ (parentNode <$> nodes subscriber_destroyed !! 2%nat) = Some None
  /\ (parentNode <$> nodes subscriber_destroyed !! 3%nat) = Some None
  /\ (detached <$> fragments subscriber_destroyed !! 0%nat) = Some true
  /\ destroy 10 0 subscriber_destroyed = (Ok tt, subscriber_destroyed)
  /\ trace subscriber_destroyed = []
  /\ listenerCount 1 "tick" subscribed = Some 1%nat
  /\ listenerCount 1 "tick" subscriber_destroyed = Some 0%nat
  /\ listenerCount 1 "change" subscribed = Some 1%nat
  /\ listenerCount 1 "change" subscriber_destroyed = Some 1%nat
  /\ listenerCount 1 "destroy" subscriber_destroyed = Some 1%nat
  /\ fst (component_emit 10 1 "change" [AText "x"] subscriber_destroyed)
     = Ok (Some true)
  /\ trace (snd (component_emit 10 1 "change" [AText "x"]
                   subscriber_destroyed))
     = [Called "f" 1 [AText "x"]].
Proof. vm_compute. repeat split. Qed.

End DestroyClaims.

(** * Further properties of the loader *)
Module LoaderExtras.
Import JsString Path Loader JsStringFacts ResolveFacts LoaderFacts
  RequireFacts Scenarios.

(** ** The last dot and the last slash *)

Lemma find_last_char_app c a : forall s i found,
  find_last_char c (a +:+ s) i found
  = find_last_char c s (i + String.length a) (find_last_char c a i found).
Proof.
  induction a as [|x a IH]; intros s i found.
  - rewrite app_nil_l. simpl. now rewrite Nat.add_0_r.
  - rewrite app_cons. simpl. rewrite IH. f_equal. lia.
Qed.

Lemma find_last_char_lacks c s : forall i found,
  lacks c s -> find_last_char c s i found = found.
Proof.
  induction s as [|x s IH]; intros i found Hl; [reflexivity|].
  apply lacks_cons in Hl as [E Hl]. simpl. rewrite E. now apply IH.
Qed.

Lemma find_last_char_bound c s : forall i found,
  found < Z.of_nat i ->
  find_last_char c s i found < Z.of_nat (i + String.length s).
Proof.
  induction s as [|x s IH]; intros i found Hf; simpl.
  - lia.
  - replace (i + S (String.length s))%nat with (S i + String.length s)%nat
      by lia.
    apply IH. destruct (Ascii.eqb x c); lia.
Qed.

Lemma lastIndexOf_lacks c s : lacks c s -> lastIndexOf s c = -1.
Proof. apply find_last_char_lacks. Qed.

Lemma lastIndexOf_bound c s : lastIndexOf s c < len s.
Proof.
  unfold lastIndexOf, len.
  pose proof (find_last_char_bound c s 0 (-1)). simpl in H. lia.
Qed.

(** The last occurrence: nothing behind it is the character. *)
Lemma lastIndexOf_last c a b :
  lacks c b -> lastIndexOf (a +:+ String c b) c = len a.
Proof.
  intros Hb. unfold lastIndexOf. rewrite find_last_char_app. simpl.
  rewrite Ascii.eqb_refl. rewrite find_last_char_lacks by exact Hb.
  reflexivity.
Qed.

(** A tail without the character does not move its last occurrence. *)
Lemma lastIndexOf_app_lacks c a b :
  lacks c b -> lastIndexOf (a +:+ b) c = lastIndexOf a c.
Proof.
  intros Hb. unfold lastIndexOf. rewrite find_last_char_app.
  now apply find_last_char_lacks.
Qed.

Lemma lacks_String c x s :
  Ascii.eqb x c = false -> lacks c s -> lacks c (String x s).
Proof.
  intros E Hs i. simpl. rewrite E. apply Hs.
Qed.

(** X1: [withoutExtension] removes what follows the last dot of the file
    name, and only that: a path whose last segment has no dot is left alone
    ([null]) even when a directory name has one, and of several extensions
    only the last is removed.  [dirname], as [load] computes it, is what
    precedes the last slash, and empty without a slash. *)
Theorem withoutExtension_strips_the_last_extension_of_the_file_name :
  (forall base, lacks "." base -> withoutExtension base = None)
  /\ (forall dir base,
        lacks "." base -> lacks "/" base ->
        withoutExtension (dir +:+ "/" +:+ base) = None)
  /\ (forall stem ext,
        lacks "." ext -> lacks "/" ext ->
        withoutExtension (stem +:+ "." +:+ ext) = Some stem)
  /\ withoutExtension "/a.b/c" = None
  /\ withoutExtension "/a/c.min.js" = Some "/a/c.min"
  /\ (forall dir base,
        lacks "/" base -> dirname (dir +:+ "/" +:+ base) = dir)
  /\ (forall base, lacks "/" base -> dirname base = "").
Proof.
  assert (Hnone : forall dir base,
    lacks "." base -> lacks "/" base ->
    withoutExtension (dir +:+ "/" +:+ base) = None).
  { intros dir base Hdot Hslash. unfold withoutExtension.
    change (dir +:+ "/" +:+ base) with (dir +:+ String "/" base).
    rewrite (lastIndexOf_last "/" dir base Hslash).
    assert (Hd : lastIndexOf (dir +:+ String "/" base) "." = lastIndexOf dir ".").
    { apply lastIndexOf_app_lacks. now apply lacks_String. }
    rewrite Hd. pose proof (lastIndexOf_bound "." dir).
    pose proof (len_nonneg dir).
    destruct (lastIndexOf dir "." =? -1) eqn:E; [reflexivity|].
    replace (len dir =? -1) with false by (symmetry; apply Z.eqb_neq; lia).
    replace (len dir >? lastIndexOf dir ".") with true
      by (symmetry; apply Z.gtb_lt; lia).
    reflexivity. }
  assert (Hsome : forall stem ext,
    lacks "." ext -> lacks "/" ext ->
    withoutExtension (stem +:+ "." +:+ ext) = Some stem).
  { intros stem ext Hdot Hslash. unfold withoutExtension.
    change (stem +:+ "." +:+ ext) with (stem +:+ String "." ext).
    rewrite (lastIndexOf_last "." stem ext Hdot).
    assert (Hs : lastIndexOf (stem +:+ String "." ext) "/"
                 = lastIndexOf stem "/").
    { apply lastIndexOf_app_lacks. now apply lacks_String. }
    rewrite Hs. pose proof (lastIndexOf_bound "/" stem).
    pose proof (len_nonneg stem).
    replace (len stem =? -1) with false by (symmetry; apply Z.eqb_neq; lia).
    replace (lastIndexOf stem "/" >? len stem) with false
      by (symmetry; rewrite Z.gtb_ltb; apply Z.ltb_ge; lia).
    rewrite andb_false_r. cbn [orb].
    now rewrite substring_prefix. }
  split.
  { intros base Hdot. unfold withoutExtension.
    now rewrite (lastIndexOf_lacks "." base Hdot). }
  split; [exact Hnone|]. split; [exact Hsome|].
  split; [reflexivity|]. split; [reflexivity|].
  split.
  - intros dir base Hslash. unfold dirname.
    change (dir +:+ "/" +:+ base) with (dir +:+ String "/" base).
    rewrite (lastIndexOf_last "/" dir base Hslash).
    apply substring_prefix.
  - intros base Hslash. unfold dirname.
    rewrite (lastIndexOf_lacks "/" base Hslash).
    unfold substring, clamp. pose proof (len_nonneg base).
    replace (Z.to_nat (Z.min (Z.max 0 0) (len base))) with 0%nat by lia.
    replace (Z.to_nat (Z.min (Z.max (-1) 0) (len base))) with 0%nat by lia.
    reflexivity.
Qed.

(** ** The loaded flag *)

#[local] Instance keeps_identity_preorder this : PreOrder (keeps_identity this).
Proof.
  pose proof (frame_but_preorder this).
  split.
  - intros st. split; [reflexivity|]. intros md Hmd. eauto.
  - intros a b c [Hab Eab] [Hbc Ebc]. split; [etransitivity; eauto|].
    intros md Hmd. destruct (Eab md Hmd) as (md1 & H1 & Hi1 & Hl1).
    destruct (Ebc md1 H1) as (md2 & H2 & Hi2 & Hl2).
    exists md2. split; [exact H2|]. split; congruence.
Qed.

#[local] Instance keeps_identity_tolerant this : Tolerant (keeps_identity this).
Proof.
  pose proof (frame_but_tolerant this).
  split; [apply _|..]; intros; (split; [|eauto]);
    first [apply tolerant_ready | apply tolerant_runQueue_clear
          | now apply tolerant_runQueue_push
          | apply tolerant_pendingCount | apply tolerant_cacheByDirname
          | apply tolerant_object_heap].
Qed.

Lemma frame_keeps_identity this st st' :
  frame st st' -> keeps_identity this st st'.
Proof.
  intros H. split; [now apply frame_frame_but|].
  destruct H as (_ & _ & _ & H4). intros md Hmd. eauto.
Qed.

Lemma keeps_identity_set_exports this v st :
  keeps_identity this st (set_exports this v st).
Proof.
  split; [apply frame_but_set_exports|].
  intros md Hmd. unfold set_exports. simpl.
  rewrite list_lookup_alter_eq, Hmd. simpl. eauto.
Qed.

Section Loading.
Context (calls : runtime_calls).
Hypothesis calls_requireModule :
  forall target from, respects frame (call_requireModule calls target from).
Hypothesis calls_ready : respects frame (call_ready calls).

(** [load] ends by setting the flag; until then the flag and the id of the
    instance are what they were. *)
Lemma load_with_cases n this filename d st
  (P : outcome unit * state -> Prop) :
  (forall st2, keeps_identity this st st2 -> P (Ok tt, set_loaded this st2)) ->
  (forall e st2, keeps_identity this st st2 -> P (Throw e, st2)) ->
  (forall st2, P (OutOfFuel, st2)) ->
  P (load_with n calls this filename d st).
Proof.
  intros Hok Hthrow Hfuel. unfold load_with. unfold bind at 1.
  match goal with
  | |- context [match ?body st with _ => _ end] =>
      assert (Hbody : respects (keeps_identity this) body)
  end.
  { destruct d as [body|v].
    + apply respects_bind; [apply _| |].
      * apply respects_modify. intros st0. apply tolerant_cacheByDirname.
      * intros _.
        apply respects_bind; [apply _|apply respects_new_object; apply _|].
        intros a. apply respects_bind; [apply _| |].
        -- apply respects_modify. intros st0.
           apply keeps_identity_set_exports.
        -- intros _. apply respects_exec_body; [apply _| | |].
           ++ intros t f st0. apply frame_keeps_identity, calls_requireModule.
           ++ intros st0. apply frame_keeps_identity, calls_ready.
           ++ intros _ v st0. apply keeps_identity_set_exports.
    + apply respects_modify. intros st0. apply keeps_identity_set_exports. }
  specialize (Hbody st).
  match goal with
  | |- context [match ?body st with _ => _ end] =>
      destruct (body st) as [[[]|e|] st2]; simpl in Hbody
  end; auto.
  now apply Hok.
Qed.

End Loading.

(** X3: a require that instantiates a module starts from an instance that
    is in the cache and not loaded.  When it returns, the instance is
    loaded and its id is the resolved path; when the factory throws, the
    instance stays in the cache under the resolved path, with that id and
    still not loaded. *)
Theorem a_new_instance_is_loaded_when_its_factory_returns :
  forall (fuel : nat) (st st' : state) (target from p : string)
         (d : definition) (out : outcome nat),
    target <> "" ->
    resolve (S fuel) (reg st) target from = Ok (Some (p, d)) ->
    instanceCache st !! p = None ->
    loadedGlobalsByRealPath st !! p = None ->
    requireModule (S fuel) target from st = (out, st') ->
    module_heap (precached st p) !! length (module_heap st)
      = Some (mkModule p false VUndefined)
    /\ (forall m, out = Ok m ->
          m = length (module_heap st)
          /\ exists md, module_heap st' !! m = Some md
                        /\ id md = p /\ loaded md = true)
    /\ (forall e, out = Throw e ->
          instanceCache st' !! p = Some (length (module_heap st))
          /\ exists md, module_heap st' !! length (module_heap st) = Some md
                        /\ id md = p /\ loaded md = false).
Proof.
  intros fuel st st' target from p d out Ht Hres Hc Hg Hrun.
  pose proof (requireModule_miss_cached _ _ _ _ _ _ _ _ Ht Hres Hc Hg Hrun)
    as Hcached.
  rewrite (requireModule_miss _ _ _ _ _ _ Ht Hres Hc Hg) in Hrun.
  destruct (precached_lookup st p) as [_ Hheap].
  split; [exact Hheap|].
  revert Hrun. unfold bind.
  pattern (load_with (S fuel) (runtime fuel) (length (module_heap st)) p d
             (precached st p)).
  apply (load_with_cases (runtime fuel)); try apply runtime_frame.
  - intros st2 [_ Hid] Hrun. unfold ret in Hrun.
    inversion Hrun; subst out st'. clear Hrun.
    destruct (Hid _ Hheap) as (md & Hmd & Hi & Hl). split.
    + intros m Hm. inversion Hm; subst m. split; [reflexivity|].
      exists (mkModule (id md) true (exports md)). 
      unfold set_loaded. simpl. rewrite list_lookup_alter_eq, Hmd.
      simpl. auto.
    + intros e He. discriminate.
  - intros e st2 [_ Hid] Hrun. inversion Hrun; subst out st'. clear Hrun.
    destruct (Hid _ Hheap) as (md & Hmd & Hi & Hl). split.
    + intros m Hm. discriminate.
    + intros e' _. split; [apply Hcached|]. exists md. auto.
  - intros st2 Hrun. inversion Hrun; subst out st'.
    split; intros; discriminate.
Qed.

(** The theorem at a module whose factory requires a missing module. *)
Lemma a_new_instance_witness :
  instanceCache (snd (requireModule 3 "/p/a" "/" broken_state)) !! "/p/a"
    = Some 0%nat
  /\ exists md,
       module_heap (snd (requireModule 3 "/p/a" "/" broken_state)) !! 0%nat
         = Some md
       /\ id md = "/p/a" /\ loaded md = false.
Proof.
  destruct (a_new_instance_is_loaded_when_its_factory_returns 2
              broken_state (snd (requireModule 3 "/p/a" "/" broken_state))
              "/p/a" "/" "/p/a" (DFactory [CRequire "./missing"])
              (fst (requireModule 3 "/p/a" "/" broken_state)))
    as (_ & _ & H).
  - discriminate.
  - vm_compute. reflexivity.
  - reflexivity.
  - reflexivity.
  - now destruct (requireModule 3 "/p/a" "/" broken_state).
  - apply (H (moduleNotFoundError "./missing" "/p")).
    vm_compute. reflexivity.
Defined.

(** ** Pending jobs *)

Lemma pending_state st :
  snd (pending st) = set_pendingCount (pendingCount st + 1) (set_ready false st).
Proof. reflexivity. Qed.

Lemma iter_pending k : forall st,
  Nat.iter (S k) (fun s => snd (pending s)) st
  = set_pendingCount (pendingCount st + Z.of_nat (S k)) (set_ready false st).
Proof.
  induction k as [|k IH]; intros st.
  - reflexivity.
  - rewrite Nat.iter_succ.
    rewrite IH, pending_state. destruct st.
    unfold set_pendingCount, set_ready. simpl. f_equal; lia.
Qed.

Lemma onPendingComplete_waits fuel st :
  pendingCount st <> 1 ->
  onPendingComplete fuel st = (Ok tt, set_pendingCount (pendingCount st - 1) st).
Proof.
  intros H. unfold onPendingComplete, onPendingComplete_with, bind, modify.
  simpl. destruct (pendingCount st - 1 =? 0) eqn:E; [lia | reflexivity].
Qed.

Lemma onPendingComplete_opens fuel st :
  pendingCount st = 1 ->
  onPendingComplete fuel st = ready fuel (set_pendingCount 0 st).
Proof.
  intros H. unfold onPendingComplete, onPendingComplete_with, bind, modify.
  simpl. rewrite H. reflexivity.
Qed.

Lemma iter_done fuel st (n : nat) : forall j : nat,
  (j <= n)%nat ->
  Nat.iter j (fun s => snd (onPendingComplete fuel s))
    (set_pendingCount (Z.of_nat (S n)) (set_ready false st))
  = set_pendingCount (Z.of_nat (S n) - Z.of_nat j) (set_ready false st).
Proof.
  induction j as [|j IH]; intros Hj.
  - unfold set_pendingCount. simpl. f_equal; lia.
  - rewrite Nat.iter_succ.
    rewrite IH by lia. rewrite onPendingComplete_waits by (simpl; lia).
    destruct st. unfold set_pendingCount, set_ready. simpl. f_equal; lia.
Qed.

(** X4: jobs started with [pending()] hold the gate closed: while one of
    them is unfinished, completing another only counts down.  The
    completion of the last one is the call of [ready()], which opens the
    gate and drains the run queue, whether or not [ready()] had been called
    before. *)
Theorem the_last_completed_job_calls_ready :
  forall (fuel n : nat) (st : state),
    pendingCount st = 0 ->
    Nat.iter n (fun s => snd (onPendingComplete fuel s))
      (Nat.iter (S n) (fun s => snd (pending s)) st)
    = set_pendingCount 1 (set_ready false st)
    /\ onPendingComplete fuel (set_pendingCount 1 (set_ready false st))
       = ready fuel (set_pendingCount 0 (set_ready false st)).
Proof.
  intros fuel n st H0. split.
  - rewrite iter_pending, H0. rewrite Z.add_0_l.
    rewrite iter_done by lia. unfold set_pendingCount. f_equal; lia.
  - now rewrite onPendingComplete_opens.
Qed.

(** The theorem at the gate scenario: the queued entry points run when the
    only pending job completes, although [ready()] was never called. *)
Lemma the_last_completed_job_witness :
  pendingCount gate_state = 0
  /\ _ready gate_state = false
  /\ fst (onPendingComplete 5
            (Nat.iter 2 (fun s => snd (onPendingComplete 5 s))
               (Nat.iter 3 (fun s => snd (pending s)) gate_state)))
     = Ok tt
  /\ instanceCache
       (snd (onPendingComplete 5
               (Nat.iter 2 (fun s => snd (onPendingComplete 5 s))
                  (Nat.iter 3 (fun s => snd (pending s)) gate_state))))
       !! "/w" = Some 0%nat.
Proof.
  split; [reflexivity|]. split; [reflexivity|].
  destruct (the_last_completed_job_calls_ready 5 2 gate_state eq_refl)
    as [H1 H2].
  rewrite H1, H2. split; vm_compute; reflexivity.
Defined.

End LoaderExtras.

(** * Further properties of the update cycle *)
Module UpdateExtras.
Import UpdateManager JsObjectFacts UpdateFacts FlushFacts CoalesceFacts
  Scenarios.

(** ** A flush that throws *)

(** The loop only appends to the queue, also when an update throws. *)
Lemma updateComponents_from_throws fuel : forall i w e w',
  batchStack w = [] ->
  updateComponents_from fuel QUnbatched i w = (Throw e, w') ->
  unbatchedQueue w `prefix_of` unbatchedQueue w'
  /\ (i < length (unbatchedQueue w'))%nat
  /\ batchStack w' = [].
Proof.
  induction fuel as [|fuel IH]; intros i w e w' Hb Hrun; [discriminate|].
  rewrite updateComponents_from_S in Hrun. cbn [queue_at] in Hrun.
  destruct (unbatchedQueue w !! i) as [c|] eqn:Ei; [|discriminate].
  unfold wbind in Hrun.
  destruct (update_effect (updateComponents fuel) c w Hb)
    as (_ & Hb1 & Hp1 & _).
  destruct (update _ c w) as [[[]|e1|] w1]; simpl in *; try discriminate.
  - destruct (IH (S i) w1 e w' Hb1 Hrun) as (Hp & Hlen & Hb').
    split; [etransitivity; eauto|]. split; [lia | exact Hb'].
  - inversion Hrun; subst e1 w1. split; [exact Hp1|]. split; [|exact Hb1].
    apply lookup_lt_Some in Ei. apply prefix_length in Hp1. lia.
Qed.

(** X5: when an update throws during the flush, the flag is reset but the
    queue is not cleared: every component that was queued is still in it,
    those already updated included.  The next call that marks a component
    dirty schedules a new flush, and that flush, if it returns, enters the
    update of all of them again. *)
Theorem a_throwing_flush_keeps_the_queue :
  forall (fuel : nat) (w w' : World) (e : js_error),
    batchStack w = [] ->
    updateUnbatchedComponents fuel w = (Throw e, w') ->
    unbatchedQueue w `prefix_of` unbatchedQueue w'
    /\ unbatchedQueue w' <> []
    /\ updatesScheduled w' = false
    /\ batchStack w' = []
    /\ (forall c,
          ticks (queueComponentUpdate c w') = S (ticks w')
          /\ unbatchedQueue (queueComponentUpdate c w')
             = unbatchedQueue w' ++ [c])
    /\ (forall fuel' w'',
          updateUnbatchedComponents fuel' w' = (Ok tt, w'') ->
          exists final,
            unbatchedQueue w `prefix_of` final
            /\ update_calls (trace w'') = update_calls (trace w') ++ final).
Proof.
  intros fuel w w' e Hb Hrun.
  pose proof (updateUnbatchedComponents_throws _ _ _ _ Hrun) as Hflag.
  unfold updateUnbatchedComponents in Hrun.
  destruct (unbatchedQueue w) as [|c q] eqn:Eq; [discriminate|].
  unfold try_finally, updateComponents, then_clear, wbind in Hrun.
  destruct (updateComponents_from fuel QUnbatched 0 w) as [[[]|e1|] w1] eqn:E;
    try discriminate.
  inversion Hrun; subst e1 w'. clear Hrun.
  destruct (updateComponents_from_throws fuel 0 w e w1 Hb E)
    as (Hp & Hlen & Hb1).
  rewrite Eq in Hp.
  assert (Hne : unbatchedQueue w1 <> []).
  { intros Hnil. rewrite Hnil in Hlen. simpl in Hlen. lia. }
  split; [exact Hp|]. split; [exact Hne|]. split; [reflexivity|].
  split; [exact Hb1|]. split.
  - intros c'. rewrite queueComponentUpdate_unbatched by exact Hb1.
    unfold scheduleUpdates. simpl. auto.
  - intros fuel' w'' Hrun'.
    destruct (updateUnbatchedComponents_entered fuel'
                (set_updatesScheduled false w1) w'' Hb1 Hne Hrun')
      as (final & Hp' & Ht & _).
    exists final. split; [|exact Ht].
    etransitivity; [exact Hp | exact Hp'].
Qed.

(** The theorem at a component that has no renderer: its update throws. *)
Lemma a_throwing_flush_witness :
  fst (updateUnbatchedComponents 3 rendererless_dirty) = Throw TypeError
  /\ unbatchedQueue rendererless_dirty
     `prefix_of`
     unbatchedQueue (snd (updateUnbatchedComponents 3 rendererless_dirty))
  /\ updatesScheduled (snd (updateUnbatchedComponents 3 rendererless_dirty))
     = false.
Proof.
  split; [vm_compute; reflexivity|].
  destruct (a_throwing_flush_keeps_the_queue 3 rendererless_dirty
              (snd (updateUnbatchedComponents 3 rendererless_dirty))
              TypeError eq_refl)
    as (H1 & _ & H3 & _).
  - vm_compute. reflexivity.
  - split; assumption.
Defined.

(** ** One component, one flush *)

Section OneComponent.
Variables (c : nat) (cs : list Component).
Hypothesis Hc : (c < length cs)%nat.

Lemma forceUpdate_focused f q t k tr :
  U_ k = false ->
  forceUpdate c (focused c cs f q t k tr)
  = focused c cs true (q ++ [c]) (if f then t else S t)
      (with_U_ true (with_V_ true k)) tr.
Proof.
  intros HU. unfold forceUpdate, _e_.
  rewrite (focused_modify c cs Hc), (focused_lookup c cs Hc).
  cbn [U_ with_V_]. rewrite HU. cbn [negb].
  now rewrite (focused_modify c cs Hc), (focused_queue c cs).
Qed.

(** The update of a live component that was forced renders it, whatever its
    state and its handlers are. *)
Lemma update_forced rec f q t k tr :
  V_ k = true ->
  T_ k = false ->
  shouldUpdate k = true ->
  _n_ k = true ->
  update rec c (focused c cs f q t k tr)
  = (Ok tt,
     focused c cs f q t
       (mkComponent (option_map State_I_ (J_ k)) false false false
          (update_handlers k) true true)
       (tr ++ [EvUpdate c; EvRender c (option_map _u_ (J_ k))])).
Proof.
  intros HV HT Hsu Hn.
  unfold update. unfold wbind at 1. unfold wmodify at 1.
  rewrite (focused_log c cs), (focused_lookup c cs Hc).
  unfold _j_. rewrite HT, HV. cbn [orb negb andb].
  unfold wbind at 1.
  assert (Hskip : forall w,
    match J_ k with
    | Some state =>
        if false
        then
          wbind
            (processUpdateHandlers c k (default [] (_k_ state))
               (default ∅ (_l_ state)))
            (fun handled : bool =>
               if handled
               then
                 wmodify
                   (modify_component c
                      (fun k0 : Component =>
                         with_J_
                           (option_map
                              (fun s : State =>
                                 mkStateObj (_u_ s) false (_l_ s) (_k_ s)
                                   (_T_ s))
                              (J_ k0))
                           k0))
               else wret tt)
        else wret tt
    | None => wret tt
    end w = (Ok tt, w)).
  { intros w. now destruct (J_ k). }
  rewrite Hskip. rewrite (focused_lookup c cs Hc), HV, Hsu. cbn [orb andb].
  unfold _m_. rewrite Hn. cbn [negb].
  unfold wbind.
  rewrite (batchUpdate_render rec
             (fun cs => EvRender c (option_map _u_ (mbind J_ (cs !! c)))))
    by reflexivity.
  rewrite (focused_lookup c cs Hc). cbn [mbind option_bind].
  rewrite (focused_log c cs).
  unfold wmodify, I_. rewrite !(focused_modify c cs Hc).
  cbn [J_ T_ update_handlers shouldUpdate _n_].
  rewrite HT, Hsu, Hn.
  rewrite <- List.app_assoc.
  destruct (J_ k) as [st|]; reflexivity.
Qed.





End OneComponent.

(** X6: on a page outside of any batch with nothing queued and no flush
    scheduled, [forceUpdate] on a live component that is not flagged as
    queued, has a renderer and an accepting [shouldUpdate], queues it
    once, however often it is called, and schedules one flush; the flush
    renders it once with the state it has, whether or not that state has
    changed and whatever update handlers the component has; afterwards the
    component is clean. *)
Theorem forceUpdate_renders_once_whatever_the_state :
  forall (fuel c : nat) (cs : list Component) (k : Component)
         (tr : list event),
    (c < length cs)%nat ->
    (2 <= fuel)%nat ->
    U_ k = false ->
    T_ k = false ->
    shouldUpdate k = true ->
    _n_ k = true ->
    forceUpdate c (forceUpdate c (focused c cs false [] 0 k tr))
    = forceUpdate c (focused c cs false [] 0 k tr)
    /\ unbatchedQueue (forceUpdate c (focused c cs false [] 0 k tr)) = [c]
    /\ ticks (forceUpdate c (focused c cs false [] 0 k tr)) = 1%nat
    /\ run_tick fuel (forceUpdate c (focused c cs false [] 0 k tr))
       = (Ok tt,
          focused c cs false [] 0
            (mkComponent (option_map State_I_ (J_ k)) false false false
               (update_handlers k) true true)
            (tr ++ [EvUpdate c; EvRender c (option_map _u_ (J_ k))])).
Proof.
  intros fuel c cs k tr Hc Hfuel HU HT Hsu Hn.
  rewrite (forceUpdate_focused c cs Hc) by exact HU. cbn [app].
  split.
  { unfold forceUpdate, _e_.
    rewrite (focused_modify c cs Hc), (focused_lookup c cs Hc).
    reflexivity. }
  split; [reflexivity|]. split; [reflexivity|].
  apply (run_tick_one c cs Hc); [exact Hfuel|].
  intros rec f q t.
  now rewrite (update_forced c cs Hc) by (try reflexivity; assumption).
Qed.

(** The theorem at the counter with a handler: the handler is bypassed. *)
Lemma forceUpdate_witness :
  run_tick 3 (forceUpdate 0 (focused 0 [handling] false [] 0 handling []))
  = (Ok tt,
     focused 0 [handling] false [] 0 handling
       [EvUpdate 0; EvRender 0 (Some {["count" := "0"]})]).
Proof.
  destruct (forceUpdate_renders_once_whatever_the_state 3 0 [handling]
              handling [] ltac:(simpl; lia) ltac:(lia)
              eq_refl eq_refl eq_refl eq_refl) as (_ & _ & _ & H).
  rewrite H. reflexivity.
Defined.





(** ** Inside a batch *)

Section InBatch.
Variables (c : nat) (cs : list Component).
Hypothesis Hc : (c < length cs)%nat.






End InBatch.



End UpdateExtras.

(** * Event emitters *)
Module EmitterFacts.
Import Lifecycle Scenarios.

Lemma emitter_after_modify ee g w :
  emitters (modify_emitter ee g w) !! ee = g <$> emitters w !! ee.
Proof. unfold modify_emitter. simpl. apply list_lookup_alter_eq. Qed.

Lemma emitter_after_modify_ne ee ee' g w :
  ee <> ee' ->
  emitters (modify_emitter ee g w) !! ee' = emitters w !! ee'.
Proof. intros H. unfold modify_emitter. simpl. now apply list_lookup_alter_ne. Qed.

(** ** What the table of listeners reads *)

Lemma events_at_own events type ls :
  events !! type = Some ls -> events_at events type = Listeners ls.
Proof. intros H. unfold events_at, JsObject.read. now rewrite H. Qed.

(** Under a name that [Object.prototype] does not have, the table reads
    its own properties. *)
Lemma events_at_plain events type :
  JsObject.inherits type = false ->
  events_at events type
  = match events !! type with Some ls => Listeners ls | None => Nothing end.
Proof.
  intros H. unfold events_at, JsObject.read. rewrite H.
  now destruct (events !! type).
Qed.

Lemma plain_not_proto type :
  JsObject.inherits type = false -> type <> "__proto__".
Proof. intros H ->. discriminate. Qed.

Lemma events_at_insert events type ls :
  events_at (<[type := ls]> events) type = Listeners ls.
Proof. apply events_at_own, lookup_insert_eq. Qed.

Lemma events_at_insert_ne events type type' ls :
  type' <> type ->
  events_at (<[type := ls]> events) type' = events_at events type'.
Proof.
  intros Hne. unfold events_at, JsObject.read.
  now rewrite lookup_insert_ne by congruence.
Qed.

Lemma events_at_delete_ne events type type' :
  type' <> type ->
  events_at (delete type events) type' = events_at events type'.
Proof.
  intros Hne. unfold events_at, JsObject.read.
  now rewrite lookup_delete_ne by congruence.
Qed.

Lemma write_events events type (ls : listeners) :
  type <> "__proto__" -> JsObject.write type ls events = <[type := ls]> events.
Proof.
  intros Hne. unfold JsObject.write. destruct (events !! type); [reflexivity|].
  now destruct (String.eqb_spec type "__proto__").
Qed.

(** A write leaves what the table reads under another name. *)
Lemma events_at_write_ne events type type' ls :
  type' <> type ->
  events_at (JsObject.write type ls events) type' = events_at events type'.
Proof.
  intros Hne. unfold JsObject.write.
  destruct (events !! type); [now apply events_at_insert_ne|].
  destruct (String.eqb type "__proto__"); [reflexivity|].
  now apply events_at_insert_ne.
Qed.

Lemma entry_of_emitter ee type w o :
  emitters w !! ee = Some o ->
  entry_of ee type w
  = match e_ o with Some events => events_at events type | None => Nothing end.
Proof. intros Ho. unfold entry_of. now rewrite Ho. Qed.

(** The own entry under a name that [Object.prototype] does not have. *)
Lemma entry_of_plain ee type w o :
  emitters w !! ee = Some o ->
  JsObject.inherits type = false ->
  entry_of ee type w
  = from_option Listeners Nothing (default ∅ (e_ o) !! type).
Proof.
  intros Ho Hi. rewrite (entry_of_emitter ee type w o Ho).
  destruct (e_ o) as [events|]; cbn [default].
  - change (Datatypes.id events) with events.
    rewrite events_at_plain by exact Hi. now destruct (events !! type).
  - now rewrite lookup_empty.
Qed.

Lemma as_list_added f prepend (old : option listeners) :
  as_list (Listeners (added f prepend old))
  = if prepend
    then f :: as_list (from_option Listeners Nothing old)
    else as_list (from_option Listeners Nothing old) ++ [f].
Proof. destruct old as [[l|ls]|], prepend; reflexivity. Qed.

(** What [addListener] does under a name that [Object.prototype] does not
    have. *)
Lemma addListener_plain ee type f prepend w o :
  emitters w !! ee = Some o ->
  JsObject.inherits type = false ->
  addListener ee type (Some f) prepend w
  = (Ok tt,
     modify_emitter ee
       (with_e_
          (Some (<[type := added f prepend (default ∅ (e_ o) !! type)]>
                   (default ∅ (e_ o))))) w).
Proof.
  intros Ho Hi. unfold addListener.
  cbn [checkListener bind ret get]. rewrite Ho. cbn [mbind option_bind].
  rewrite events_at_plain by exact Hi.
  destruct (default ∅ (e_ o) !! type) as [ls|]; unfold modify;
    now rewrite write_events by now apply plain_not_proto.
Qed.

Lemma listeners_of_added ee type f prepend w o :
  emitters w !! ee = Some o ->
  JsObject.inherits type = false ->
  listeners_of ee type (snd (addListener ee type (Some f) prepend w))
  = if prepend then f :: listeners_of ee type w
    else listeners_of ee type w ++ [f].
Proof.
  intros Ho Hi. rewrite (addListener_plain _ _ _ _ _ o Ho Hi). cbn [snd].
  unfold listeners_of.
  rewrite (entry_of_emitter ee type _ (with_e_ (Some _) o))
    by (rewrite emitter_after_modify, Ho; reflexivity).
  cbn [e_ with_e_]. rewrite events_at_insert, as_list_added.
  now rewrite (entry_of_plain ee type w o Ho Hi).
Qed.

(** [addListener] leaves the other types alone. *)
Lemma listeners_of_added_ne ee type type' f prepend w o :
  emitters w !! ee = Some o ->
  JsObject.inherits type = false ->
  JsObject.inherits type' = false ->
  type' <> type ->
  listeners_of ee type' (snd (addListener ee type (Some f) prepend w))
  = listeners_of ee type' w.
Proof.
  intros Ho Hi Hi' Hne. rewrite (addListener_plain _ _ _ _ _ o Ho Hi).
  cbn [snd]. unfold listeners_of.
  rewrite (entry_of_plain ee type' _ (with_e_ (Some _) o))
    by (try assumption; rewrite emitter_after_modify, Ho; reflexivity).
  rewrite (entry_of_plain ee type' w o Ho Hi').
  cbn [e_ with_e_ default].
  change (Datatypes.id ?x) with x.
  now rewrite lookup_insert_ne by congruence.
Qed.

Lemma listeners_of_removed_ne ee type type' f w :
  type' <> type ->
  listeners_of ee type' (removeListener_fn ee type f w)
  = listeners_of ee type' w.
Proof.
  intros Hne. unfold listeners_of, entry_of, removeListener_fn.
  rewrite emitter_after_modify.
  destruct (emitters w !! ee) as [o|]; [|reflexivity].
  cbn [fmap option_fmap option_map mbind option_bind].
  destruct (e_ o) as [events|] eqn:Ee; [|now rewrite Ee].
  destruct (events_at events type) as [[l|ls]| |] eqn:Et.
  - case_bool_decide as Hl.
    + cbn [e_ with_e_ mbind option_bind]. unfold JsObject.remove.
      now rewrite events_at_delete_ne.
    + now rewrite Ee.
  - cbn [e_ with_e_ mbind option_bind].
    now rewrite events_at_write_ne.
  - now rewrite Ee.
  - now rewrite Ee.
Qed.

(** An array of listeners is an own property of the table. *)
Lemma events_at_many events type ls :
  events_at events type = Listeners (Many ls) ->
  events !! type = Some (Many ls).
Proof.
  unfold events_at, JsObject.read.
  destruct (events !! type) as [own|]; [now intros [= ->]|].
  destruct (JsObject.inherits type); [|discriminate].
  destruct (String.eqb type "__proto__"); discriminate.
Qed.

(** What [removeListener] leaves under a type whose name
    [Object.prototype] does not have. *)
Lemma listeners_of_removed ee type f w :
  JsObject.inherits type = false ->
  listeners_of ee type (removeListener_fn ee type f w)
  = without f (listeners_of ee type w).
Proof.
  intros Hi. unfold listeners_of, entry_of, removeListener_fn.
  rewrite emitter_after_modify.
  destruct (emitters w !! ee) as [o|]; [|reflexivity].
  cbn [fmap option_fmap option_map mbind option_bind].
  destruct (e_ o) as [events|] eqn:Ee; [|now rewrite Ee].
  destruct (events_at events type) as [[l|ls]| |] eqn:Et.
  - case_bool_decide as Hl.
    + cbn [e_ with_e_ mbind option_bind as_list without List.filter].
      rewrite bool_decide_eq_true_2 by exact Hl. cbn [negb].
      rewrite events_at_plain by exact Hi. unfold JsObject.remove.
      now rewrite lookup_delete_eq.
    + rewrite Ee. cbn [mbind option_bind]. rewrite Et.
      cbn [as_list without List.filter].
      now rewrite bool_decide_eq_false_2.
  - cbn [e_ with_e_ mbind option_bind].
    rewrite write_events by now apply plain_not_proto.
    now rewrite events_at_insert.
  - rewrite Ee. cbn [mbind option_bind]. now rewrite Et.
  - rewrite Ee. cbn [mbind option_bind]. now rewrite Et.
Qed.

Lemma without_not_in f ls : f ∉ without f ls.
Proof.
  unfold without. intros H. apply list_elem_of_In, filter_In in H as [_ H].
  now rewrite bool_decide_eq_true_2 in H.
Qed.

Lemma without_subset f g ls : g ∈ without f ls -> g ∈ ls.
Proof.
  unfold without. intros H. apply list_elem_of_In, filter_In in H as [H _].
  now apply list_elem_of_In.
Qed.

(** What the table reads after the deletion of an own property. *)
Lemma as_list_deleted events type g :
  g ∈ as_list (events_at (delete type events) type) -> g = FNative type.
Proof.
  unfold events_at, JsObject.read. rewrite lookup_delete_eq.
  destruct (JsObject.inherits type); [|cbn; now intros ?%elem_of_nil].
  destruct (String.eqb type "__proto__"); cbn; [now intros ?%elem_of_nil|].
  now intros ->%list_elem_of_singleton.
Qed.

(** A removal adds no listener, except that the deletion of an own
    property uncovers the function that the table inherits. *)
Lemma removed_subset ee type type' f g w :
  g ∈ listeners_of ee type (removeListener_fn ee type' f w) ->
  g ∈ listeners_of ee type w \/ g = FNative type.
Proof.
  destruct (decide (type = type')) as [<-|Hne];
    [|rewrite listeners_of_removed_ne by exact Hne; auto].
  unfold listeners_of, entry_of, removeListener_fn.
  rewrite emitter_after_modify.
  destruct (emitters w !! ee) as [o|]; [|auto].
  cbn [fmap option_fmap option_map mbind option_bind].
  destruct (e_ o) as [events|] eqn:Ee; [|rewrite Ee; auto].
  destruct (events_at events type) as [[l|ls]| |] eqn:Et.
  - case_bool_decide as Hl; [|rewrite Ee, Et; auto].
    cbn [e_ with_e_]. unfold JsObject.remove.
    intros H. right. now apply (as_list_deleted events type).
  - cbn [e_ with_e_].
    unfold JsObject.write. rewrite (events_at_many _ _ _ Et).
    rewrite events_at_insert. cbn [as_list].
    intros H. left. now apply (without_subset f).
  - rewrite Ee, Et. auto.
  - rewrite Ee, Et. auto.
Qed.

(** After its removal, a function other than the inherited one is not a
    listener of the type. *)
Lemma removed_out ee type f w :
  f <> FNative type ->
  f ∉ listeners_of ee type (removeListener_fn ee type f w).
Proof.
  intros Hf. unfold listeners_of, entry_of, removeListener_fn.
  rewrite emitter_after_modify.
  destruct (emitters w !! ee) as [o|]; [|apply not_elem_of_nil].
  cbn [fmap option_fmap option_map mbind option_bind].
  destruct (e_ o) as [events|] eqn:Ee; [|rewrite Ee; apply not_elem_of_nil].
  destruct (events_at events type) as [[l|ls]| |] eqn:Et.
  - case_bool_decide as Hl.
    + cbn [e_ with_e_]. unfold JsObject.remove.
      intros H. apply Hf. now apply (as_list_deleted events type).
    + rewrite Ee, Et. cbn [as_list].
      intros ->%list_elem_of_singleton. congruence.
  - cbn [e_ with_e_].
    unfold JsObject.write. rewrite (events_at_many _ _ _ Et).
    rewrite events_at_insert. cbn [as_list]. apply without_not_in.
  - rewrite Ee, Et. apply not_elem_of_nil.
  - rewrite Ee, Et. apply not_elem_of_nil.
Qed.

Lemma listenerCount_length ee type w :
  entry_of ee type w <> ThePrototype ->
  listenerCount ee type w = Some (length (listeners_of ee type w)).
Proof.
  unfold listenerCount, listeners_of.
  destruct (entry_of ee type w) as [[l|ls]| |]; try reflexivity. congruence.
Qed.

Lemma entry_of_plain_not_prototype ee type w :
  JsObject.inherits type = false -> entry_of ee type w <> ThePrototype.
Proof.
  intros Hi. unfold entry_of.
  destruct (emitters w !! ee ≫= e_) as [events|]; [|discriminate].
  rewrite events_at_plain by exact Hi. now destruct (events !! type).
Qed.

(** X10: under a type whose name [Object.prototype] does not have, the
    listeners are kept in registration order: [on] puts a function behind
    those registered for the type, [prependListener] before them, and
    [removeListener] takes out every registration of the function, not
    only one; [listenerCount] is the number of registrations.  None of
    the three touches what is registered under another such type, and a
    listener that is not a function is refused with a TypeError that
    leaves the emitter as it was. *)
Theorem listeners_are_kept_in_registration_order :
  forall (w : World) (ee : nat) (o : Emitter) (type : string) (f : fn),
    emitters w !! ee = Some o ->
    JsObject.inherits type = false ->
    listeners_of ee type (snd (on ee type (Some f) w))
    = listeners_of ee type w ++ [f]
    /\ listeners_of ee type (snd (prependListener ee type (Some f) w))
       = f :: listeners_of ee type w
    /\ listeners_of ee type (snd (removeListener ee type (Some f) w))
       = without f (listeners_of ee type w)
    /\ (f ∉ listeners_of ee type (snd (removeListener ee type (Some f) w)))
    /\ (forall type',
          type' <> type ->
          JsObject.inherits type' = false ->
          listeners_of ee type' (snd (on ee type (Some f) w))
          = listeners_of ee type' w
          /\ listeners_of ee type' (snd (prependListener ee type (Some f) w))
             = listeners_of ee type' w
          /\ listeners_of ee type' (snd (removeListener ee type (Some f) w))
             = listeners_of ee type' w)
    /\ listenerCount ee type w = Some (length (listeners_of ee type w))
    /\ listenerCount ee type (snd (on ee type (Some f) w))
       = Some (S (length (listeners_of ee type w)))
    /\ on ee type None w = (Throw (TypeError "Invalid listener"), w)
    /\ once ee type None w = (Throw (TypeError "Invalid listener"), w)
    /\ removeListener ee type None w
       = (Throw (TypeError "Invalid listener"), w).
Proof.
  intros w ee o type f Ho Hi.
  split; [apply (listeners_of_added ee type f false w o Ho Hi)|].
  split; [apply (listeners_of_added ee type f true w o Ho Hi)|].
  assert (Hrem : listeners_of ee type (snd (removeListener ee type (Some f) w))
                 = without f (listeners_of ee type w))
    by now apply listeners_of_removed.
  split; [exact Hrem|].
  split; [rewrite Hrem; apply without_not_in|].
  split.
  { intros type' Hne Hi'.
    split; [now apply (listeners_of_added_ne ee type type' f false w o)|].
    split; [now apply (listeners_of_added_ne ee type type' f true w o)|].
    now apply listeners_of_removed_ne. }
  split.
  { apply listenerCount_length. now apply entry_of_plain_not_prototype. }
  split.
  { rewrite listenerCount_length
      by now apply entry_of_plain_not_prototype.
    unfold on. rewrite (listeners_of_added ee type f false w o Ho Hi).
    rewrite length_app. cbn [length]. f_equal. lia. }
  repeat split.
Qed.

(** The theorem at the second component of the page, on which "tick" is
    registered twice and removed once. *)
Lemma registration_order_witness :
  listeners_of 1 "tick"
    (snd (on 1 "tick" (Some (FUser "h"))
            (snd (on 1 "tick" (Some (FUser "h")) two_components))))
  = [FUser "h"; FUser "h"]
  /\ listeners_of 1 "tick"
       (snd (removeListener 1 "tick" (Some (FUser "h"))
               (snd (on 1 "tick" (Some (FUser "h"))
                       (snd (on 1 "tick" (Some (FUser "h"))
                               two_components))))))
     = [].
Proof.
  destruct (listeners_are_kept_in_registration_order
              (snd (on 1 "tick" (Some (FUser "h"))
                      (snd (on 1 "tick" (Some (FUser "h")) two_components))))
              1 _ "tick" (FUser "h") eq_refl eq_refl)
    as (_ & _ & H & _).
  split; [reflexivity|]. rewrite H. reflexivity.
Defined.

(** What a table of listeners inherits: on a component without listeners
    the type "toString" counts one listener, and [on] puts the function
    behind the inherited one; under "__proto__" the count is undefined,
    [on] throws and [emit] returns [true]. *)
Example inherited_listeners :
  listenerCount 1 "toString" two_components = Some 1%nat
  /\ listeners_of 1 "toString"
       (snd (on 1 "toString" (Some (FUser "h")) two_components))
     = [FNative "toString"; FUser "h"]
  /\ emit 2 1 "toString" [] two_components = (Ok (Some true), two_components)
  /\ listenerCount 1 "__proto__" two_components = None
  /\ on 1 "__proto__" (Some (FUser "h")) two_components
     = (Throw (TypeError "listeners.push is not a function"), two_components)
  /\ emit 2 1 "__proto__" [] two_components
     = (Ok (Some true), two_components).
Proof. repeat split; vm_compute; reflexivity. Qed.

(** ** Emitting *)

Lemma apply_user fuel name this args w :
  apply (S fuel) (FUser name) this args w
  = (Ok tt, log (Called name this args) w).
Proof. reflexivity. Qed.

Lemma for_each_users fuel ee args names : forall w,
  for_each (fun l => apply (S fuel) l ee args) (map FUser names) w
  = (Ok tt, log_all (map (fun n => Called n ee args) names) w).
Proof.
  induction names as [|n names IH]; intros w; [reflexivity|].
  cbn [map for_each]. unfold bind. rewrite apply_user. apply IH.
Qed.

(** X11: [emit] returns nothing for an emitter whose [$e] is unset.
    Otherwise it returns [false] when the table has no entry for the type
    and the type is not the name of a member of [Object.prototype], except
    that for the type "error" it then throws (the first argument if it is
    an error, an Error made from it otherwise); and it returns [true] when
    the table has an entry, also when the array of the type has become
    empty, the functions registered being called in registration order,
    with the emitter as receiver and the arguments of [emit].  For a type
    that names a member of [Object.prototype] and has no entry of its own,
    [emit] calls that member and nothing of the application: it returns
    [true], or throws the TypeError of [__defineGetter__] and
    [__defineSetter__]. *)
Theorem emit_calls_the_listeners_in_registration_order :
  forall (fuel : nat) (w : World) (ee : nat) (type : string)
         (args : list arg),
    (emitters w !! ee ≫= e_ = None -> emit fuel ee type args w = (Ok None, w))
    /\ (forall events,
          emitters w !! ee ≫= e_ = Some events ->
          (events !! type = None ->
           JsObject.inherits type = false ->
           type <> "error" ->
           emit fuel ee type args w = (Ok (Some false), w))
          /\ (events !! "error" = None ->
              emit fuel ee "error" args w = (Throw (unhandled_error args), w))
          /\ (forall names,
                is_Some (events !! type) ->
                listeners_of ee type w = map FUser names ->
                emit (S fuel) ee type args w
                = (Ok (Some true),
                   log_all (map (fun n => Called n ee args) names) w))
          /\ (events !! type = Some (Many []) ->
              emit fuel ee type args w = (Ok (Some true), w))
          /\ (events !! type = None ->
              JsObject.inherits type = true ->
              emit (S fuel) ee type args w
              = (if String.eqb type "__defineGetter__"
                    || String.eqb type "__defineSetter__"
                 then Throw (TypeError
                               ("Object.prototype." +:+ type
                                +:+ ": Expecting function"))
                 else Ok (Some true),
                 w))).
Proof.
  intros fuel w ee type args. split.
  { intros Hnone. unfold emit. now rewrite Hnone. }
  intros events Hev. split; [|split; [|split; [|split]]].
  - intros Hno Hi Herr. unfold emit. rewrite Hev.
    rewrite events_at_plain, Hno by exact Hi.
    destruct (String.eqb_spec type "error"); [contradiction | reflexivity].
  - intros Hno. unfold emit. rewrite Hev.
    rewrite events_at_plain, Hno by reflexivity. reflexivity.
  - intros names [entry Hentry] Hnames. unfold emit. rewrite Hev.
    rewrite (events_at_own _ _ _ Hentry).
    unfold listeners_of, entry_of in Hnames. rewrite Hev in Hnames.
    rewrite (events_at_own _ _ _ Hentry) in Hnames.
    destruct entry as [l|ls]; cbn [as_list] in Hnames.
    + destruct names as [|n [|n' names]]; try discriminate.
      inversion Hnames; subst l. unfold bind. rewrite apply_user.
      reflexivity.
    + subst ls. unfold bind. rewrite for_each_users. reflexivity.
  - intros Hempty. unfold emit. rewrite Hev.
    now rewrite (events_at_own _ _ _ Hempty).
  - intros Hno Hi. unfold emit. rewrite Hev.
    unfold events_at, JsObject.read. rewrite Hno, Hi.
    destruct (String.eqb_spec type "__proto__") as [->|Hne]; [reflexivity|].
    unfold bind. cbn [apply].
    now destruct (String.eqb type "__defineGetter__"
                  || String.eqb type "__defineSetter__").
Qed.

(** ** Listeners that fire once *)

Lemma apply_once fuel cell type this args w :
  apply (S fuel) (FOnceG cell type) this args w
  = (call! _ := removeListener this type (Some (FOnceG cell type)) in
     call! listener := get (fun w => mjoin (cells w !! cell)) in
     match listener with
     | Some l =>
         call! _ := apply fuel l this args in
         modify (set_cells (alter (fun _ => None) cell))
     | None => ret tt
     end) w.
Proof. reflexivity. Qed.

Lemma alter_same {A} (g : A -> A) i (l : list A) x :
  l !! i = Some x -> g x = x -> alter g i l = l.
Proof.
  intros Hl Hg. apply list_eq. intros j.
  destruct (decide (i = j)) as [<-|Hne].
  - rewrite list_lookup_alter_eq, Hl. simpl. now rewrite Hg.
  - now rewrite list_lookup_alter_ne.
Qed.

(** X12: a function of the application registered with [once] for a type
    other than "error" that has no listeners and whose name
    [Object.prototype] does not have is called at the first [emit] of the
    type, with the emitter as receiver and the arguments, and never again:
    after that [emit] the emitter is as it was before [once], and a second
    [emit] finds no listener and returns [false]. *)
Theorem a_once_listener_is_called_once :
  forall (fuel : nat) (w : World) (ee : nat) (events : gmap string listeners)
         (k : option Component) (type f : string) (args : list arg),
    emitters w !! ee = Some (mkEmitter (Some events) k) ->
    events !! type = None ->
    JsObject.inherits type = false ->
    type <> "error" ->
    listeners_of ee type (snd (once ee type (Some (FUser f)) w))
    = [FOnceG (length (cells w)) type]
    /\ emit (S (S fuel)) ee type args (snd (once ee type (Some (FUser f)) w))
       = (Ok (Some true),
          log (Called f ee args) (set_cells (fun cs => cs ++ [None]) w))
    /\ emit (S (S fuel)) ee type args
         (log (Called f ee args) (set_cells (fun cs => cs ++ [None]) w))
       = (Ok (Some false),
          log (Called f ee args) (set_cells (fun cs => cs ++ [None]) w)).
Proof.
  intros fuel w ee events k type f args Ho Hno Hi Herr.
  set (g := FOnceG (length (cells w)) type).
  assert (Hw1 : snd (once ee type (Some (FUser f)) w)
    = modify_emitter ee
        (with_e_ (Some (<[type := One g]> events)))
        (set_cells (fun cs => cs ++ [Some (FUser f)]) w)).
  { unfold once. cbn [checkListener bind ret get modify].
    unfold on.
    rewrite (addListener_plain ee type g false _
               (mkEmitter (Some events) k)) by assumption.
    cbn [snd e_ default]. change (Datatypes.id events) with events.
    now rewrite Hno. }
  rewrite Hw1.
  assert (Hlook : emitters
    (modify_emitter ee (with_e_ (Some (<[type := One g]> events)))
       (set_cells (fun cs => cs ++ [Some (FUser f)]) w)) !! ee
    = Some (mkEmitter (Some (<[type := One g]> events)) k)).
  { rewrite emitter_after_modify. cbn [set_cells emitters]. now rewrite Ho. }
  split.
  { unfold listeners_of. rewrite (entry_of_emitter _ _ _ _ Hlook).
    cbn [e_]. now rewrite events_at_insert. }
  assert (Hback : forall w0,
    emitters w0 !! ee = Some (mkEmitter (Some events) k) ->
    emit (S (S fuel)) ee type args w0 = (Ok (Some false), w0)).
  { intros w0 H0. unfold emit. rewrite H0. cbn [mbind option_bind e_].
    rewrite events_at_plain, Hno by exact Hi.
    destruct (String.eqb_spec type "error"); [contradiction | reflexivity]. }
  split; [|apply Hback; exact Ho].
  unfold emit. rewrite Hlook. cbn [mbind option_bind e_].
  rewrite events_at_insert. unfold bind at 1.
  subst g. rewrite apply_once. set (g := FOnceG (length (cells w)) type).
  unfold bind at 1.
  cbn [removeListener checkListener bind ret modify].
  unfold bind at 1. unfold get at 1.
  assert (Hcell : mjoin (cells (removeListener_fn ee type g
    (modify_emitter ee (with_e_ (Some (<[type := One g]> events)))
       (set_cells (fun cs => cs ++ [Some (FUser f)]) w))) !! length (cells w))
    = Some (FUser f)).
  { cbn [removeListener_fn modify_emitter set_emitters set_cells cells].
    rewrite lookup_app_r by lia. now rewrite Nat.sub_diag. }
  rewrite Hcell. unfold bind at 1. rewrite apply_user.
  unfold modify, ret. f_equal.
  unfold removeListener_fn, modify_emitter, log, set_cells, set_emitters.
  cbn [emitters cells closures wrappers trackers arrays nodes fragments
       componentsByNode componentsByFragment componentLookup trace].
  f_equal.
  - rewrite list_alter_alter_eq. apply (alter_same _ _ _ _ Ho).
    unfold compose. cbn [e_ with_e_ component].
    rewrite events_at_insert.
    rewrite bool_decide_eq_true_2 by reflexivity.
    cbn [with_e_ component]. unfold JsObject.remove.
    rewrite delete_insert_eq. now rewrite delete_id.
  - rewrite alter_app_r_alt by lia. rewrite Nat.sub_diag. reflexivity.
Qed.

(** The theorem at the second component of the page. *)
Lemma a_once_listener_witness :
  fst (emit 2 1 "change" [AText "x"]
         (snd (once 1 "change" (Some (FUser "f")) two_components)))
  = Ok (Some true)
  /\ trace (snd (emit 2 1 "change" [AText "x"]
                   (snd (once 1 "change" (Some (FUser "f"))
                           two_components))))
     = [Called "f" 1 [AText "x"]]
  /\ listeners_of 1 "change"
       (snd (emit 2 1 "change" [AText "x"]
               (snd (once 1 "change" (Some (FUser "f")) two_components))))
     = [].
Proof.
  destruct (a_once_listener_is_called_once 0 two_components 1 ∅
              (Some (mkComponent "c1" false (Some 1%nat) None None None
                       None ∅ ∅))
              "change" "f" [AText "x"] eq_refl eq_refl eq_refl
              ltac:(discriminate)) as (_ & H & _).
  rewrite H. repeat split.
Defined.

End EmitterFacts.

(** * What the destruction of a component keeps *)
Module DestroyFacts.
Import Lifecycle.

Section Respect.
Context (R : relation World) `{!Listening R}.

Lemma ret_respects {A} (a : A) : respects R (ret a).
Proof. intros w. reflexivity. Qed.

Lemma throw_respects {A} e : respects R (@throw A e).
Proof. intros w. reflexivity. Qed.

Lemma bind_respects {A B} (m : M A) (k : A -> M B) :
  respects R m -> (forall a, respects R (k a)) -> respects R (bind m k).
Proof.
  intros Hm Hk w. unfold bind. specialize (Hm w).
  destruct (m w) as [[a|e|] w1]; simpl in *; auto.
  etransitivity; [exact Hm | apply Hk].
Qed.

Lemma modify_respects (f : World -> World) :
  (forall w, R w (f w)) -> respects R (modify f).
Proof. intros H w. apply H. Qed.

Lemma respects_get {A} (f : World -> A) : respects R (get f).
Proof. intros w. reflexivity. Qed.

Lemma respects_for_each {A} (body : A -> M unit) l :
  (forall x, respects R (body x)) -> respects R (for_each body l).
Proof.
  intros Hbody. induction l as [|x l IH]; [apply ret_respects|].
  apply bind_respects; [apply Hbody | intros _; exact IH].
Qed.

Lemma respects_the_component c : respects R (the_component c).
Proof.
  intros w. unfold the_component.
  destruct (emitters w !! c ≫= component); reflexivity.
Qed.

(** *** events-light *)

Lemma steady_removeListener_fn ee type f w :
  R w (removeListener_fn ee type f w).
Proof.
  apply listening_events. intros o. destruct (e_ o) as [events|]; [|reflexivity].
  destruct (events_at events type) as [[l|ls]| |]; try reflexivity.
  now destruct (bool_decide (l = f)).
Qed.

Lemma respects_checkListener l : respects R (checkListener l).
Proof. destruct l; [apply ret_respects | apply throw_respects]. Qed.

Lemma respects_addListener ee type l prepend :
  respects R (addListener ee type l prepend).
Proof.
  apply bind_respects; [apply respects_checkListener|]. intros f.
  apply bind_respects; [apply respects_get|]. intros events.
  destruct (events_at events type) as [ls| |].
  - apply modify_respects. intros w. now apply listening_events.
  - apply bind_respects; [|intros _; apply throw_respects].
    apply modify_respects. intros w. now apply listening_events.
  - apply modify_respects. intros w. now apply listening_events.
Qed.

Lemma respects_once ee type l : respects R (once ee type l).
Proof.
  apply bind_respects; [apply respects_checkListener|]. intros f.
  apply bind_respects; [apply respects_get|]. intros cell.
  apply bind_respects; [|intros _; apply respects_addListener].
  apply modify_respects. intros w. apply listening_cells.
Qed.

Lemma respects_removeListener ee type l :
  respects R (removeListener ee type l).
Proof.
  apply bind_respects; [apply respects_checkListener|]. intros f.
  apply modify_respects. intros w. apply steady_removeListener_fn.
Qed.

(** *** listener-tracker *)

Lemma steady_remove_filter target test tw entries : forall w,
  R w (snd (remove_filter target test tw entries w)).
Proof.
  induction entries as [|entry rest IH]; intros w; [reflexivity|].
  cbn [remove_filter]. destruct (removed_as test tw entry) as [f|].
  - etransitivity; [apply steady_removeListener_fn | apply IH].
  - specialize (IH w).
    destruct (remove_filter target test tw rest w) as [kept w']. exact IH.
Qed.

Lemma steady_modify_wrapper self f w : R w (modify_wrapper self f w).
Proof. apply listening_wrappers. Qed.

Lemma steady_wrapper_remove self test tw w :
  R w (wrapper_remove self test tw w).
Proof.
  unfold wrapper_remove. destruct (wrappers w !! self) as [k|]; [|reflexivity].
  pose proof (steady_remove_filter (w_target k) test tw (w_listeners k) w)
    as Hf.
  destruct (remove_filter (w_target k) test tw (w_listeners k) w)
    as [kept w1]. cbn [snd] in Hf.
  etransitivity; [exact Hf|].
  set (w2 := modify_wrapper self (with_listeners kept) w1).
  assert (H2 : R w1 w2) by apply steady_modify_wrapper.
  clearbody w2. etransitivity; [exact H2|].
  destruct kept; [|reflexivity].
  destruct (w_subscribeTo k) as [t|]; [|reflexivity].
  destruct (trackers w2 !! t) as [array|]; [|reflexivity].
  etransitivity; [apply listening_arrays | apply listening_trackers].
Qed.

Lemma steady_remove_user_listeners target entries w :
  R w (remove_user_listeners target entries w).
Proof.
  unfold remove_user_listeners. generalize (rev entries). intros l.
  revert w. induction l as [|cur l IH]; intros w; [reflexivity|].
  cbn [fold_left].
  etransitivity; [apply steady_removeListener_fn | apply IH].
Qed.

Lemma steady_wrapper_removeAllListeners self event w :
  R w (wrapper_removeAllListeners self event w).
Proof.
  unfold wrapper_removeAllListeners.
  destruct (wrappers w !! self) as [k|]; [|reflexivity].
  assert (Hall : R w (modify_wrapper self (with_listeners [])
                        (remove_user_listeners (w_target k) (w_listeners k) w))).
  { etransitivity; [apply steady_remove_user_listeners|].
    apply steady_modify_wrapper. }
  destruct event as [event|]; [|exact Hall].
  destruct (JsString.truthy event); [apply steady_wrapper_remove | exact Hall].
Qed.

Lemma steady_subscribe_destroy_listener wrapper array target w :
  R w (subscribe_destroy_listener wrapper array target w).
Proof.
  unfold subscribe_destroy_listener.
  set (w1 := wrapper_removeAllListeners wrapper None w).
  assert (H1 : R w w1) by apply steady_wrapper_removeAllListeners.
  clearbody w1. etransitivity; [exact H1|].
  destruct (last_index_of_target _ _ _ _); [apply listening_arrays | reflexivity].
Qed.

Lemma steady_tracker_removeAllListeners self target event w :
  R w (tracker_removeAllListeners self target event w).
Proof.
  unfold tracker_removeAllListeners.
  destruct (trackers w !! self) as [array|]; [|reflexivity].
  destruct target as [target|].
  - destruct (last_index_of_target _ _ _ _) as [i|]; [|reflexivity].
    destruct (_ !! i) as [cur|]; [|reflexivity].
    set (w1 := wrapper_removeAllListeners cur event w).
    assert (H1 : R w w1) by apply steady_wrapper_removeAllListeners.
    clearbody w1. etransitivity; [exact H1|].
    destruct (wrappers w1 !! cur ≫= _) as [[|]|]; try reflexivity.
    apply listening_arrays.
  - etransitivity; [|apply listening_arrays].
    generalize (rev (default [] (arrays w !! array))). intros l.
    revert w. induction l as [|cur l IH]; intros w; [reflexivity|].
    cbn [fold_left].
    etransitivity; [apply steady_wrapper_removeAllListeners | apply IH].
Qed.

(** *** Calls *)

Lemma respects_apply fuel : forall f this args,
  respects R (apply fuel f this args).
Proof.
  induction fuel as [|fuel IH]; intros f this args; [intros w; reflexivity|].
  destruct f as [name|cell type|closure self listener|wrapper array target
                 |name];
    cbn [apply].
  5: { destruct (_ || _); [apply throw_respects | apply ret_respects]. }
  - apply modify_respects. intros w. apply listening_log.
  - apply bind_respects; [apply respects_removeListener|]. intros _.
    apply bind_respects; [apply respects_get|]. intros [l|];
      [|apply ret_respects].
    apply bind_respects; [apply IH|]. intros _.
    apply modify_respects. intros w. apply listening_cells.
  - apply bind_respects; [|intros _; apply IH].
    apply modify_respects. intros w. apply steady_wrapper_remove.
  - apply modify_respects. intros w.
    apply steady_subscribe_destroy_listener.
Qed.

Lemma respects_emit fuel ee type args : respects R (emit fuel ee type args).
Proof.
  intros w. unfold emit.
  destruct (emitters w !! ee ≫= e_) as [events|]; [|reflexivity].
  destruct (events_at events type) as [[l|ls]| |].
  - apply bind_respects; [apply respects_apply | intros _; apply ret_respects].
  - apply bind_respects; [|intros _; apply ret_respects].
    apply respects_for_each. intros l. apply respects_apply.
  - reflexivity.
  - destruct (String.eqb type "error"); reflexivity.
Qed.

Lemma respects_handleCustomEvent c name args extra :
  respects R (handleCustomEventWithMethodListener c name args extra).
Proof.
  apply bind_respects; [apply respects_the_component|]. intros k.
  apply bind_respects; [apply respects_get|]. intros [target|];
    [|apply throw_respects].
  apply bind_respects; [apply respects_the_component|]. intros t.
  destruct (bool_decide _); [|apply throw_respects].
  apply modify_respects. intros w. apply listening_log.
Qed.

Lemma respects_component_emit fuel c type args :
  respects R (component_emit fuel c type args).
Proof.
  apply bind_respects; [apply respects_the_component|]. intros k.
  apply bind_respects.
  - destruct (O_ k) as [customEvents|]; [|apply ret_respects].
    destruct (JsObject.read customEvents type) as [target|name|];
      [|apply respects_handleCustomEvent|apply ret_respects].
    apply bind_respects; [apply respects_handleCustomEvent|]. intros _.
    destruct (isOnce target); [|apply ret_respects].
    apply modify_respects. intros w.
    apply (listening_O_ c
             (fun k => option_map (JsObject.remove type) (O_ k))).
  - intros _. apply bind_respects; [apply respects_get|].
    intros [[|count]|]; try apply ret_respects. apply respects_emit.
Qed.

Lemma respects_emitLifecycleEvent fuel c type a1 a2 :
  respects R (emitLifecycleEvent fuel c type a1 a2).
Proof.
  apply bind_respects; [apply respects_the_component|]. intros k.
  apply bind_respects.
  - destruct (lifecycleEventMethods type) as [m|]; [|apply ret_respects].
    destruct (bool_decide _); [|apply ret_respects].
    apply modify_respects. intros w. apply listening_log.
  - intros _. apply bind_respects; [apply respects_component_emit|].
    intros _. apply ret_respects.
Qed.

Section Destroying.
Context `{!Steady R}.

Lemma respects__b_ c : respects R (_b_ c).
Proof.
  apply bind_respects; [apply respects_the_component|]. intros k.
  destruct (M_ k) as [handles|]; [|apply ret_respects].
  apply bind_respects.
  - apply respects_for_each. intros h. apply modify_respects.
    intros w. apply listening_log.
  - intros _. apply modify_respects. intros w. apply steady_M_.
Qed.

(** The part of [___] that follows the setting of the flag. *)
Lemma respects_after_flag c :
  respects R
    (call! k := the_component c in
     call! _ :=
       match K_ k with
       | Some root => modify (set_componentsByFragment (delete root))
       | None => throw (TypeError "Invalid value used as weak map key")
       end in
     call! _ := modify (modify_component c (with_K_ None)) in
     call! _ := _b_ c in
     call! k := the_component c in
     match L_ k with
     | Some subscriptions =>
         call! _ :=
           modify (tracker_removeAllListeners subscriptions None None) in
         modify (modify_component c (with_L_ None))
     | None => ret tt
     end).
Proof.
  apply bind_respects; [apply respects_the_component|]. intros k.
  apply bind_respects.
  { destruct (K_ k); [|apply throw_respects].
    apply modify_respects. intros w. apply steady_componentsByFragment. }
  intros _. apply bind_respects.
  { apply modify_respects. intros w. apply steady_K_. }
  intros _. apply bind_respects; [apply respects__b_|]. intros _.
  apply bind_respects; [apply respects_the_component|]. intros k'.
  destruct (L_ k') as [t|]; [|apply ret_respects].
  apply bind_respects.
  { apply modify_respects. intros w. apply steady_tracker_removeAllListeners. }
  intros _. apply modify_respects. intros w. apply steady_L_.
Qed.

Lemma respects____ fuel c : respects R (___ fuel c).
Proof.
  apply bind_respects; [apply respects_the_component|]. intros k.
  destruct (T_ k); [apply ret_respects|].
  apply bind_respects; [apply respects_emitLifecycleEvent|]. intros _.
  apply bind_respects.
  { apply modify_respects. intros w. apply steady_T_. }
  intros _. apply respects_after_flag.
Qed.

Lemma respects_destroyComponentForNode fuel node :
  respects R (destroyComponentForNode fuel node).
Proof.
  apply bind_respects; [apply respects_get|]. intros [c|];
    [|apply ret_respects].
  apply bind_respects; [apply respects____|]. intros _.
  apply bind_respects; [apply respects_the_component|]. intros k.
  apply modify_respects. intros w. apply steady_componentLookup.
Qed.

Lemma respects_destroyNodeRecursive fuel : forall node,
  respects R (destroyNodeRecursive fuel node).
Proof.
  induction fuel as [|fuel IH]; intros node; [intros w; reflexivity|].
  cbn [destroyNodeRecursive].
  apply bind_respects; [apply respects_destroyComponentForNode|]. intros _.
  apply bind_respects; [apply respects_get|]. intros [n|];
    [|apply throw_respects].
  destruct ((nodeType n =? 1) || (nodeType n =? 12)); [|apply ret_respects].
  apply respects_for_each. exact IH.
Qed.

Lemma respects_fragment_nodes root : respects R (fragment_nodes root).
Proof.
  intros w. unfold fragment_nodes.
  destruct (fragments w !! root); reflexivity.
Qed.

Section Nodes.
Context `{!TouchesNodes R}.

Lemma respects_removeChild node : respects R (removeChild node).
Proof.
  intros w. unfold removeChild.
  destruct (nodes w !! node ≫= parentNode); [|reflexivity].
  apply steady_nodes.
Qed.

(** The loop of [destroy] over the nodes of the root. *)
Lemma respects_destroy_nodes fuel ns :
  respects R
    (for_each (fun node =>
       call! _ := destroyNodeRecursive fuel node in
       removeChild node) ns).
Proof.
  apply respects_for_each. intros node.
  apply bind_respects; [apply respects_destroyNodeRecursive|].
  intros _. apply respects_removeChild.
Qed.

Section Fragments.
Context `{!TouchesFragments R}.

(** The part of [destroy] that follows [___]. *)
Lemma respects_after____ fuel c root :
  respects R
    (call! nodes := fragment_nodes root in
     call! _ :=
       for_each (fun node =>
         call! _ := destroyNodeRecursive fuel node in
         removeChild node) nodes in
     call! _ :=
       modify (set_fragments (alter (fun f =>
         mkFragment (startNode f) (endNode f) (detachedContainer f) true)
         root)) in
     call! k := the_component c in
     call! _ := modify (set_componentLookup (delete (id k))) in
     modify (modify_component c (with_m_ ∅))).
Proof.
  apply bind_respects; [apply respects_fragment_nodes|]. intros ns.
  apply bind_respects; [apply respects_destroy_nodes|].
  intros _. apply bind_respects.
  { apply modify_respects. intros w. apply steady_fragments. }
  intros _. apply bind_respects; [apply respects_the_component|]. intros k.
  apply bind_respects.
  { apply modify_respects. intros w. apply steady_componentLookup. }
  intros _. apply modify_respects. intros w. apply steady_m_.
Qed.

Lemma respects_destroy fuel c : respects R (destroy fuel c).
Proof.
  apply bind_respects; [apply respects_the_component|]. intros k.
  destruct (T_ k); [apply ret_respects|].
  apply bind_respects; [apply respects____|]. intros _.
  destruct (K_ k) as [root|]; [|apply throw_respects].
  apply respects_after____.
Qed.

End Fragments.
End Nodes.
End Destroying.
End Respect.

End DestroyFacts.

(** * The destruction of a component, in general *)
Module DestroyExtras.
Import Lifecycle EmitterFacts DestroyFacts Scenarios.

Lemma component_at_modify_emitter c ee g w :
  (forall o, component (g o) = component o) ->
  component_at c (modify_emitter ee g w) = component_at c w.
Proof.
  intros Hg. unfold component_at. destruct (decide (ee = c)) as [->|Hne].
  - rewrite emitter_after_modify.
    destruct (emitters w !! c) as [o|]; [|reflexivity].
    cbn. apply Hg.
  - now rewrite emitter_after_modify_ne.
Qed.

Lemma component_at_modify_component_eq c f w :
  component_at c (modify_component c f w) = f <$> component_at c w.
Proof.
  unfold component_at, modify_component. rewrite emitter_after_modify.
  destruct (emitters w !! c) as [o|]; [|reflexivity].
  cbn. now destruct (component o).
Qed.

Lemma component_at_modify_component_ne c c' f w :
  c <> c' ->
  component_at c (modify_component c' f w) = component_at c w.
Proof.
  intros Hne. unfold component_at, modify_component.
  rewrite emitter_after_modify_ne by congruence. reflexivity.
Qed.

(** What the writes of the destruction do to a component. *)
Lemma component_after_write c c' f w k :
  component_at c w = Some k ->
  component_at c (modify_component c' f w)
  = Some (if decide (c = c') then f k else k).
Proof.
  intros Hk. destruct (decide (c = c')) as [<-|Hne].
  - now rewrite component_at_modify_component_eq, Hk.
  - now rewrite component_at_modify_component_ne.
Qed.

#[export] Instance destroyed_for_good_preorder c :
  PreOrder (destroyed_for_good c).
Proof.
  split.
  - intros w k Hk HT. exists k. auto 10.
  - intros a b d Hab Hbd k Hk HT.
    destruct (Hab k Hk HT) as (k1 & H1 & HT1 & Hi1 & HK1 & HL1 & HM1).
    destruct (Hbd k1 H1 HT1) as (k2 & H2 & HT2 & Hi2 & HK2 & HL2 & HM2).
    exists k2. repeat split; auto; congruence.
Qed.

Ltac same_component :=
  unfold destroyed_for_good; intros;
  match goal with
  | Hk : component_at _ _ = Some ?k |- _ => exists k; auto 10
  end.

Ltac written_component c c' :=
  unfold destroyed_for_good; intros;
  match goal with
  | Hk : component_at _ _ = Some ?k |- _ =>
      eexists; split; [apply (component_after_write c c' _ _ k Hk)|];
      destruct (decide (c = c')); cbn; auto 10
  end.

#[export] Instance destroyed_for_good_listening c :
  Listening (destroyed_for_good c).
Proof.
  split; [apply _|..]; try solve [same_component].
  - intros ee g w Hg k Hk HT. exists k.
    rewrite component_at_modify_emitter by assumption. auto 10.
  - intros c0 g w. written_component c c0.
Qed.

#[export] Instance destroyed_for_good_steady c : Steady (destroyed_for_good c).
Proof.
  split; [apply _|..]; try solve [same_component].
  - intros c0 w. written_component c c0.
  - intros c0 w. written_component c c0.
  - intros c0 w. written_component c c0.
  - intros c0 w. written_component c c0.
  - intros c0 w. written_component c c0.
Qed.

#[export] Instance destroyed_for_good_nodes c :
  TouchesNodes (destroyed_for_good c).
Proof. intros node parent w. same_component. Qed.

#[export] Instance destroyed_for_good_fragments c :
  TouchesFragments (destroyed_for_good c).
Proof. intros f w. same_component. Qed.

#[export] Instance registers_nothing_preorder : PreOrder registers_nothing.
Proof.
  split.
  - intros w. repeat split; auto. intros c k Hk. eauto.
  - intros a b d (H1 & H2 & H3 & H4) (H1' & H2' & H3' & H4').
    repeat split; try (etransitivity; eassumption).
    intros c k Hk. destruct (H4 c k Hk) as (k1 & Hk1 & Hi1).
    destruct (H4' c k1 Hk1) as (k2 & Hk2 & Hi2).
    exists k2. split; [exact Hk2 | congruence].
Qed.

Ltac nothing_registered :=
  repeat split; cbn; auto; try apply delete_subseteq; eauto.

Ltac component_written c :=
  repeat split; auto;
  let c' := fresh "c" in
  let k := fresh "k" in
  let Hk := fresh "Hk" in
  intros c' k Hk; eexists; split;
  [apply (component_after_write c' c _ _ k Hk)|];
  now destruct (decide (c' = c)).

#[export] Instance registers_nothing_listening : Listening registers_nothing.
Proof.
  split; [apply _|..]; try solve [intros; nothing_registered].
  - intros ee g w Hg. repeat split; auto. intros c k Hk. exists k.
    rewrite component_at_modify_emitter by assumption. auto.
  - intros c g w. component_written c.
Qed.

#[export] Instance registers_nothing_steady : Steady registers_nothing.
Proof.
  split; [apply _|..]; try solve [intros; nothing_registered].
  - intros c w. component_written c.
  - intros c w. component_written c.
  - intros c w. component_written c.
  - intros c w. component_written c.
  - intros c w. component_written c.
Qed.

#[export] Instance registers_nothing_nodes : TouchesNodes registers_nothing.
Proof. intros node parent w. nothing_registered. Qed.

#[export] Instance registers_nothing_fragments :
  TouchesFragments registers_nothing.
Proof. intros f w. nothing_registered. Qed.

#[export] Instance keeps_nodes_preorder : PreOrder keeps_nodes.
Proof.
  split; [intros w; reflexivity|].
  intros a b d H1 H2. unfold keeps_nodes in *. congruence.
Qed.

#[export] Instance keeps_nodes_listening : Listening keeps_nodes.
Proof. split; [apply _|..]; intros; reflexivity. Qed.

#[export] Instance keeps_nodes_steady : Steady keeps_nodes.
Proof. split; [apply _|..]; intros; reflexivity. Qed.

#[export] Instance keeps_nodes_fragments : TouchesFragments keeps_nodes.
Proof. intros f w. reflexivity. Qed.

#[export] Instance keeps_fragments_preorder : PreOrder keeps_fragments.
Proof.
  split; [intros w; reflexivity|].
  intros a b d H1 H2. unfold keeps_fragments in *. congruence.
Qed.

#[export] Instance keeps_fragments_listening : Listening keeps_fragments.
Proof. split; [apply _|..]; intros; reflexivity. Qed.

#[export] Instance keeps_fragments_steady : Steady keeps_fragments.
Proof. split; [apply _|..]; intros; reflexivity. Qed.

#[export] Instance keeps_fragments_nodes : TouchesNodes keeps_fragments.
Proof. intros node parent w. reflexivity. Qed.

#[export] Instance detaches_only_preorder : PreOrder detaches_only.
Proof.
  split; [intros w; split; auto|].
  intros a b d [L1 H1] [L2 H2]. split; [congruence | auto].
Qed.

#[export] Instance detaches_only_listening : Listening detaches_only.
Proof. split; [apply _|..]; intros; split; auto. Qed.

#[export] Instance detaches_only_steady : Steady detaches_only.
Proof. split; [apply _|..]; intros; split; auto. Qed.

#[export] Instance detaches_only_fragments : TouchesFragments detaches_only.
Proof. intros f w. split; auto. Qed.

#[export] Instance detaches_only_nodes : TouchesNodes detaches_only.
Proof.
  intros node parent w. split.
  - cbn. now rewrite !length_alter.
  - intros n Hn. unfold parent_of in *. cbn.
    destruct (decide (n = node)) as [->|Hne].
    + rewrite list_lookup_alter_eq.
      now destruct (alter _ parent (nodes w) !! node).
    + rewrite list_lookup_alter_ne by congruence.
      destruct (decide (n = parent)) as [->|Hne'].
      * rewrite list_lookup_alter_eq.
        destruct (nodes w !! parent); [exact Hn | reflexivity].
      * now rewrite list_lookup_alter_ne by congruence.
Qed.

#[export] Instance keeps_component_preorder c : PreOrder (keeps_component c).
Proof.
  split.
  - intros w k Hk. exists k. auto 10.
  - intros a b d Hab Hbd k Hk.
    destruct (Hab k Hk) as (k1 & H1 & E1).
    destruct (Hbd k1 H1) as (k2 & H2 & E2).
    exists k2. split; [exact H2|].
    destruct E1 as (?&?&?&?&?&?&?), E2 as (?&?&?&?&?&?&?).
    repeat split; congruence.
Qed.

#[export] Instance keeps_component_listening c : Listening (keeps_component c).
Proof.
  split; [apply _|..];
    try solve [unfold keeps_component; intros;
               match goal with
               | Hk : component_at _ _ = Some ?k |- _ => exists k; auto 10
               end].
  - intros ee g w Hg k Hk. exists k.
    rewrite component_at_modify_emitter by assumption. auto 10.
  - intros c0 g w k Hk. eexists. split;
      [apply (component_after_write c c0 _ _ k Hk)|].
    destruct (decide (c = c0)); cbn; auto 10.
Qed.

#[export] Instance keeps_lookup_preorder : PreOrder keeps_lookup.
Proof.
  split; [intros w; reflexivity|].
  intros a b d H1 H2. unfold keeps_lookup in *. congruence.
Qed.

#[export] Instance keeps_lookup_listening : Listening keeps_lookup.
Proof. split; [apply _|..]; intros; reflexivity. Qed.

End DestroyExtras.

(** * What a destruction that returns has done *)
Module DestroyPost.
Import Lifecycle EmitterFacts DestroyFacts DestroyExtras Scenarios.

Lemma ensures_ret {A} (a : A) w (Q : A -> World -> Prop) :
  Q a w -> ensures (ret a) w Q.
Proof. intros H. exact H. Qed.

Lemma ensures_throw {A} e w (Q : A -> World -> Prop) :
  ensures (throw e) w Q.
Proof. exact I. Qed.

Lemma ensures_bind {A B} (m : M A) (k : A -> M B) w
  (Q : B -> World -> Prop) :
  ensures m w (fun a w1 => ensures (k a) w1 Q) -> ensures (bind m k) w Q.
Proof.
  unfold ensures, bind. destruct (m w) as [[a|e|] w1]; auto.
Qed.

Lemma ensures_modify f w (Q : unit -> World -> Prop) :
  Q tt (f w) -> ensures (modify f) w Q.
Proof. intros H. exact H. Qed.

Lemma ensures_get {A} (f : World -> A) w (Q : A -> World -> Prop) :
  Q (f w) w -> ensures (get f) w Q.
Proof. intros H. exact H. Qed.

Lemma ensures_the_component c w (Q : Component -> World -> Prop) :
  (forall k, component_at c w = Some k -> Q k w) ->
  ensures (the_component c) w Q.
Proof.
  intros H. unfold ensures, the_component. fold (component_at c w).
  destruct (component_at c w) as [k|]; auto.
Qed.

Lemma ensures_respects {A} (R1 R2 : relation World) (m : M A) w
  (Q : A -> World -> Prop) :
  respects R1 m -> respects R2 m ->
  (forall a w', R1 w w' -> R2 w w' -> Q a w') ->
  ensures m w Q.
Proof.
  intros H1 H2 HQ. unfold ensures. specialize (H1 w). specialize (H2 w).
  destruct (m w) as [[a|e|] w1]; auto.
Qed.

Lemma ensures_elim {A} (m : M A) w (Q : A -> World -> Prop) a w' :
  ensures m w Q -> m w = (Ok a, w') -> Q a w'.
Proof. unfold ensures. intros H E. now rewrite E in H. Qed.

Lemma _b__ensures c w k :
  component_at c w = Some k ->
  ensures (_b_ c) w (fun _ w' =>
    registers_nothing w w'
    /\ exists k',
         component_at c w' = Some k'
         /\ M_ k' = None /\ T_ k' = T_ k /\ id k' = id k /\ K_ k' = K_ k
         /\ L_ k' = L_ k).
Proof.
  intros Hk. unfold _b_. apply ensures_bind, ensures_the_component.
  intros k0 Hk0. rewrite Hk in Hk0. inversion Hk0; subst k0. clear Hk0.
  destruct (M_ k) as [handles|] eqn:HM.
  - apply ensures_bind.
    apply (ensures_respects (keeps_component c) registers_nothing).
    + apply respects_for_each; [apply _|]. intros h.
      apply modify_respects. intros w0. apply listening_log.
    + apply respects_for_each; [apply _|]. intros h.
      apply modify_respects. intros w0. apply listening_log.
    + intros _ w1 Hkeep Hreg. apply ensures_modify.
      destruct (Hkeep k Hk) as (k1 & Hk1 & Hi & HT & HK & HL & _).
      split.
      * etransitivity; [exact Hreg | apply steady_M_].
      * exists (with_M_ None k1).
        rewrite component_at_modify_component_eq, Hk1. cbn. auto 10.
  - apply ensures_ret. split; [reflexivity|]. exists k. auto 10.
Qed.

Lemma ____ensures fuel c w k :
  component_at c w = Some k ->
  T_ k = false ->
  ensures (___ fuel c) w (fun _ w1 =>
    cleared c k w1
    /\ exists root, K_ k = Some root /\ componentsByFragment w1 !! root = None).
Proof.
  intros Hk HT. unfold ___. apply ensures_bind, ensures_the_component.
  intros k0 Hk0. rewrite Hk in Hk0. inversion Hk0; subst k0. clear Hk0.
  rewrite HT. apply ensures_bind.
  apply (ensures_respects (keeps_component c) (keeps_component c));
    try apply respects_emitLifecycleEvent; try apply _.
  intros _ wa Hkeep _.
  destruct (Hkeep k Hk) as (ka & Hka & Hia & HTa & HKa & HLa & HMa & _).
  apply ensures_bind, ensures_modify.
  apply ensures_bind, ensures_the_component. intros k2 Hk2.
  rewrite component_at_modify_component_eq, Hka in Hk2.
  inversion Hk2; subst k2. clear Hk2. cbn [K_ with_T_].
  destruct (K_ ka) as [root|] eqn:HKroot;
    [|apply ensures_bind, ensures_throw].
  apply ensures_bind, ensures_modify. apply ensures_bind, ensures_modify.
  set (wd := modify_component c (with_K_ None)
               (set_componentsByFragment (delete root)
                  (modify_component c (with_T_ true) wa))).
  assert (Hkd : component_at c wd
                = Some (with_K_ None (with_T_ true ka))).
  { subst wd. rewrite component_at_modify_component_eq.
    change (component_at c (set_componentsByFragment (delete root)
                              (modify_component c (with_T_ true) wa)))
      with (component_at c (modify_component c (with_T_ true) wa)).
    now rewrite component_at_modify_component_eq, Hka. }
  assert (Hroot : componentsByFragment wd !! root = None).
  { subst wd. cbn. apply lookup_delete_eq. }
  clearbody wd.
  apply ensures_bind.
  pose proof (_b__ensures c wd _ Hkd) as Hb.
  unfold ensures in Hb |- *. destruct (_b_ c wd) as [[[]|e|] we]; auto.
  destruct Hb as (Hreg & ke & Hke & HMe & HTe & Hie & HKe & HLe).
  cbn [T_ id K_ L_ with_K_ with_T_] in HTe, Hie, HKe, HLe.
  assert (Hroot_e : componentsByFragment we !! root = None).
  { destruct Hreg as (_ & Hsub & _). eapply lookup_weaken_None; eauto. }
  change (ensures
    (call! k := the_component c in
     match L_ k with
     | Some subscriptions =>
         call! _ :=
           modify (tracker_removeAllListeners subscriptions None None) in
         modify (modify_component c (with_L_ None))
     | None => ret tt
     end) we
    (fun _ w1 =>
       cleared c k w1
       /\ exists root0, K_ k = Some root0
                        /\ componentsByFragment w1 !! root0 = None)).
  apply ensures_bind, ensures_the_component. intros k3 Hk3.
  rewrite Hke in Hk3. inversion Hk3; subst k3. clear Hk3.
  destruct (L_ ke) as [t|] eqn:HLt.
  - apply ensures_bind, ensures_modify, ensures_modify.
    pose proof (steady_tracker_removeAllListeners (keeps_component c)
                  t None None we) as Hkeep2.
    pose proof (steady_tracker_removeAllListeners registers_nothing
                  t None None we) as Hreg2.
    destruct (Hkeep2 ke Hke) as (kf & Hkf & Hif & HTf & HKf & HLf & HMf & _).
    split.
    + exists (with_L_ None kf).
      rewrite component_at_modify_component_eq, Hkf. cbn.
      repeat split; congruence.
    + exists root. split; [congruence|].
      destruct Hreg2 as (_ & Hsub & _).
      change (componentsByFragment
                (modify_component c (with_L_ None)
                   (tracker_removeAllListeners t None None we)))
        with (componentsByFragment
                (tracker_removeAllListeners t None None we)).
      eapply lookup_weaken_None; eauto.
  - apply ensures_ret. split.
    + exists ke. repeat split; congruence.
    + exists root. split; [congruence | exact Hroot_e].
Qed.

Lemma fragment_nodes_keeps root w :
  snd (fragment_nodes root w) = w.
Proof.
  unfold fragment_nodes. now destruct (fragments w !! root).
Qed.

Lemma fragment_nodes_same root w w1 :
  keeps_nodes w w1 ->
  keeps_fragments w w1 ->
  fst (fragment_nodes root w1) = fst (fragment_nodes root w).
Proof.
  unfold keeps_nodes, keeps_fragments, fragment_nodes, siblings_from.
  intros -> ->. now destruct (fragments w !! root).
Qed.

Lemma fragment_nodes_some root w ns w' :
  fragment_nodes root w = (Ok ns, w') -> is_Some (fragments w !! root).
Proof.
  unfold fragment_nodes. destruct (fragments w !! root); [eauto|].
  discriminate.
Qed.

Lemma removeChild_detaches node w :
  ensures (removeChild node) w (fun _ w' => parent_of node w' = None).
Proof.
  unfold ensures, removeChild.
  destruct (nodes w !! node ≫= parentNode) as [parent|] eqn:Hp; [|exact I].
  unfold parent_of. cbn. rewrite list_lookup_alter_eq.
  now destruct (alter _ parent (nodes w) !! node).
Qed.

(** The loop of [destroy] leaves no node of the list with a parent. *)
Lemma destroy_nodes_detaches fuel ns : forall w,
  ensures
    (for_each (fun node =>
       call! _ := destroyNodeRecursive fuel node in
       removeChild node) ns) w
    (fun _ w' => forall n, n ∈ ns -> parent_of n w' = None).
Proof.
  induction ns as [|x ns IH]; intros w.
  - apply ensures_ret. intros n Hn. inversion Hn.
  - cbn [for_each]. apply ensures_bind, ensures_bind.
    unfold ensures at 1.
    destruct (destroyNodeRecursive fuel x w) as [[[]|e|] wa]; auto.
    pose proof (removeChild_detaches x wa) as Hx.
    unfold ensures in Hx |- *.
    destruct (removeChild x wa) as [[[]|e|] wb]; auto.
    pose proof (IH wb) as Hrest. unfold ensures in Hrest.
    pose proof (respects_destroy_nodes detaches_only fuel ns wb) as Hkeep.
    destruct (for_each _ ns wb) as [[[]|e|] wc]; auto.
    cbn [snd] in Hkeep. intros n Hn.
    apply elem_of_cons in Hn as [->|Hn]; [|auto].
    now apply Hkeep.
Qed.

Lemma destroy_ensures fuel c w k :
  component_at c w = Some k ->
  T_ k = false ->
  ensures (destroy fuel c) w (fun _ w' => destroyed c k w w').
Proof.
  intros Hk HT. unfold destroy. apply ensures_bind, ensures_the_component.
  intros k0 Hk0. rewrite Hk in Hk0. inversion Hk0; subst k0. clear Hk0.
  rewrite HT. apply ensures_bind.
  pose proof (____ensures fuel c w k Hk HT) as H1.
  pose proof (respects____ keeps_nodes fuel c w) as H2.
  pose proof (respects____ keeps_fragments fuel c w) as H3.
  unfold ensures in H1 |- *.
  destruct (___ fuel c w) as [[[]|e|] w1]; auto. cbn [snd] in H2, H3.
  destruct H1 as ((k1 & Hk1 & HT1 & Hi1 & HK1 & HL1 & HM1)
                  & root & HKroot & Hroot1).
  rewrite HKroot.
  change (ensures
    (call! nodes := fragment_nodes root in
     call! _ :=
       for_each (fun node =>
         call! _ := destroyNodeRecursive fuel node in
         removeChild node) nodes in
     call! _ :=
       modify (set_fragments (alter (fun f =>
         mkFragment (startNode f) (endNode f) (detachedContainer f) true)
         root)) in
     call! k := the_component c in
     call! _ := modify (set_componentLookup (delete (id k))) in
     modify (modify_component c (with_m_ ∅))) w1
    (fun _ w' => destroyed c k w w')).
  apply ensures_bind.
  pose proof (fragment_nodes_same root w w1 H2 H3) as Hsame.
  pose proof (fragment_nodes_keeps root w1) as Hkeep1.
  pose proof (fragment_nodes_keeps root w) as Hkeep0.
  unfold ensures at 1.
  destruct (fragment_nodes root w1) as [[ns|e|] w1'] eqn:Hns; auto.
  cbn [fst snd] in Hsame, Hkeep1. subst w1'.
  assert (Hns0 : fragment_nodes root w = (Ok ns, w)).
  { destruct (fragment_nodes root w) as [o w0]. cbn in Hsame, Hkeep0.
    congruence. }
  destruct (fragment_nodes_some _ _ _ _ Hns) as [f1 Hf1].
  apply ensures_bind.
  pose proof (destroy_nodes_detaches fuel ns w1) as Hdet.
  pose proof (respects_destroy_nodes (destroyed_for_good c) fuel ns w1)
    as Hgood.
  pose proof (respects_destroy_nodes registers_nothing fuel ns w1) as Hreg.
  pose proof (respects_destroy_nodes keeps_fragments fuel ns w1) as Hfrag.
  unfold ensures in Hdet |- *.
  destruct (for_each _ ns w1) as [[[]|e|] w2]; auto.
  cbn [snd] in Hgood, Hreg, Hfrag.
  destruct (Hgood k1 Hk1 HT1) as (k2 & Hk2 & HT2 & Hi2 & HK2 & HL2 & HM2).
  change ((fun w' =>
    match
      (call! k := the_component c in
       call! _ := modify (set_componentLookup (delete (id k))) in
       modify (modify_component c (with_m_ ∅))) w'
    with
    | (Ok _, w'') => destroyed c k w w''
    | _ => True
    end)
    (set_fragments (alter (fun f =>
       mkFragment (startNode f) (endNode f) (detachedContainer f) true)
       root) w2)).
  set (w3 := set_fragments _ w2).
  assert (Hk3 : component_at c w3 = Some k2) by exact Hk2.
  assert (Hf3 : fragments w3 !! root
                = Some (mkFragment (startNode f1) (endNode f1)
                          (detachedContainer f1) true)).
  { subst w3. cbn. rewrite list_lookup_alter_eq.
    unfold keeps_fragments in Hfrag. now rewrite Hfrag, Hf1. }
  assert (Hroot3 : componentsByFragment w3 !! root = None).
  { destruct Hreg as (_ & Hsub & _). subst w3. cbn.
    eapply lookup_weaken_None; eauto. }
  assert (Hdet3 : forall n, n ∈ ns -> parent_of n w3 = None) by exact Hdet.
  clearbody w3. cbv beta.
  unfold bind, the_component at 1. fold (component_at c w3). rewrite Hk3.
  cbn [modify].
  exists root, (mkFragment (startNode f1) (endNode f1)
                  (detachedContainer f1) true), ns, (with_m_ ∅ k2).
  split; [exact HKroot|]. split; [exact Hns0|].
  split.
  { rewrite component_at_modify_component_eq.
    change (component_at c (set_componentLookup (delete (id k2)) w3))
      with (component_at c w3).
    now rewrite Hk3. }
  split.
  { cbn. repeat split; auto; congruence. }
  split.
  { cbn. replace (id k) with (id k2) by congruence. apply lookup_delete_eq. }
  split; [exact Hroot3|]. split; [exact Hf3|]. split; [reflexivity|].
  exact Hdet3.
Qed.

End DestroyPost.

(** * The destruction of a component: what a caller can rely on *)
Module DestroyTheorems.
Import Lifecycle EmitterFacts DestroyFacts DestroyExtras DestroyPost Scenarios.

(** X13: whatever its outcome, [destroy] registers nothing and revives
    nothing: the component lookup and the map from fragments to components
    only lose entries, every component is still one with the id it had, and
    a component that was destroyed before the call still is after it. *)
Theorem destroy_registers_nothing_and_revives_nothing fuel c other w :
  registers_nothing w (snd (destroy fuel c w))
  /\ destroyed_for_good other w (snd (destroy fuel c w)).
Proof.
  split.
  - apply (respects_destroy registers_nothing).
  - apply (respects_destroy (destroyed_for_good other)).
Qed.

Lemma destroy_destroyed fuel c w k :
  component_at c w = Some k -> T_ k = true -> destroy fuel c w = (Ok tt, w).
Proof.
  intros Hk HT. unfold destroy, bind, the_component.
  fold (component_at c w). now rewrite Hk, HT.
Qed.

(** X14: when [destroy] returns for a live component, the component is
    flagged destroyed, has no root, no subscriptions, no DOM listener
    handles and no keyed elements left, and neither its id nor its root
    leads to it any more. *)
Theorem a_destroyed_component_is_unregistered fuel c w w' k :
  component_at c w = Some k ->
  T_ k = false ->
  destroy fuel c w = (Ok tt, w') ->
  exists k',
    component_at c w' = Some k'
    /\ T_ k' = true /\ id k' = id k
    /\ K_ k' = None /\ L_ k' = None /\ M_ k' = None /\ m_ k' = ∅
    /\ componentLookup w' !! id k = None
    /\ exists root,
         K_ k = Some root /\ componentsByFragment w' !! root = None.
Proof.
  intros Hk HT Hrun.
  pose proof (ensures_elim _ _ _ _ _ (destroy_ensures fuel c w k Hk HT) Hrun)
    as (root & f & ns & k' & HK & _ & Hk' & (H1 & H2 & H3 & H4 & H5 & H6)
        & Hlookup & Hroot & _).
  exists k'. repeat split; auto. exists root. auto.
Qed.

Lemma a_destroyed_component_witness :
  exists k',
    component_at 0 subscriber_destroyed = Some k'
    /\ T_ k' = true /\ id k' = "c0"
    /\ K_ k' = None /\ L_ k' = None /\ M_ k' = None /\ m_ k' = ∅
    /\ componentLookup subscriber_destroyed !! "c0" = None
    /\ exists root,
         Some 0%nat = Some root
         /\ componentsByFragment subscriber_destroyed !! root = None.
Proof.
  apply (a_destroyed_component_is_unregistered 10 0 subscribed
           subscriber_destroyed
           (mkComponent "c0" false (Some 0%nat) (Some 0%nat) None None None
              ∅ ∅)).
  - vm_compute. reflexivity.
  - reflexivity.
  - vm_compute. reflexivity.
Defined.

(** X15: when [destroy] returns for a live component, the root fragment is
    flagged detached and none of the nodes it had, from the start marker to
    the end marker, has a parent. *)
Theorem destroy_detaches_the_nodes_of_the_root fuel c w w' k :
  component_at c w = Some k ->
  T_ k = false ->
  destroy fuel c w = (Ok tt, w') ->
  exists root f ns,
    K_ k = Some root
    /\ fragment_nodes root w = (Ok ns, w)
    /\ fragments w' !! root = Some f
    /\ detached f = true
    /\ forall n, n ∈ ns -> parent_of n w' = None.
Proof.
  intros Hk HT Hrun.
  pose proof (ensures_elim _ _ _ _ _ (destroy_ensures fuel c w k Hk HT) Hrun)
    as (root & f & ns & k' & HK & Hns & _ & _ & _ & _ & Hf & Hd & Hdet).
  exists root, f, ns. auto.
Qed.

Lemma destroy_detaches_witness :
  exists root f ns,
    Some 0%nat = Some root
    /\ fragment_nodes root subscribed = (Ok ns, subscribed)
    /\ fragments subscriber_destroyed !! root = Some f
    /\ detached f = true
    /\ forall n, n ∈ ns -> parent_of n subscriber_destroyed = None.
Proof.
  apply (destroy_detaches_the_nodes_of_the_root 10 0 subscribed
           subscriber_destroyed
           (mkComponent "c0" false (Some 0%nat) (Some 0%nat) None None None
              ∅ ∅)).
  - vm_compute. reflexivity.
  - reflexivity.
  - vm_compute. reflexivity.
Defined.

(** X16: a second [destroy] of a component does nothing: once [destroy]
    has returned for a component, destroying it again returns at once and
    leaves the page as it is. *)
Theorem a_second_destroy_does_nothing fuel fuel' c w w' k :
  component_at c w = Some k ->
  destroy fuel c w = (Ok tt, w') ->
  destroy fuel' c w' = (Ok tt, w').
Proof.
  intros Hk Hrun. destruct (T_ k) eqn:HT.
  - rewrite (destroy_destroyed fuel c w k Hk HT) in Hrun.
    inversion Hrun; subst w'. exact (destroy_destroyed fuel' c w k Hk HT).
  - pose proof (ensures_elim _ _ _ _ _ (destroy_ensures fuel c w k Hk HT)
                  Hrun)
      as (root & f & ns & k' & _ & _ & Hk' & (HT' & _) & _).
    exact (destroy_destroyed fuel' c w' k' Hk' HT').
Qed.

Lemma a_second_destroy_witness :
  destroy 0 0 subscriber_destroyed = (Ok tt, subscriber_destroyed).
Proof.
  apply (a_second_destroy_does_nothing 10 0 0 subscribed subscriber_destroyed
           (mkComponent "c0" false (Some 0%nat) (Some 0%nat) None None None
              ∅ ∅)).
  - vm_compute. reflexivity.
  - vm_compute. reflexivity.
Defined.

Lemma ____unmounted fuel c w k :
  component_at c w = Some k ->
  T_ k = false ->
  K_ k = None ->
  fst (emitLifecycleEvent fuel c "destroy" AUndefined AUndefined w) = Ok tt ->
  ___ fuel c w
  = (Throw (TypeError "Invalid value used as weak map key"),
     modify_component c (with_T_ true)
       (snd (emitLifecycleEvent fuel c "destroy" AUndefined AUndefined w))).
Proof.
  intros Hk HT HK Hemit.
  pose proof (respects_emitLifecycleEvent (keeps_component c) fuel c
                "destroy" AUndefined AUndefined w) as Hkeep.
  destruct (Hkeep k Hk) as (k1 & Hk1 & _ & _ & HK1 & _).
  unfold ___, bind at 1, the_component at 1. fold (component_at c w).
  rewrite Hk, HT. unfold bind at 1.
  destruct (emitLifecycleEvent fuel c "destroy" AUndefined AUndefined w)
    as [o w1]. cbn [fst snd] in *. subst o.
  unfold bind at 1. cbn [modify]. unfold bind at 1, the_component at 1.
  fold (component_at c (modify_component c (with_T_ true) w1)).
  rewrite component_at_modify_component_eq, Hk1. cbn [fmap option_fmap option_map K_ with_T_].
  rewrite HK1, HK. reflexivity.
Qed.

(** X17: destroying a component that has no root fails half way: if its
    destroy listeners return, [destroy] throws a TypeError, and by then the
    component is flagged destroyed although its subscriptions, its DOM
    listener handles and its entry in the component lookup are all still
    there; a later [destroy] returns at once without removing them. *)
Theorem destroying_an_unmounted_component_fails_half_way fuel c w k :
  component_at c w = Some k ->
  T_ k = false ->
  K_ k = None ->
  fst (emitLifecycleEvent fuel c "destroy" AUndefined AUndefined w) = Ok tt ->
  exists message w' k',
    destroy fuel c w = (Throw (TypeError message), w')
    /\ component_at c w' = Some k'
    /\ T_ k' = true /\ L_ k' = L_ k /\ M_ k' = M_ k
    /\ componentLookup w' = componentLookup w
    /\ forall fuel', destroy fuel' c w' = (Ok tt, w').
Proof.
  intros Hk HT HK Hemit.
  pose proof (respects_emitLifecycleEvent (keeps_component c) fuel c
                "destroy" AUndefined AUndefined w) as Hkeep.
  pose proof (respects_emitLifecycleEvent keeps_lookup fuel c
                "destroy" AUndefined AUndefined w) as Hlookup.
  destruct (Hkeep k Hk) as (k1 & Hk1 & _ & _ & _ & HL1 & HM1 & _).
  set (w1 := snd (emitLifecycleEvent fuel c "destroy" AUndefined AUndefined
                    w)) in *.
  assert (Hk' : component_at c (modify_component c (with_T_ true) w1)
                = Some (with_T_ true k1))
    by now rewrite component_at_modify_component_eq, Hk1.
  exists "Invalid value used as weak map key",
    (modify_component c (with_T_ true) w1), (with_T_ true k1).
  split.
  { unfold destroy, bind at 1, the_component at 1. fold (component_at c w).
    rewrite Hk, HT. unfold bind at 1.
    now rewrite (____unmounted fuel c w k Hk HT HK Hemit). }
  split; [exact Hk'|]. repeat split; auto.
  intros fuel'. now apply (destroy_destroyed fuel' c _ (with_T_ true k1)).
Qed.

Lemma destroying_an_unmounted_component_witness :
  exists message w' k',
    destroy 10 0 unmounted = (Throw (TypeError message), w')
    /\ component_at 0 w' = Some k'
    /\ T_ k' = true /\ L_ k' = None /\ M_ k' = None
    /\ componentLookup w' = componentLookup unmounted
    /\ forall fuel', destroy fuel' 0 w' = (Ok tt, w').
Proof.
  apply (destroying_an_unmounted_component_fails_half_way 10 0 unmounted
           (mkComponent "c0" false None None None None None ∅ ∅)).
  - reflexivity.
  - reflexivity.
  - reflexivity.
  - vm_compute. reflexivity.
Defined.

Lemma collect_nodes_found stop post : forall pre,
  stop ∉ pre ->
  collect_nodes stop (pre ++ stop :: post) = Ok (pre ++ [stop]).
Proof.
  induction pre as [|x pre IH]; intros Hpre; cbn.
  - now rewrite Nat.eqb_refl.
  - apply not_elem_of_cons in Hpre as [Hne Hpre].
    destruct (Nat.eqb_spec x stop) as [->|_]; [congruence|].
    now rewrite (IH Hpre).
Qed.

Lemma collect_nodes_missing stop : forall siblings,
  stop ∉ siblings -> collect_nodes stop siblings = Throw (TypeError "").
Proof.
  induction siblings as [|x l IH]; intros Hl; [reflexivity|]. cbn.
  apply not_elem_of_cons in Hl as [Hne Hl].
  destruct (Nat.eqb_spec x stop) as [->|_]; [congruence|].
  now rewrite (IH Hl).
Qed.

(** X18: the nodes of a fragment are the siblings from its start marker
    up to the first occurrence of its end marker, both included, in
    document order; reading them changes nothing. *)
Theorem the_nodes_of_a_fragment_run_from_marker_to_marker root w f pre post :
  fragments w !! root = Some f ->
  siblings_from (startNode f) w = pre ++ endNode f :: post ->
  endNode f ∉ pre ->
  fragment_nodes root w = (Ok (pre ++ [endNode f]), w).
Proof.
  intros Hf Hs Hpre. unfold fragment_nodes. rewrite Hf, Hs.
  now rewrite collect_nodes_found.
Qed.

Lemma the_nodes_of_a_fragment_witness :
  fragment_nodes 0 two_components = (Ok ([1; 2] ++ [3])%nat, two_components).
Proof.
  apply (the_nodes_of_a_fragment_run_from_marker_to_marker 0 two_components
           (mkFragment 1 3 7 false) [1; 2]%nat [4; 5; 6]%nat).
  - reflexivity.
  - vm_compute. reflexivity.
  - apply (bool_decide_unpack _). vm_compute. exact I.
Defined.

(** X19: reading the nodes of a fragment whose end marker is not among the
    siblings that follow its start marker throws a TypeError; this is the
    case of the root of a component once [destroy] has removed its
    nodes. *)
Theorem a_fragment_without_its_end_marker_has_no_nodes root w f :
  fragments w !! root = Some f ->
  endNode f ∉ siblings_from (startNode f) w ->
  exists message, fragment_nodes root w = (Throw (TypeError message), w).
Proof.
  intros Hf Hs. exists "". unfold fragment_nodes. rewrite Hf.
  now rewrite collect_nodes_missing.
Qed.

Lemma a_fragment_without_its_end_marker_witness :
  exists message,
    fragment_nodes 0 subscriber_destroyed
    = (Throw (TypeError message), subscriber_destroyed).
Proof.
  apply (a_fragment_without_its_end_marker_has_no_nodes 0
           subscriber_destroyed (mkFragment 1 3 7 true)).
  - vm_compute. reflexivity.
  - apply (bool_decide_unpack _). vm_compute. exact I.
Defined.

End DestroyTheorems.

(** * The listener tracker *)
Module TrackerExtras.
Import Lifecycle EmitterFacts Scenarios.

(** One removal leaves a function that the table does not inherit out of
    a list it is not in. *)
Lemma removeListener_fn_keeps_out target event f event' f' w :
  f <> FNative event ->
  f ∉ listeners_of target event w ->
  f ∉ listeners_of target event (removeListener_fn target event' f' w).
Proof.
  intros Hnative Hf Hin.
  destruct (removed_subset _ _ _ _ _ _ Hin) as [H|H]; auto.
Qed.

Lemma removals_keep_out target event f entries : forall w,
  f <> FNative event ->
  f ∉ listeners_of target event w ->
  f ∉ listeners_of target event
        (fold_left
           (fun w (cur : string * fn * option fn) =>
              removeListener_fn target (fst (fst cur)) (snd (fst cur)) w)
           entries w).
Proof.
  induction entries as [|x l IH]; intros w Hnative Hf; [exact Hf|].
  cbn [fold_left]. apply IH; [exact Hnative|].
  now apply removeListener_fn_keeps_out.
Qed.

Lemma removals_take_out target event f wrapped entries : forall w,
  f <> FNative event ->
  (event, f, wrapped) ∈ entries ->
  f ∉ listeners_of target event
        (fold_left
           (fun w (cur : string * fn * option fn) =>
              removeListener_fn target (fst (fst cur)) (snd (fst cur)) w)
           entries w).
Proof.
  induction entries as [|x l IH]; intros w Hnative Hin; [inversion Hin|].
  cbn [fold_left]. apply elem_of_cons in Hin as [<-|Hin]; [|now apply IH].
  apply removals_keep_out; [exact Hnative|]. cbn [fst snd].
  now apply removed_out.
Qed.

(** X20: [wrapper.removeAllListeners()] empties the wrapper's list, and
    for every entry that the list had, the function that the user gave is
    afterwards not a listener of the target for the entry's event, unless
    it is the member that [Object.prototype] has under the name of the
    event, which the table of the target inherits. *)
Theorem removeAllListeners_takes_the_user_functions_off_the_target
  self w k event f wrapped :
  wrappers w !! self = Some k ->
  (event, f, wrapped) ∈ w_listeners k ->
  f <> FNative event ->
  wrappers (wrapper_removeAllListeners self None w) !! self
  = Some (with_listeners [] k)
  /\ f ∉ listeners_of (w_target k) event
           (wrapper_removeAllListeners self None w).
Proof.
  intros Hk Hin Hnative. unfold wrapper_removeAllListeners. rewrite Hk.
  split.
  - unfold modify_wrapper. cbn [wrappers set_wrappers].
    rewrite list_lookup_alter_eq.
    assert (Hsame : forall l w0,
              wrappers (remove_user_listeners (w_target k) l w0)
              = wrappers w0).
    { intros l w0. unfold remove_user_listeners. generalize (rev l).
      intros l'. revert w0. induction l' as [|x l' IH]; intros w0;
        [reflexivity|].
      cbn [fold_left]. now rewrite IH. }
    now rewrite Hsame, Hk.
  - change (listeners_of (w_target k) event
              (modify_wrapper self (with_listeners [])
                 (remove_user_listeners (w_target k) (w_listeners k) w)))
      with (listeners_of (w_target k) event
              (remove_user_listeners (w_target k) (w_listeners k) w)).
    unfold remove_user_listeners.
    apply (removals_take_out _ _ _ wrapped); [exact Hnative|].
    apply list_elem_of_In. rewrite <- in_rev. now apply list_elem_of_In.
Qed.

Lemma removeAllListeners_witness :
  wrappers (wrapper_removeAllListeners 0 None subscribed) !! 0%nat
  = Some (mkWrapper 1 [] (Some 0%nat))
  /\ FUser "h" ∉ listeners_of 1 "tick"
                   (wrapper_removeAllListeners 0 None subscribed).
Proof.
  apply (removeAllListeners_takes_the_user_functions_off_the_target
           0 subscribed
           (mkWrapper 1
              [("destroy", FSubscribeDestroy 0 0 1,
                Some (FWrapped 0 0 (FSubscribeDestroy 0 0 1)));
               ("change", FUser "f", Some (FWrapped 1 0 (FUser "f")));
               ("tick", FUser "h", None)]
              (Some 0%nat))
           "tick" (FUser "h") None).
  - vm_compute. reflexivity.
  - cbn [w_listeners]. do 2 apply list_elem_of_further.
    apply list_elem_of_here.
  - discriminate.
Defined.

Lemma find_wrapper_new target wrapper w1 : forall l,
  (forall cur k, cur ∈ l -> wrappers w1 !! cur = Some k ->
                 w_target k = target -> cur = wrapper) ->
  (exists k, wrappers w1 !! wrapper = Some k /\ w_target k = target) ->
  find_wrapper target (l ++ [wrapper]) w1 = Some wrapper.
Proof.
  intros l Honly (k & Hk & Htarget). unfold find_wrapper.
  induction l as [|cur l IH]; cbn [app List.find].
  - now rewrite Hk, Htarget, Nat.eqb_refl.
  - assert (IH' := IH (fun c k0 Hc => Honly c k0 (list_elem_of_further _ _ _ Hc))).
    destruct (wrappers w1 !! cur) as [k'|] eqn:Hcur; [|exact IH'].
    destruct (Nat.eqb_spec (w_target k') target) as [Heq|_]; [|exact IH'].
    now rewrite (Honly cur k' (list_elem_of_here _ _) Hcur Heq).
Qed.

Lemma find_wrapper_none target l w cur k :
  find_wrapper target l w = None ->
  cur ∈ l ->
  wrappers w !! cur = Some k ->
  w_target k <> target.
Proof.
  unfold find_wrapper. intros Hfind Hin Hk Heq.
  apply list_elem_of_In in Hin.
  pose proof (find_none _ _ Hfind cur Hin) as Hfalse. cbv beta in Hfalse.
  rewrite Hk in Hfalse. apply Nat.eqb_neq in Hfalse. contradiction.
Qed.

(** What [wrapper.once] leaves of the tracker's data. *)
Lemma wrapper_once_effect self event f w k :
  wrappers w !! self = Some k ->
  JsObject.inherits event = false ->
  exists w2,
    wrapper_once self event f w = (Ok tt, w2)
    /\ trackers w2 = trackers w
    /\ arrays w2 = arrays w
    /\ forall cur,
         w_target <$> wrappers w2 !! cur = w_target <$> wrappers w !! cur.
Proof.
  intros Hk Hi. unfold wrapper_once. rewrite Hk.
  unfold bind at 1. cbn [modify].
  unfold bind at 1. unfold once.
  cbn [checkListener bind ret get modify]. unfold on, addListener.
  cbn [checkListener bind ret get].
  rewrite events_at_plain by exact Hi.
  match goal with
  | |- context [match ?X !! event with _ => _ end] =>
      destruct (X !! event) as [ls|]
  end; unfold modify; eexists; (split; [reflexivity|]);
    cbn; repeat split; intros cur;
    (destruct (decide (cur = self)) as [->|Hne];
     [rewrite list_lookup_alter_eq; now destruct (wrappers w !! self)
     |now rewrite list_lookup_alter_ne by congruence]).
Qed.

(** X21: a tracker has one wrapper for each target that is an event
    emitter: [subscribeTo] of such a target that was subscribed to before
    returns the wrapper that the first call returned, and changes
    nothing. *)
Theorem subscribing_again_gives_the_same_wrapper
  self target again first array l w wrapper w1 :
  trackers w !! self = Some array ->
  arrays w !! array = Some l ->
  tracker_subscribeTo self target first w = (Ok wrapper, w1) ->
  tracker_subscribeTo self target again w1 = (Ok wrapper, w1).
Proof.
  intros Ht Ha Hrun. unfold tracker_subscribeTo in Hrun.
  rewrite Ht, Ha in Hrun. cbn [default] in Hrun.
  change (Datatypes.id l) with l in Hrun.
  destruct (find_wrapper target l w) as [found|] eqn:Hfind.
  - injection Hrun as <- <-. unfold tracker_subscribeTo.
    rewrite Ht, Ha. cbn [default]. change (Datatypes.id l) with l.
    now rewrite Hfind.
  - set (n := length (wrappers w)) in *.
    set (new := mkWrapper target [] None) in *.
    unfold bind at 1 in Hrun. cbn [modify] in Hrun.
    set (w' := set_wrappers (fun ws => ws ++ [new]) w) in *.
    assert (Hnew : wrappers w' !! n = Some new).
    { subst w' n. cbn. rewrite lookup_app_r by lia.
      now rewrite Nat.sub_diag. }
    assert (Hmid : exists w2,
               (if first
                then wrapper_once n "destroy" (FSubscribeDestroy n array target)
                else ret tt) w' = (Ok tt, w2)
               /\ trackers w2 = trackers w
               /\ arrays w2 = arrays w
               /\ forall cur,
                    w_target <$> wrappers w2 !! cur
                    = w_target <$> wrappers w' !! cur).
    { destruct first.
      - destruct (wrapper_once_effect n "destroy"
                    (FSubscribeDestroy n array target) w' new Hnew eq_refl)
          as (w2 & E & H1 & H2 & H3).
        exists w2. auto.
      - exists w'. repeat split. }
    destruct Hmid as (w2 & E & Htr & Har & Htargets).
    unfold bind at 1 in Hrun. rewrite E in Hrun. cbn in Hrun.
    injection Hrun as <- <-.
    unfold tracker_subscribeTo. cbn [trackers set_arrays modify_wrapper
      set_wrappers arrays].
    rewrite Htr, Ht, Har, list_lookup_alter_eq, Ha.
    cbn [fmap option_fmap option_map default].
    change (Datatypes.id (l ++ [n])) with (l ++ [n]).
    assert (Htargets' : forall cur,
              w_target <$>
                wrappers (set_arrays (alter (fun l0 => l0 ++ [n]) array)
                            (modify_wrapper n (with_subscribeTo (Some self))
                               w2)) !! cur
              = w_target <$> (wrappers w ++ [new]) !! cur).
    { intros cur. change (wrappers w ++ [new]) with (wrappers w').
      rewrite <- (Htargets cur). cbn.
      destruct (decide (cur = n)) as [->|Hne].
      - rewrite list_lookup_alter_eq. now destruct (wrappers w2 !! n).
      - now rewrite list_lookup_alter_ne by congruence. }
    rewrite find_wrapper_new; [reflexivity| |].
    + intros cur k Hin Hk Htarget. specialize (Htargets' cur).
      rewrite Hk in Htargets'. cbn in Htargets'.
      destruct (decide (cur < n)%nat) as [Hlt|Hge].
      * rewrite lookup_app_l in Htargets' by exact Hlt.
        destruct (wrappers w !! cur) as [k0|] eqn:Hk0; [|discriminate].
        cbn in Htargets'. exfalso.
        apply (find_wrapper_none target l w cur k0 Hfind Hin Hk0).
        congruence.
      * destruct (decide (cur = n)) as [->|Hne]; [reflexivity|].
        rewrite lookup_ge_None_2 in Htargets'; [discriminate|].
        rewrite length_app. cbn. subst n. lia.
    + specialize (Htargets' n).
      rewrite lookup_app_r, Nat.sub_diag in Htargets' by (subst n; lia).
      cbn in Htargets'.
      destruct (alter (with_subscribeTo (Some self)) n (wrappers w2) !! n)
        as [k|] eqn:Hk; [|discriminate].
      exists k. split; [exact Hk|]. cbn in Htargets'. congruence.
Qed.

Lemma subscribing_again_witness :
  tracker_subscribeTo 0 1 false
    (snd (tracker_subscribeTo 0 1 true
            (snd (new_SubscriptionTracker two_components))))
  = (Ok 0%nat,
     snd (tracker_subscribeTo 0 1 true
            (snd (new_SubscriptionTracker two_components)))).
Proof.
  apply (subscribing_again_gives_the_same_wrapper 0 1 false true 0 []
           (snd (new_SubscriptionTracker two_components))).
  - reflexivity.
  - reflexivity.
  - vm_compute. reflexivity.
Defined.

End TrackerExtras.

(** * The key sequence: what it does not promise *)
Module KeySequenceExtras.
Import KeySequence KeySequenceClaims.

Lemma append_longer (s t : string) :
  String.length (s +:+ t) = (String.length s + String.length t)%nat.
Proof. induction s as [|a s IH]; simpl; [reflexivity | now f_equal]. Qed.

Lemma suffixed_differs (key : string) : key +:+ "_1" <> key.
Proof.
  intros H. apply (f_equal String.length) in H.
  rewrite append_longer in H. cbn in H. lia.
Qed.

(** No key with the suffix "_1" is the key "__proto__". *)
Lemma suffixed_is_not_proto (key : string) : key +:+ "_1" <> "__proto__".
Proof.
  intros H.
  assert (Hlen : String.length key = 7%nat).
  { apply (f_equal String.length) in H. rewrite append_longer in H.
    cbn in H. lia. }
  destruct key as [|a0 [|a1 [|a2 [|a3 [|a4 [|a5 [|a6 [|a7 key]]]]]]]];
    try discriminate.
Qed.

(** X22: the keys returned in one scope are not always distinct: once a
    key other than "__proto__" was used twice, its second use got the key
    with the suffix "_1", and a first use of that suffixed key is returned
    unchanged, so both uses get the same key. *)
Theorem a_suffixed_key_can_be_returned_twice (key : string) :
  key <> "__proto__" ->
  fst (c_all [key; key; key +:+ "_1"] new_KeySequence)
  = [key; key +:+ "_1"; key +:+ "_1"].
Proof.
  intros Hkey. cbn [c_all]. unfold new_KeySequence.
  rewrite (c__own key ∅ Hkey), lookup_empty.
  rewrite (c__own key _ Hkey), lookup_insert_eq.
  rewrite (c__own (key +:+ "_1") _ (suffixed_is_not_proto key)).
  rewrite lookup_insert_ne by (intros H; symmetry in H;
    exact (suffixed_differs key H)).
  rewrite lookup_insert_ne by (intros H; symmetry in H;
    exact (suffixed_differs key H)).
  rewrite lookup_empty. reflexivity.
Qed.

Lemma a_suffixed_key_witness :
  fst (c_all ["item"; "item"; "item" +:+ "_1"] new_KeySequence)
  = ["item"; "item" +:+ "_1"; "item" +:+ "_1"].
Proof.
  apply (a_suffixed_key_can_be_returned_twice "item"). discriminate.
Defined.

End KeySequenceExtras.
